(** * isaac_ros_visual_slam: the tracking tick and the asynchronous map commands

    A shallow embedding of [VisualSlamNode::VisualSlamImpl]
    (src/impl/visual_slam_impl.cpp).  The object's members become a record,
    every member function a function from the record to the new record and
    the list of observable events it produced (engine calls, log lines,
    published messages, calls into the synchronizer and the sequencer).

    What the engine, the file system, the clock and the subscribers answer is
    not decided by this file: each entry point takes a record with those
    answers, so that the theorems hold for every engine behaviour.

    The synchronizer and the sequencer are implemented outside this file:
    the sensor callbacks take what they do in reaction to a message as an
    argument.

    Left out: the visualization helpers, the intrinsics and extrinsics
    written into the camera rig, the text of log arguments, and the mutex
    around [localization_future_] (the embedding is sequential). *)

From Stdlib Require Import ZArith List Bool Floats.PrimFloat Numbers.Cyclic.Int63.Uint63.
From stdpp Require Import gmap list strings sorting.

Local Open Scope string_scope.
Local Open Scope list_scope.
Local Open Scope Z_scope.

(** ** Status codes of the engine

    The constants used by the implementation are constructors; any other
    value of the engine's status type is [CUVSLAM_OTHER_STATUS]. *)

Inductive CUVSLAM_Status : Type :=
| CUVSLAM_SUCCESS
| CUVSLAM_TRACKING_LOST
| CUVSLAM_CAN_NOT_LOCALIZE
| CUVSLAM_GENERIC_ERROR
| CUVSLAM_SLAM_IS_NOT_INITIALIZED
| CUVSLAM_OTHER_STATUS (code : Z).

#[global] Instance CUVSLAM_Status_eq_dec : EqDecision CUVSLAM_Status.
Proof. solve_decision. Defined.

Definition is_success (s : CUVSLAM_Status) : bool := bool_decide (s = CUVSLAM_SUCCESS).

(** ** Doubles *)

(** [static_cast<double>] of a 64-bit integer (exact below 2^53, rounded to
    nearest above, as the hardware conversion is). *)
Definition double_of_int64 (z : Z) : float :=
  if z <? 0 then PrimFloat.opp (PrimFloat.of_uint63 (Uint63.of_Z (- z)))
  else PrimFloat.of_uint63 (Uint63.of_Z z).

(** [std::max(a, b)]: [(a < b) ? b : a]. *)
Definition std_max (a b : float) : float := if PrimFloat.ltb a b then b else a.

(** [a > b] on doubles. *)
Definition double_gt (a b : float) : bool := PrimFloat.ltb b a.

(** The 6x6 identity written by the two nested loops of [UpdatePose]:
    entry [i * 6 + j] is [i == j ? 1 : 0]. *)
Definition identity_row (i : nat) : list float :=
  map (fun j => if Nat.eqb i j then 1%float else 0%float) (seq 0 6).

Definition identity_covariance : list float :=
  concat (map identity_row (seq 0 6)).

(** A value-initialised [std::array<double, 36>] of a ROS message. *)
Definition zero_covariance : list float := repeat 0%float 36.

(** ** Messages entering and leaving the node *)

Record Twist : Type := {
  linear_x : float; linear_y : float; linear_z : float;
  angular_x : float; angular_y : float; angular_z : float
}.

Definition zero_twist : Twist :=
  {| linear_x := 0; linear_y := 0; linear_z := 0;
     angular_x := 0; angular_y := 0; angular_z := 0 |}.

Record Vector3 : Type := { vx : float; vy : float; vz : float }.

(** [sensor_msgs::msg::Imu]: the stamp in nanoseconds, the frame and the two
    measured vectors. *)
Record ImuType : Type := {
  imu_stamp : Z;
  imu_frame_id : string;
  imu_angular_velocity : Vector3;
  imu_linear_acceleration : Vector3
}.

(** A Nitros image view: its time stamp in nanoseconds and a token that
    stands for the GPU buffer. *)
Record ImageType : Type := {
  image_stamp : Z;
  image_buffer : nat
}.

Record CameraInfoType : Type := {
  camera_info_stamp : Z;
  camera_info_frame_id : string
}.

(** [TocuVSLAMImuMeasurement] and [TocuVSLAMImage] repack their arguments. *)
Record CUVSLAM_ImuMeasurement : Type := {
  measurement_of : ImuType
}.

Definition TocuVSLAMImuMeasurement (msg : ImuType) : CUVSLAM_ImuMeasurement :=
  {| measurement_of := msg |}.

Record CUVSLAM_Image : Type := {
  camera_index : Z;
  pixels : ImageType;
  timestamp_ns : Z;
  input_mask : option ImageType
}.

Definition TocuVSLAMImage (idx : Z) (image_msg : ImageType) (ts : Z)
    (mask : option ImageType) : CUVSLAM_Image :=
  {| camera_index := idx; pixels := image_msg; timestamp_ns := ts; input_mask := mask |}.

Record Header : Type := { stamp : Z; frame_id : string }.

Inductive Severity : Type := DEBUG | INFO | WARN | ERROR.

Inductive Publisher : Type :=
| tracking_vo_pose_pub_
| tracking_vo_pose_covariance_pub_
| tracking_odometry_pub_
| vis_vo_velocity_pub_
| vis_slam_odometry_pub_
| tracking_vo_path_pub_
| tracking_slam_path_pub_
| vis_gravity_pub_
| visual_slam_status_pub_
| diagnostics_pub_.

#[global] Instance Publisher_eq_dec : EqDecision Publisher.
Proof. solve_decision. Defined.

(** ** Collaborators that live in other translation units

    Rigid transforms and their conversions (tf2, cuvslam_ros_conversion), the
    pose and velocity caches and [LimitedVector] are used by this file but
    implemented elsewhere.  The embedding is parametric in them. *)

Class Collaborators : Type := {
  Transform : Type;
  CUVSLAM_Pose : Type;
  PoseType : Type;
  default_pose : CUVSLAM_Pose;
  FromcuVSLAMPose : CUVSLAM_Pose -> Transform;
  FromcuVSLAMCovariance : list float -> list float;
  ChangeBasis : Transform -> Transform -> Transform;
  canonical_pose_cuvslam : Transform;
  tf_mul : Transform -> Transform -> Transform;
  tf_inverse : Transform -> Transform;
  tf_apply : Transform -> Vector3 -> Vector3;
  tf_toMsg : Transform -> PoseType;
  (* pose_cache *)
  PoseCache : Type;
  pose_cache_Reset : PoseCache -> PoseCache;
  pose_cache_Add : Z -> Transform -> PoseCache -> PoseCache;
  pose_cache_GetVelocity : PoseCache -> Twist;
  (* [GetCovariance(array&)]: the flag returned and the array as it is left *)
  pose_cache_GetCovariance : PoseCache -> list float -> bool * list float;
  (* velocity_cache *)
  VelocityCache : Type;
  velocity_cache_Reset : VelocityCache -> VelocityCache;
  velocity_cache_Add : Twist -> VelocityCache -> VelocityCache;
  velocity_cache_GetCovariance : VelocityCache -> list float -> bool * list float;
  (* LimitedVector<T> *)
  LimitedVector : Type -> Type;
  limited_add : forall {T : Type}, T -> LimitedVector T -> LimitedVector T;
  limited_getData : forall {T : Type}, LimitedVector T -> list T
}.

Section VisualSlam.

Context `{Collab : Collaborators}.

Record PoseStampedType : Type := {
  pose_stamped_header : Header;
  pose_stamped_pose : PoseType
}.

Record OdometryType : Type := {
  odom_header : Header;
  odom_child_frame_id : string;
  odom_pose : PoseType;
  odom_pose_covariance : list float;
  odom_twist : Twist;
  odom_twist_covariance : list float
}.

Record VisualSlamStatusType : Type := {
  status_header : Header;
  vo_state : Z;
  node_callback_execution_time : float;
  track_execution_time : float;
  track_execution_time_max : float;
  track_execution_time_mean : float
}.

Inductive DiagnosticLevel : Type := DIAG_OK | DIAG_WARN.

Record DiagnosticArrayType : Type := {
  diag_header : Header;
  diag_level : DiagnosticLevel;
  diag_vo_status : CUVSLAM_Status;
  diag_track_execution_time : float;
  diag_track_execution_time_max : float;
  diag_track_execution_time_mean : float;
  diag_localized_in_exist_map : string
}.

Inductive Message : Type :=
| MsgPoseStamped (m : PoseStampedType)
| MsgPoseWithCovarianceStamped (h : Header) (pose : PoseType) (covariance : list float)
| MsgOdometry (m : OdometryType)
| MsgVelocityMarkers (stamp_ns : Z) (frame : string) (velocity : Twist)
| MsgGravityMarker (stamp_ns : Z) (frame : string) (tip : Vector3)
| MsgPath (h : Header) (poses : list PoseStampedType)
| MsgVisualSlamStatus (m : VisualSlamStatusType)
| MsgDiagnostics (m : DiagnosticArrayType).

(** ** The asynchronous commands *)

(** [LocalizeInExistDbContext::Response] and [SaveToSlamDbContext::Response]. *)
Record LocalizeResponse : Type := {
  localize_status : CUVSLAM_Status;
  pose_in_db : CUVSLAM_Pose
}.

Record SaveResponse : Type := { save_status : CUVSLAM_Status }.

(** A promise and the futures obtained from it share one state, named here by
    a number.  The shared state of a response type [R] is an [option R]:
    [None] while no value has been set. *)

(** [LocalizeInExistDbContext]: the promise and the stored pose hint. *)
Record LocalizeInExistDbContext : Type := {
  response_promise : nat;
  pose_storage : CUVSLAM_Pose
}.

(** A completion the engine delivers by calling the handler it was given,
    with the context pointer it was given.  [SaveMap] hands out the address of
    its local context (named here by the promise inside it); the localize
    path always hands out the address of the member
    [localize_in_exist_db_context]. *)
Inductive Completion : Type :=
| CompleteSave (context : nat) (status : CUVSLAM_Status)
| CompleteLocalize (status : CUVSLAM_Status) (pose : option CUVSLAM_Pose).

Inductive EngineCall : Type :=
| CUVSLAM_CreateTracker
| CUVSLAM_DestroyTracker (handle : nat)
| CUVSLAM_GroundConstraintCreate
| CUVSLAM_GroundConstraintDestroy (handle : nat)
| CUVSLAM_GroundConstraintAddNextPose (pose : CUVSLAM_Pose)
| CUVSLAM_GroundConstraintGetPoseOnGround
| CUVSLAM_RegisterImuMeasurement (ts : Z) (m : CUVSLAM_ImuMeasurement)
| CUVSLAM_TrackGpuMem (images : list CUVSLAM_Image)
| CUVSLAM_GetSlamPose
| CUVSLAM_GetLastGravity
| CUVSLAM_SaveToSlamDb (folder : string) (context : nat)
| CUVSLAM_LocalizeInExistDb (folder : string) (hint : CUVSLAM_Pose)
| CUVSLAM_InitDefaultConfiguration.

Inductive Exception : Type :=
| promise_already_satisfied
| transform_not_found
| out_of_range
| length_error
| bad_optional_access.

Inductive Event : Type :=
| EvLog (level : Severity) (text : string)
| EvEngine (call : EngineCall)
| EvPublish (pub : Publisher) (msg : Message)
| EvSendTransform (stamp_ns : Z) (target source : string) (pose : Transform)
| EvSyncAddMessage (index : Z) (ts : Z) (image : ImageType)
| EvSequencerCallbackStream1 (ts : Z) (msg : ImuType)
| EvFutureWaitFor (future : nat) (seconds : Z)
| EvFutureGet (future : nat)
| EvInitialize
| EvDetachedLocalizeOnStartup
| EvUncaught (e : Exception)
| EvSequencerCallbackStream2 (ts : Z) (msgs : list (Z * ImageType))
| EvUndefinedBehaviour.

Definition is_engine_event (e : Event) : bool :=
  match e with EvEngine _ => true | _ => false end.

Definition is_publication (e : Event) : bool :=
  match e with EvPublish _ _ | EvSendTransform _ _ _ _ => true | _ => false end.

(** ** Parameters of the node read by the implementation *)

Record NodeParams : Type := {
  enable_imu_fusion_ : bool;
  num_cameras_ : Z;
  enable_localization_n_mapping_ : bool;
  enable_ground_constraint_in_odometry_ : bool;
  localize_on_startup_ : bool;
  image_jitter_threshold_ms_ : float;
  override_publishing_stamp_ : bool;
  publish_map_to_odom_tf_ : bool;
  invert_map_to_odom_tf_ : bool;
  publish_odom_to_base_tf_ : bool;
  invert_odom_to_base_tf_ : bool;
  map_frame_ : string;
  odom_frame_ : string;
  base_frame_ : string;
  camera_optical_frames_ : list string;
  imu_frame_ : string
}.

(** ** The members of [VisualSlamImpl] *)

Record VisualSlamImpl : Type := {
  node : NodeParams;
  cuvslam_handle : option nat;
  ground_constraint_handle : option nat;
  initial_imu_message : option ImuType;
  initial_camera_info_messages : gmap Z CameraInfoType;
  pose_cache : PoseCache;
  velocity_cache : VelocityCache;
  vo_path : LimitedVector PoseStampedType;
  slam_path : LimitedVector PoseStampedType;
  track_execution_times : LimitedVector float;
  last_track_ts : Z;
  localized_in_exist_map_ : bool;
  (* shared states of the promises created so far, by response type, and the
     next free name *)
  localize_promises : gmap nat (option LocalizeResponse);
  save_promises : gmap nat (option SaveResponse);
  next_promise : nat;
  localize_in_exist_db_context : LocalizeInExistDbContext;
  (* std::optional<boost::future<std::optional<PoseType>>> *)
  localization_future_ : option nat
}.

(** Assignment to one member; the others keep their values. *)

Definition set_cuvslam_handle (v : option nat) (st : VisualSlamImpl) : VisualSlamImpl :=
  {| node := node st; cuvslam_handle := v;
     ground_constraint_handle := ground_constraint_handle st;
     initial_imu_message := initial_imu_message st;
     initial_camera_info_messages := initial_camera_info_messages st;
     pose_cache := pose_cache st; velocity_cache := velocity_cache st; vo_path := vo_path st;
     slam_path := slam_path st; track_execution_times := track_execution_times st;
     last_track_ts := last_track_ts st; localized_in_exist_map_ := localized_in_exist_map_ st;
     localize_promises := localize_promises st; save_promises := save_promises st;
     next_promise := next_promise st;
     localize_in_exist_db_context := localize_in_exist_db_context st;
     localization_future_ := localization_future_ st |}.

Definition set_ground_constraint_handle (v : option nat) (st : VisualSlamImpl) : VisualSlamImpl :=
  {| node := node st; cuvslam_handle := cuvslam_handle st; ground_constraint_handle := v;
     initial_imu_message := initial_imu_message st;
     initial_camera_info_messages := initial_camera_info_messages st;
     pose_cache := pose_cache st; velocity_cache := velocity_cache st; vo_path := vo_path st;
     slam_path := slam_path st; track_execution_times := track_execution_times st;
     last_track_ts := last_track_ts st; localized_in_exist_map_ := localized_in_exist_map_ st;
     localize_promises := localize_promises st; save_promises := save_promises st;
     next_promise := next_promise st;
     localize_in_exist_db_context := localize_in_exist_db_context st;
     localization_future_ := localization_future_ st |}.

Definition set_initial_imu_message (v : option ImuType) (st : VisualSlamImpl) : VisualSlamImpl :=
  {| node := node st; cuvslam_handle := cuvslam_handle st;
     ground_constraint_handle := ground_constraint_handle st; initial_imu_message := v;
     initial_camera_info_messages := initial_camera_info_messages st;
     pose_cache := pose_cache st; velocity_cache := velocity_cache st; vo_path := vo_path st;
     slam_path := slam_path st; track_execution_times := track_execution_times st;
     last_track_ts := last_track_ts st; localized_in_exist_map_ := localized_in_exist_map_ st;
     localize_promises := localize_promises st; save_promises := save_promises st;
     next_promise := next_promise st;
     localize_in_exist_db_context := localize_in_exist_db_context st;
     localization_future_ := localization_future_ st |}.

Definition set_initial_camera_info_messages (v : gmap Z CameraInfoType)
    (st : VisualSlamImpl) : VisualSlamImpl :=
  {| node := node st; cuvslam_handle := cuvslam_handle st;
     ground_constraint_handle := ground_constraint_handle st;
     initial_imu_message := initial_imu_message st; initial_camera_info_messages := v;
     pose_cache := pose_cache st; velocity_cache := velocity_cache st; vo_path := vo_path st;
     slam_path := slam_path st; track_execution_times := track_execution_times st;
     last_track_ts := last_track_ts st; localized_in_exist_map_ := localized_in_exist_map_ st;
     localize_promises := localize_promises st; save_promises := save_promises st;
     next_promise := next_promise st;
     localize_in_exist_db_context := localize_in_exist_db_context st;
     localization_future_ := localization_future_ st |}.

Definition set_pose_cache (v : PoseCache) (st : VisualSlamImpl) : VisualSlamImpl :=
  {| node := node st; cuvslam_handle := cuvslam_handle st;
     ground_constraint_handle := ground_constraint_handle st;
     initial_imu_message := initial_imu_message st;
     initial_camera_info_messages := initial_camera_info_messages st; pose_cache := v;
     velocity_cache := velocity_cache st; vo_path := vo_path st; slam_path := slam_path st;
     track_execution_times := track_execution_times st; last_track_ts := last_track_ts st;
     localized_in_exist_map_ := localized_in_exist_map_ st;
     localize_promises := localize_promises st; save_promises := save_promises st;
     next_promise := next_promise st;
     localize_in_exist_db_context := localize_in_exist_db_context st;
     localization_future_ := localization_future_ st |}.

Definition set_velocity_cache (v : VelocityCache) (st : VisualSlamImpl) : VisualSlamImpl :=
  {| node := node st; cuvslam_handle := cuvslam_handle st;
     ground_constraint_handle := ground_constraint_handle st;
     initial_imu_message := initial_imu_message st;
     initial_camera_info_messages := initial_camera_info_messages st;
     pose_cache := pose_cache st; velocity_cache := v; vo_path := vo_path st;
     slam_path := slam_path st; track_execution_times := track_execution_times st;
     last_track_ts := last_track_ts st; localized_in_exist_map_ := localized_in_exist_map_ st;
     localize_promises := localize_promises st; save_promises := save_promises st;
     next_promise := next_promise st;
     localize_in_exist_db_context := localize_in_exist_db_context st;
     localization_future_ := localization_future_ st |}.

Definition set_vo_path (v : LimitedVector PoseStampedType) (st : VisualSlamImpl) : VisualSlamImpl :=
  {| node := node st; cuvslam_handle := cuvslam_handle st;
     ground_constraint_handle := ground_constraint_handle st;
     initial_imu_message := initial_imu_message st;
     initial_camera_info_messages := initial_camera_info_messages st;
     pose_cache := pose_cache st; velocity_cache := velocity_cache st; vo_path := v;
     slam_path := slam_path st; track_execution_times := track_execution_times st;
     last_track_ts := last_track_ts st; localized_in_exist_map_ := localized_in_exist_map_ st;
     localize_promises := localize_promises st; save_promises := save_promises st;
     next_promise := next_promise st;
     localize_in_exist_db_context := localize_in_exist_db_context st;
     localization_future_ := localization_future_ st |}.

Definition set_slam_path (v : LimitedVector PoseStampedType)
    (st : VisualSlamImpl) : VisualSlamImpl :=
  {| node := node st; cuvslam_handle := cuvslam_handle st;
     ground_constraint_handle := ground_constraint_handle st;
     initial_imu_message := initial_imu_message st;
     initial_camera_info_messages := initial_camera_info_messages st;
     pose_cache := pose_cache st; velocity_cache := velocity_cache st; vo_path := vo_path st;
     slam_path := v; track_execution_times := track_execution_times st;
     last_track_ts := last_track_ts st; localized_in_exist_map_ := localized_in_exist_map_ st;
     localize_promises := localize_promises st; save_promises := save_promises st;
     next_promise := next_promise st;
     localize_in_exist_db_context := localize_in_exist_db_context st;
     localization_future_ := localization_future_ st |}.

Definition set_track_execution_times (v : LimitedVector float)
    (st : VisualSlamImpl) : VisualSlamImpl :=
  {| node := node st; cuvslam_handle := cuvslam_handle st;
     ground_constraint_handle := ground_constraint_handle st;
     initial_imu_message := initial_imu_message st;
     initial_camera_info_messages := initial_camera_info_messages st;
     pose_cache := pose_cache st; velocity_cache := velocity_cache st; vo_path := vo_path st;
     slam_path := slam_path st; track_execution_times := v; last_track_ts := last_track_ts st;
     localized_in_exist_map_ := localized_in_exist_map_ st;
     localize_promises := localize_promises st; save_promises := save_promises st;
     next_promise := next_promise st;
     localize_in_exist_db_context := localize_in_exist_db_context st;
     localization_future_ := localization_future_ st |}.

Definition set_last_track_ts (v : Z) (st : VisualSlamImpl) : VisualSlamImpl :=
  {| node := node st; cuvslam_handle := cuvslam_handle st;
     ground_constraint_handle := ground_constraint_handle st;
     initial_imu_message := initial_imu_message st;
     initial_camera_info_messages := initial_camera_info_messages st;
     pose_cache := pose_cache st; velocity_cache := velocity_cache st; vo_path := vo_path st;
     slam_path := slam_path st; track_execution_times := track_execution_times st;
     last_track_ts := v; localized_in_exist_map_ := localized_in_exist_map_ st;
     localize_promises := localize_promises st; save_promises := save_promises st;
     next_promise := next_promise st;
     localize_in_exist_db_context := localize_in_exist_db_context st;
     localization_future_ := localization_future_ st |}.

Definition set_localize_promises (v : gmap nat (option LocalizeResponse))
    (st : VisualSlamImpl) : VisualSlamImpl :=
  {| node := node st; cuvslam_handle := cuvslam_handle st;
     ground_constraint_handle := ground_constraint_handle st;
     initial_imu_message := initial_imu_message st;
     initial_camera_info_messages := initial_camera_info_messages st;
     pose_cache := pose_cache st; velocity_cache := velocity_cache st; vo_path := vo_path st;
     slam_path := slam_path st; track_execution_times := track_execution_times st;
     last_track_ts := last_track_ts st; localized_in_exist_map_ := localized_in_exist_map_ st;
     localize_promises := v; save_promises := save_promises st;
     next_promise := next_promise st;
     localize_in_exist_db_context := localize_in_exist_db_context st;
     localization_future_ := localization_future_ st |}.

Definition set_save_promises (v : gmap nat (option SaveResponse))
    (st : VisualSlamImpl) : VisualSlamImpl :=
  {| node := node st; cuvslam_handle := cuvslam_handle st;
     ground_constraint_handle := ground_constraint_handle st;
     initial_imu_message := initial_imu_message st;
     initial_camera_info_messages := initial_camera_info_messages st;
     pose_cache := pose_cache st; velocity_cache := velocity_cache st; vo_path := vo_path st;
     slam_path := slam_path st; track_execution_times := track_execution_times st;
     last_track_ts := last_track_ts st; localized_in_exist_map_ := localized_in_exist_map_ st;
     localize_promises := localize_promises st; save_promises := v;
     next_promise := next_promise st;
     localize_in_exist_db_context := localize_in_exist_db_context st;
     localization_future_ := localization_future_ st |}.

Definition set_next_promise (v : nat) (st : VisualSlamImpl) : VisualSlamImpl :=
  {| node := node st; cuvslam_handle := cuvslam_handle st;
     ground_constraint_handle := ground_constraint_handle st;
     initial_imu_message := initial_imu_message st;
     initial_camera_info_messages := initial_camera_info_messages st;
     pose_cache := pose_cache st; velocity_cache := velocity_cache st; vo_path := vo_path st;
     slam_path := slam_path st; track_execution_times := track_execution_times st;
     last_track_ts := last_track_ts st; localized_in_exist_map_ := localized_in_exist_map_ st;
     localize_promises := localize_promises st; save_promises := save_promises st;
     next_promise := v; localize_in_exist_db_context := localize_in_exist_db_context st;
     localization_future_ := localization_future_ st |}.

Definition set_localize_in_exist_db_context (v : LocalizeInExistDbContext)
    (st : VisualSlamImpl) : VisualSlamImpl :=
  {| node := node st; cuvslam_handle := cuvslam_handle st;
     ground_constraint_handle := ground_constraint_handle st;
     initial_imu_message := initial_imu_message st;
     initial_camera_info_messages := initial_camera_info_messages st;
     pose_cache := pose_cache st; velocity_cache := velocity_cache st; vo_path := vo_path st;
     slam_path := slam_path st; track_execution_times := track_execution_times st;
     last_track_ts := last_track_ts st; localized_in_exist_map_ := localized_in_exist_map_ st;
     localize_promises := localize_promises st; save_promises := save_promises st;
     next_promise := next_promise st; localize_in_exist_db_context := v;
     localization_future_ := localization_future_ st |}.

Definition set_localization_future_ (v : option nat) (st : VisualSlamImpl) : VisualSlamImpl :=
  {| node := node st; cuvslam_handle := cuvslam_handle st;
     ground_constraint_handle := ground_constraint_handle st;
     initial_imu_message := initial_imu_message st;
     initial_camera_info_messages := initial_camera_info_messages st;
     pose_cache := pose_cache st; velocity_cache := velocity_cache st; vo_path := vo_path st;
     slam_path := slam_path st; track_execution_times := track_execution_times st;
     last_track_ts := last_track_ts st; localized_in_exist_map_ := localized_in_exist_map_ st;
     localize_promises := localize_promises st; save_promises := save_promises st;
     next_promise := next_promise st;
     localize_in_exist_db_context := localize_in_exist_db_context st;
     localization_future_ := v |}.

(** ** boost::promise *)

(** A default-constructed promise of either response type: a new shared
    state with no value. *)
Definition new_localize_promise (st : VisualSlamImpl) : nat * VisualSlamImpl :=
  let p := next_promise st in
  (p, set_next_promise (S p) (set_localize_promises (<[p := None]> (localize_promises st)) st)).

Definition new_save_promise (st : VisualSlamImpl) : nat * VisualSlamImpl :=
  let p := next_promise st in
  (p, set_next_promise (S p) (set_save_promises (<[p := None]> (save_promises st)) st)).

(** [promise::set_value]: stores the value when the state has none, and
    throws [promise_already_satisfied] otherwise. *)
Definition set_value {R : Type} (p : nat) (r : R) (ps : gmap nat (option R))
    : Exception + gmap nat (option R) :=
  match ps !! p with
  | Some None => inr (<[p := Some r]> ps)
  | _ => inl promise_already_satisfied
  end.

(** What a holder of the future of promise [p] sees: [Some r] once the
    future is ready, [None] while a [get()] would block. *)
Definition future_value {R : Type} (p : nat) (ps : gmap nat (option R)) : option R :=
  match ps !! p with
  | Some (Some r) => Some r
  | _ => None
  end.

(** ** Completion handlers *)

(** [SaveToSlamDbResponse(anonymous_context, status)].  An exception thrown
    by [set_value] leaves the handler and is recorded as uncaught. *)
Definition SaveToSlamDbResponse (context : nat) (status : CUVSLAM_Status)
    (st : VisualSlamImpl) : VisualSlamImpl * list Event :=
  let response := {| save_status := status |} in
  match set_value context response (save_promises st) with
  | inr ps => (set_save_promises ps st, [])
  | inl e => (st, [EvUncaught e])
  end.

(** [LocalizeInExistDbResponse(anonymous_context, status, pose_in_db)], with
    [anonymous_context] the address of the member
    [localize_in_exist_db_context]: the handler reads whatever context the
    member holds when it runs.  [pose_in_db] is only read on success. *)
Definition localize_response (status : CUVSLAM_Status) (pose : option CUVSLAM_Pose)
    : LocalizeResponse :=
  {| localize_status := status;
     pose_in_db := if is_success status then default default_pose pose else default_pose |}.

Definition LocalizeInExistDbResponse (status : CUVSLAM_Status)
    (pose : option CUVSLAM_Pose) (st : VisualSlamImpl) : VisualSlamImpl * list Event :=
  let context := localize_in_exist_db_context st in
  let response := localize_response status pose in
  match set_value (response_promise context) response (localize_promises st) with
  | inr ps => (set_localize_promises ps st, [])
  | inl e => (st, [EvUncaught e])
  end.

Definition deliver (c : Completion) (st : VisualSlamImpl) : VisualSlamImpl * list Event :=
  match c with
  | CompleteSave context status => SaveToSlamDbResponse context status st
  | CompleteLocalize status pose => LocalizeInExistDbResponse status pose st
  end.

(** A run of handler invocations, in order: those the engine makes before an
    initiating call returns.  Later completions arrive from the engine's side
    at a time of its choosing and are steps of their own ([deliver]). *)
Fixpoint deliver_all (cs : list Completion) (st : VisualSlamImpl)
    : VisualSlamImpl * list Event :=
  match cs with
  | [] => (st, [])
  | c :: cs' =>
      let '(st1, ev1) := deliver c st in
      let '(st2, ev2) := deliver_all cs' st1 in
      (st2, ev1 ++ ev2)
  end.

(** ** SaveMap *)

(** What [CUVSLAM_SaveToSlamDb] answers: its return value and the handler
    invocations it makes before returning. *)
Record SaveEnv : Type := {
  save_call_result : CUVSLAM_Status;
  save_completions : list Completion
}.

(** [SaveMap] either returns a status or is suspended in
    [response_future.get()] on the promise of its local context. *)
Inductive SaveMapResult : Type :=
| SaveMapReturns (status : CUVSLAM_Status)
| SaveMapBlocks (context : nat).

(** The tail of [SaveMap], after [response_future.get()] has returned. *)
Definition SaveMap_finish (response : SaveResponse) : SaveMapResult * list Event :=
  if negb (is_success (save_status response)) then
    (SaveMapReturns (save_status response), [EvLog ERROR "Failed to save map. Error %d"])
  else
    (SaveMapReturns (save_status response), [EvLog INFO "Finished saving map with status %d."]).

Definition SaveMap (env : SaveEnv) (map_folder_path : string) (st : VisualSlamImpl)
    : VisualSlamImpl * list Event * SaveMapResult :=
  let ev0 := [EvLog INFO "Saving map to %s"] in
  if negb (enable_localization_n_mapping_ (node st)) then
    (st,
     ev0 ++ [EvLog WARN "Cannot save map because `enable_localization_n_mapping` is set to false."],
     SaveMapReturns CUVSLAM_SLAM_IS_NOT_INITIALIZED)
  else
    (* SaveToSlamDbContext context; context.response_promise.get_future() is
       always valid, so the [CUVSLAM_GENERIC_ERROR] exit is never taken *)
    let '(context, st1) := new_save_promise st in
    let '(st2, ev_cb) := deliver_all (save_completions env) st1 in
    let ev1 := ev0 ++ [EvEngine (CUVSLAM_SaveToSlamDb map_folder_path context)] ++ ev_cb in
    if negb (is_success (save_call_result env)) then
      (st2, ev1 ++ [EvLog ERROR "CUVSLAM_SaveToSlamDb Error %d"],
       SaveMapReturns (save_call_result env))
    else
      match future_value context (save_promises st2) with
      | Some response =>
          let '(res, ev2) := SaveMap_finish response in (st2, ev1 ++ ev2, res)
      | None => (st2, ev1, SaveMapBlocks context)
      end.

(** A caller suspended in [SaveMap] proceeds once its promise has a value. *)
Definition SaveMap_resume (context : nat) (st : VisualSlamImpl)
    : option (SaveMapResult * list Event) :=
  SaveMap_finish <$> future_value context (save_promises st).

(** ** CuvslamInternalLocalizeInMapAsync *)

Record DirEntry : Type := {
  is_regular_file : bool;
  extension : string
}.

(** What the file system and [CUVSLAM_LocalizeInExistDb] answer. *)
Record LocalizeEnv : Type := {
  fs_is_directory : string -> bool;
  fs_directory_iterator : string -> list DirEntry;
  localize_call_result : CUVSLAM_Status;
  localize_completions : list Completion
}.

Definition has_lmdb_files (entries : list DirEntry) : bool :=
  existsb (fun entry => is_regular_file entry && bool_decide (extension entry = ".mdb")) entries.

(** Returns the future (named by its shared state) next to the new state. *)
Definition CuvslamInternalLocalizeInMapAsync (env : LocalizeEnv) (map_folder_path : string)
    (pose_hint : CUVSLAM_Pose) (st : VisualSlamImpl) : VisualSlamImpl * list Event * nat :=
  (* localize_in_exist_db_context = LocalizeInExistDbContext(); *)
  let '(p, st0) := new_localize_promise st in
  let st1 :=
    set_localize_in_exist_db_context
      {| response_promise := p; pose_storage := default_pose |} st0 in
  let response_future := p in
  if negb (enable_localization_n_mapping_ (node st1)) then
    let '(st2, ev) := LocalizeInExistDbResponse CUVSLAM_SLAM_IS_NOT_INITIALIZED None st1 in
    (st2,
     EvLog ERROR "Cannot localize in map because `enable_localization_n_mapping` is set to false."
       :: ev,
     response_future)
  else if negb (fs_is_directory env map_folder_path) then
    let '(st2, ev) := LocalizeInExistDbResponse CUVSLAM_GENERIC_ERROR None st1 in
    (st2, EvLog ERROR "Map folder '%s' does not exist." :: ev, response_future)
  else if negb (has_lmdb_files (fs_directory_iterator env map_folder_path)) then
    let '(st2, ev) := LocalizeInExistDbResponse CUVSLAM_GENERIC_ERROR None st1 in
    (st2, EvLog ERROR "Map folder '%s' does not contain .mdb database files." :: ev,
     response_future)
  else
    let st2 :=
      set_localize_in_exist_db_context {| response_promise := p; pose_storage := pose_hint |} st1 in
    let '(st3, ev_cb) := deliver_all (localize_completions env) st2 in
    let ev1 :=
      [EvLog INFO "Map folder '%s' exists and contains database files. Starting async localization...";
       EvEngine (CUVSLAM_LocalizeInExistDb map_folder_path
                   (pose_storage (localize_in_exist_db_context st2)))]
      ++ ev_cb in
    let ev2 :=
      if negb (is_success (localize_call_result env))
      then [EvLog ERROR "CUVSLAM_LocalizeInExistDb Error %d"]
      else [] in
    (st3,
     ev1 ++ ev2 ++
       [EvLog INFO "Async localization started, waiting for callback during normal tracking"],
     response_future).

(** ** Exit *)

Definition Exit (st : VisualSlamImpl) : VisualSlamImpl * list Event :=
  let '(st1, ev1) :=
    match cuvslam_handle st with
    | Some h =>
        (set_cuvslam_handle None st,
         [EvEngine (CUVSLAM_DestroyTracker h); EvLog INFO "cuVSLAM tracker was destroyed"])
    | None => (st, [])
    end in
  let '(st2, ev2) :=
    match ground_constraint_handle st1 with
    | Some g =>
        (set_ground_constraint_handle None st1,
         [EvEngine (CUVSLAM_GroundConstraintDestroy g);
          EvLog INFO "cuVSLAM ground constraint was destroyed"])
    | None => (st1, [])
    end in
  let st3 := set_velocity_cache (velocity_cache_Reset (velocity_cache st2))
               (set_pose_cache (pose_cache_Reset (pose_cache st2)) st2) in
  let st4 := set_initial_camera_info_messages ∅ (set_initial_imu_message None st3) in
  let response := {| localize_status := CUVSLAM_CAN_NOT_LOCALIZE; pose_in_db := default_pose |} in
  (* try { ...set_value(response); } catch (const std::exception &) {} *)
  match set_value (response_promise (localize_in_exist_db_context st4)) response
          (localize_promises st4) with
  | inr ps => (set_localize_promises ps st4, ev1 ++ ev2)
  | inl _ => (st4, ev1 ++ ev2)
  end.

(** ** CheckLocalizationStatus *)

(** What [get()] of the stored localization future yields. *)
Inductive FutureOutcome : Type :=
| FutureValue (maybe_pose : option PoseType)
| FutureThrows.

(** [poll f] is [Some outcome] when the shared state of future [f] is ready
    at the time of the call, [None] otherwise: that is what
    [wait_for(seconds(0))] observes.  The future is completed by the
    continuation of [LocalizeInMapAsync] on another thread, and stored in
    [localization_future_] by the node. *)
Definition CheckLocalizationStatus (poll : nat -> option FutureOutcome)
    (st : VisualSlamImpl) : VisualSlamImpl * list Event :=
  match localization_future_ st with
  | Some f =>
      (* localization_future_->wait_for(boost::chrono::seconds(0)) *)
      let ev_wait := [EvFutureWaitFor f 0] in
      match poll f with
      | Some outcome =>
          let ev_log :=
            match outcome with
            | FutureValue (Some _) => EvLog INFO "Localization completed successfully"
            | FutureValue None => EvLog ERROR "Localization failed"
            | FutureThrows => EvLog ERROR "Localization exception: %s"
            end in
          (set_localization_future_ None st, ev_wait ++ [EvFutureGet f; ev_log])
      | None => (st, ev_wait)
      end
  | None => (st, [])
  end.

(** ** The tf buffer *)

(** What the tf buffer answers: [canTransform] and [lookupTransform], the
    latter [None] when it throws a [tf2::TransformException]. *)
Record TfEnv : Type := {
  canTransform : string -> string -> bool;
  lookupTransform : string -> string -> option Transform
}.

(** [GetLatestTransform(target, source)]: the pose, or the
    [std::runtime_error] it throws. *)
Definition GetLatestTransform (tf : TfEnv) (target source : string)
    : (Exception + Transform) * list Event :=
  let ev :=
    if negb (canTransform tf target source)
    then [EvLog ERROR "Transform is impossible. canTransform(%s->%s) returns false"]
    else [] in
  match lookupTransform tf target source with
  | Some pose => (inr pose, ev)
  | None => (inl transform_not_found, ev ++ [EvLog INFO "Could not transform %s to %s: %s"])
  end.

(** ** Initialization *)

Definition IsInitialized (st : VisualSlamImpl) : bool :=
  bool_decide (cuvslam_handle st ≠ None).

Definition IsReadyForInitialization (st : VisualSlamImpl) : bool :=
  if enable_imu_fusion_ (node st) && negb (bool_decide (is_Some (initial_imu_message st)))
  then false
  else if Z.of_nat (size (initial_camera_info_messages st)) =? num_cameras_ (node st)
  then true
  else false.

(** What the engine and the tf buffer answer during [Initialize]. *)
Record InitEnv : Type := {
  ground_constraint_create_status : CUVSLAM_Status;
  ground_constraint_created : nat;
  init_tf : TfEnv;
  create_tracker_status : CUVSLAM_Status;
  created_tracker : nat
}.

(** How [Initialize] is left before its end: by an exception that nothing in
    it catches, or by indexing a vector outside its bounds, after which the
    language defines nothing. *)
Inductive Abort : Type :=
| Throws (e : Exception)
| Undefined.

Definition abort_event (a : Abort) : Event :=
  match a with
  | Throws e => EvUncaught e
  | Undefined => EvUndefinedBehaviour
  end.

(** The stored camera-info messages in the order in which a range-based [for]
    visits them.  The member is declared in the header of the class, which is
    not among the sources; it is read here as a [std::map], visited by
    ascending index. *)
Definition camera_info_entries (m : gmap Z CameraInfoType) : list (Z * CameraInfoType) :=
  @merge_sort (Z * CameraInfoType) (fun a b => a.1 <= b.1) (fun a b => decide (a.1 <= b.1))
    (map_to_list m).

(** The loop that fills intrinsics and extrinsics, one round per stored
    message: [cuvslam_cameras[idx]] and [intrinsics[idx]] have [num_cameras_]
    elements, [camera_optical_frames[idx]] is the frame looked up. *)
Fixpoint camera_extrinsics (tf : TfEnv) (base_frame : string) (num_cameras : Z)
    (camera_optical_frames : list string) (entries : list (Z * CameraInfoType))
    : option Abort * list Event :=
  match entries with
  | [] => (None, [])
  | entry :: rest =>
      let idx := entry.1 in
      if negb ((0 <=? idx) && (idx <? num_cameras)) then (Some Undefined, [])
      else
        match camera_optical_frames !! Z.to_nat idx with
        | None => (Some Undefined, [])
        | Some frame =>
            match GetLatestTransform tf base_frame frame with
            | (inl e, ev) => (Some (Throws e), ev)
            | (inr base_link_pose_camera_optical, ev) =>
                let '(a, ev_rest) :=
                  camera_extrinsics tf base_frame num_cameras camera_optical_frames rest in
                (a, ev ++ ev_rest)
            end
        end
  end.

(** The part of [Initialize] that builds the camera rig: the base frame, the
    frames of the cameras, the loop over the stored messages and the loop
    over the cameras of the rig, which reads
    [initial_camera_info_messages.at(i)] for the image borders. *)
Definition camera_rig (tf : TfEnv) (st : VisualSlamImpl) : (Abort + string) * list Event :=
  let nd := node st in
  let m := initial_camera_info_messages st in
  match (if bool_decide (base_frame_ nd = "")
         then camera_info_frame_id <$> m !! 0   (* initial_camera_info_messages.at(0) *)
         else Some (base_frame_ nd)) with
  | None => (inl (Throws out_of_range), [])
  | Some base_frame =>
      (* camera_optical_frames.reserve(num_cameras_), cuvslam_cameras.resize(num_cameras_) *)
      if num_cameras_ nd <? 0 then (inl (Throws length_error), [])
      else
        let entries := camera_info_entries m in
        let camera_optical_frames :=
          match camera_optical_frames_ nd with
          | [] => map (fun entry : Z * CameraInfoType => camera_info_frame_id entry.2) entries
          | frames => frames
          end in
        match camera_extrinsics tf base_frame (num_cameras_ nd) camera_optical_frames entries with
        | (Some a, ev) => (inl a, ev)
        | (None, ev) =>
            if forallb (fun i => bool_decide (is_Some (m !! i))) (seqZ 0 (num_cameras_ nd))
            then (inr base_frame, ev)
            else (inl (Throws out_of_range), ev)
        end
  end.

(** The IMU configuration: with IMU fusion the frame and the stamp of the
    initial IMU message are read and the pose of the IMU is looked up. *)
Definition imu_extrinsics (tf : TfEnv) (base_frame : string) (st : VisualSlamImpl)
    : option Abort * list Event :=
  let nd := node st in
  if enable_imu_fusion_ nd then
    match initial_imu_message st with
    | None => (Some (Throws bad_optional_access), [])
    | Some msg =>
        let imu_frame := if bool_decide (imu_frame_ nd = "") then imu_frame_id msg
                         else imu_frame_ nd in
        match GetLatestTransform tf base_frame imu_frame with
        | (inl e, ev) => (Some (Throws e), ev)
        | (inr base_pose_imu, ev) => (None, ev)
        end
    end
  else (None, []).

(** [PrintConfiguration]; the odometry mode is inertial exactly with IMU
    fusion ([CreateConfiguration]). *)
Definition PrintConfiguration (nd : NodeParams) : list Event :=
  [EvLog INFO "Use use_gpu: %s"; EvLog INFO "Enable IMU Fusion: %s"]
  ++ (if enable_imu_fusion_ nd
      then [EvLog INFO "gyroscope_noise_density: %f";
            EvLog INFO "gyroscope_random_walk: %f";
            EvLog INFO "accelerometer_noise_density: %f";
            EvLog INFO "accelerometer_random_walk: %f";
            EvLog INFO "frequency: %f"]
      else []).

(** [EvInitialize] marks the entry into [Initialize]. *)
Definition Initialize (env : InitEnv) (st : VisualSlamImpl) : VisualSlamImpl * list Event :=
  if IsInitialized st then
    (st, [EvInitialize; EvLog WARN "VisualSlamImpl was already initialized."])
  else
    let nd := node st in
    let ev0 := [EvInitialize; EvLog INFO "Initializing cuVSLAM."] in
    let ground_ok := is_success (ground_constraint_create_status env) in
    if enable_ground_constraint_in_odometry_ nd && negb ground_ok then
      (st, ev0 ++ [EvEngine CUVSLAM_GroundConstraintCreate;
                   EvLog ERROR "Failed to initialize cuVSLAM ground constraint: %d"])
    else
      let '(st1, ev1) :=
        if enable_ground_constraint_in_odometry_ nd
        then (set_ground_constraint_handle (Some (ground_constraint_created env)) st,
              ev0 ++ [EvEngine CUVSLAM_GroundConstraintCreate])
        else (st, ev0) in
      match camera_rig (init_tf env) st1 with
      | (inl a, ev_rig) => (st1, ev1 ++ ev_rig ++ [abort_event a])
      | (inr base_frame, ev_rig) =>
          match imu_extrinsics (init_tf env) base_frame st1 with
          | (Some a, ev_imu) => (st1, ev1 ++ ev_rig ++ ev_imu ++ [abort_event a])
          | (None, ev_imu) =>
              (* CreateConfiguration, PrintConfiguration, CUVSLAM_CreateTracker *)
              let ev2 := ev1 ++ ev_rig ++ ev_imu
                         ++ [EvEngine CUVSLAM_InitDefaultConfiguration]
                         ++ PrintConfiguration nd
                         ++ [EvEngine CUVSLAM_CreateTracker;
                             EvLog INFO "Time taken by CUVSLAM_CreateTracker(): %f"] in
              if negb (is_success (create_tracker_status env)) then
                (st1, ev2 ++ [EvLog ERROR "Failed to initialize CUVSLAM tracker: %d"])
              else
                let st2 := set_velocity_cache (velocity_cache_Reset (velocity_cache st1))
                             (set_pose_cache (pose_cache_Reset (pose_cache st1)) st1) in
                let st3 := set_cuvslam_handle (Some (created_tracker env)) st2 in
                (st3,
                 ev2 ++ [EvLog INFO "cuVSLAM tracker was successfully initialized."] ++
                   (if localize_on_startup_ nd then [EvDetachedLocalizeOnStartup] else []))
          end
      end.

(** ** UpdatePose: one tracking tick *)

(** What the engine, the subscribers, the clock and the stopwatches answer
    during one tick. *)
Record TickEnv : Type := {
  poll_future : nat -> option FutureOutcome;
  (* status of the n-th CUVSLAM_RegisterImuMeasurement of the tick *)
  register_imu_status : nat -> CUVSLAM_Status;
  (* the completion handlers the engine calls during CUVSLAM_TrackGpuMem: a
     save or a localization completes during normal tracking *)
  track_completions : list Completion;
  track_status : CUVSLAM_Status;
  track_pose : CUVSLAM_Pose;
  track_covariance : list float;
  ground_add_status : CUVSLAM_Status;
  ground_get_status : CUVSLAM_Status;
  ground_pose : CUVSLAM_Pose;
  slam_pose_status : CUVSLAM_Status;
  slam_pose_value : CUVSLAM_Pose;
  gravity_status : CUVSLAM_Status;
  gravity_value : Vector3;
  HasSubscribers : Publisher -> bool;
  clock_now : Z;
  stopwatch_seconds : float;
  stopwatch_track_seconds : float
}.

(** [std::max_element] over the image stamps, then the stamp of the element
    found.  The code assumes the vector is not empty; on an empty vector the
    result is [None]. *)
Definition latest_image_stamp (idx_and_image_msgs : list (Z * ImageType)) : option Z :=
  match idx_and_image_msgs with
  | [] => None
  | m :: rest =>
      Some (fold_left
              (fun best msg => if best <? image_stamp msg.2 then image_stamp msg.2 else best)
              rest (image_stamp m.2))
  end.

(** The loop over [imu_msgs]; [n] counts the calls made so far. *)
Fixpoint register_imu_measurements (env : TickEnv) (latest_ts : Z) (n : nat)
    (imu_msgs : list ImuType) : list Event :=
  match imu_msgs with
  | [] => []
  | imu_msg :: rest =>
      let imu_measurement := TocuVSLAMImuMeasurement imu_msg in
      [EvLog DEBUG "Using imu msg timestamp [%ld]";
       EvEngine (CUVSLAM_RegisterImuMeasurement latest_ts imu_measurement)]
      ++ (if negb (is_success (register_imu_status env n))
          then [EvLog WARN "CUVSLAM has failed to register an IMU measurement"]
          else [])
      ++ register_imu_measurements env latest_ts (S n) rest
  end.

(** The masks are the messages whose index is at least [num_cameras_], keyed
    by the camera they belong to; a later one replaces an earlier one. *)
Definition extract_masks (num_cameras : Z) (idx_and_image_msgs : list (Z * ImageType))
    : gmap Z ImageType :=
  fold_left
    (fun mask_msgs msg =>
       if num_cameras <=? msg.1 then <[msg.1 - num_cameras := msg.2]> mask_msgs else mask_msgs)
    idx_and_image_msgs ∅.

Definition convert_images (num_cameras latest_ts : Z) (idx_and_image_msgs : list (Z * ImageType))
    : list CUVSLAM_Image :=
  let mask_msgs := extract_masks num_cameras idx_and_image_msgs in
  omap
    (fun msg : Z * ImageType =>
       if msg.1 <? num_cameras
       then Some (TocuVSLAMImage msg.1 msg.2 latest_ts (mask_msgs !! msg.1))
       else None)
    idx_and_image_msgs.

(** [PoseToGround]: the events, and the pose on the ground when both engine
    calls succeed. *)
Definition PoseToGround (env : TickEnv) (pose : CUVSLAM_Pose) : option CUVSLAM_Pose * list Event :=
  if negb (is_success (ground_add_status env)) then
    (None, [EvEngine (CUVSLAM_GroundConstraintAddNextPose pose)])
  else if negb (is_success (ground_get_status env)) then
    (None, [EvEngine (CUVSLAM_GroundConstraintAddNextPose pose);
            EvEngine CUVSLAM_GroundConstraintGetPoseOnGround])
  else
    (Some (ground_pose env),
     [EvEngine (CUVSLAM_GroundConstraintAddNextPose pose);
      EvEngine CUVSLAM_GroundConstraintGetPoseOnGround]).

Definition publish_if (env : TickEnv) (pub : Publisher) (msg : Message) : list Event :=
  if HasSubscribers env pub then [EvPublish pub msg] else [].

Definition PublishFrameTransform (stamp_ns : Z) (pose : Transform) (target source : string)
    : list Event :=
  [EvSendTransform stamp_ns target source pose].

(** [PublishGravity]: nothing is published while the engine has no gravity
    estimate. *)
Definition PublishGravity (env : TickEnv) (stamp_ns : Z) (frame : string) : list Event :=
  if negb (is_success (gravity_status env)) then
    [EvEngine CUVSLAM_GetLastGravity]
  else
    [EvEngine CUVSLAM_GetLastGravity;
     EvPublish vis_gravity_pub_
       (MsgGravityMarker stamp_ns frame (tf_apply canonical_pose_cuvslam (gravity_value env)))].

(** The covariance written into an odometry message: the array the cache
    fills when it reports a valid estimate, the identity otherwise. *)
Definition covariance_or_identity (res : bool * list float) : list float :=
  if res.1 then res.2 else identity_covariance.

(** The straight-line part of the block guarded by
    [vo_status == CUVSLAM_SUCCESS]: from the tf broadcasts to the gravity
    marker, given the odometry pose and the map pose in the engine's basis. *)
Definition publish_poses (env : TickEnv) (latest_ts timestamp_output : Z)
    (cv_odom_pose_cv_base_link cv_map_pose_cv_base_link : Transform)
    (st : VisualSlamImpl) : VisualSlamImpl * list Event :=
  let nd := node st in
  let odom_pose_base_link := ChangeBasis canonical_pose_cuvslam cv_odom_pose_cv_base_link in
  let map_pose_base_link := ChangeBasis canonical_pose_cuvslam cv_map_pose_cv_base_link in
  let map_pose_odom := tf_mul map_pose_base_link (tf_inverse odom_pose_base_link) in
  let ev_tf1 :=
    if publish_map_to_odom_tf_ nd then
      if negb (invert_map_to_odom_tf_ nd)
      then PublishFrameTransform timestamp_output map_pose_odom (map_frame_ nd) (odom_frame_ nd)
      else PublishFrameTransform timestamp_output (tf_inverse map_pose_odom)
             (odom_frame_ nd) (map_frame_ nd)
    else [] in
  let ev_tf2 :=
    if publish_odom_to_base_tf_ nd then
      if negb (invert_odom_to_base_tf_ nd)
      then PublishFrameTransform timestamp_output odom_pose_base_link
             (odom_frame_ nd) (base_frame_ nd)
      else PublishFrameTransform timestamp_output (tf_inverse odom_pose_base_link)
             (base_frame_ nd) (odom_frame_ nd)
    else [] in
  (* velocity from the last positions *)
  let pose_cache1 := pose_cache_Add latest_ts odom_pose_base_link (pose_cache st) in
  let velocity := pose_cache_GetVelocity pose_cache1 in
  let velocity_cache1 := velocity_cache_Add velocity (velocity_cache st) in
  let vo_pose := tf_toMsg odom_pose_base_link in
  let header_odom := {| stamp := timestamp_output; frame_id := odom_frame_ nd |} in
  let slam_pose := tf_toMsg map_pose_base_link in
  let header_map := {| stamp := timestamp_output; frame_id := map_frame_ nd |} in
  let ev_pose :=
    publish_if env tracking_vo_pose_pub_
      (MsgPoseStamped {| pose_stamped_header := header_odom; pose_stamped_pose := vo_pose |}) in
  let ev_cov :=
    publish_if env tracking_vo_pose_covariance_pub_
      (MsgPoseWithCovarianceStamped header_odom vo_pose
         (FromcuVSLAMCovariance (track_covariance env))) in
  let ev_odom :=
    publish_if env tracking_odometry_pub_
      (MsgOdometry
         {| odom_header := header_odom;
            odom_child_frame_id := base_frame_ nd;
            odom_pose := vo_pose;
            odom_pose_covariance :=
              covariance_or_identity (pose_cache_GetCovariance pose_cache1 zero_covariance);
            odom_twist := velocity;
            odom_twist_covariance :=
              covariance_or_identity
                (velocity_cache_GetCovariance velocity_cache1 zero_covariance) |}) in
  let ev_velocity :=
    publish_if env vis_vo_velocity_pub_
      (MsgVelocityMarkers timestamp_output (base_frame_ nd)
         (pose_cache_GetVelocity pose_cache1)) in
  let ev_slam_odom :=
    publish_if env vis_slam_odometry_pub_
      (MsgOdometry
         {| odom_header := header_map;
            odom_child_frame_id := base_frame_ nd;
            odom_pose := slam_pose;
            odom_pose_covariance := zero_covariance;
            odom_twist := zero_twist;
            odom_twist_covariance := zero_covariance |}) in
  let vo_path1 :=
    if HasSubscribers env tracking_vo_path_pub_
    then limited_add {| pose_stamped_header := header_odom; pose_stamped_pose := vo_pose |}
           (vo_path st)
    else vo_path st in
  let ev_vo_path :=
    publish_if env tracking_vo_path_pub_ (MsgPath header_odom (limited_getData vo_path1)) in
  let slam_path1 :=
    if HasSubscribers env tracking_slam_path_pub_
    then limited_add {| pose_stamped_header := header_map; pose_stamped_pose := slam_pose |}
           (slam_path st)
    else slam_path st in
  let ev_slam_path :=
    publish_if env tracking_slam_path_pub_ (MsgPath header_map (limited_getData slam_path1)) in
  let ev_gravity :=
    if HasSubscribers env vis_gravity_pub_ && enable_imu_fusion_ nd
    then PublishGravity env timestamp_output (base_frame_ nd)
    else [] in
  let st1 :=
    set_slam_path slam_path1
      (set_vo_path vo_path1
         (set_velocity_cache velocity_cache1 (set_pose_cache pose_cache1 st))) in
  (st1,
   ev_tf1 ++ ev_tf2 ++ ev_pose ++ ev_cov ++ ev_odom ++ ev_velocity
     ++ ev_slam_odom ++ ev_vo_path ++ ev_slam_path ++ ev_gravity).

(** How a block of [UpdatePose] ends: by falling through or by [return]. *)
Inductive Flow : Type := Continue | Return.

(** The block guarded by [vo_status == CUVSLAM_SUCCESS]: the ground
    constraint and the SLAM pose, each of which can end the tick, then the
    publications. *)
Definition publish_tracked_pose (env : TickEnv) (latest_ts timestamp_output : Z)
    (st : VisualSlamImpl) : VisualSlamImpl * list Event * Flow :=
  let '(grounded, ev_ground) :=
    match ground_constraint_handle st with
    | Some _ => PoseToGround env (track_pose env)
    | None => (Some (track_pose env), [])
    end in
  match grounded with
  | None => (st, ev_ground ++ [EvLog WARN "Unknown ground constraint Error %d"], Return)
  | Some pose =>
      let cv_odom_pose_cv_base_link := FromcuVSLAMPose pose in
      if enable_localization_n_mapping_ (node st) then
        if negb (is_success (slam_pose_status env)) then
          (st, ev_ground ++ [EvEngine CUVSLAM_GetSlamPose; EvLog WARN "Get Slam Pose Error %d"],
           Return)
        else
          let '(st1, ev) :=
            publish_poses env latest_ts timestamp_output cv_odom_pose_cv_base_link
              (FromcuVSLAMPose (slam_pose_value env)) st in
          (st1, ev_ground ++ [EvEngine CUVSLAM_GetSlamPose] ++ ev, Continue)
      else
        let '(st1, ev) :=
          publish_poses env latest_ts timestamp_output cv_odom_pose_cv_base_link
            cv_odom_pose_cv_base_link st in
        (st1, ev_ground ++ ev, Continue)
  end.

(** The end of the tick: execution-time statistics, status, diagnostics and
    the time stamp of the tick. *)
Definition finish_tick (env : TickEnv) (vo_status : CUVSLAM_Status)
    (latest_ts timestamp_output : Z) (st : VisualSlamImpl) : VisualSlamImpl * list Event :=
  let nd := node st in
  let track_time := stopwatch_track_seconds env in
  let times1 := limited_add track_time (track_execution_times st) in
  let values := limited_getData times1 in
  let time_max := fold_left std_max values 0%float in
  let time_sum := fold_left PrimFloat.add values 0%float in
  let time_mean :=
    if negb (Nat.eqb (length values) 0)
    then PrimFloat.div time_sum (double_of_int64 (Z.of_nat (length values)))
    else time_sum in
  let header := {| stamp := timestamp_output; frame_id := map_frame_ nd |} in
  let ev_status :=
    publish_if env visual_slam_status_pub_
      (MsgVisualSlamStatus
         {| status_header := header;
            vo_state := if is_success vo_status then 1 else 2;
            node_callback_execution_time := stopwatch_seconds env;
            track_execution_time := track_time;
            track_execution_time_max := time_max;
            track_execution_time_mean := time_mean |}) in
  let ev_diag :=
    publish_if env diagnostics_pub_
      (MsgDiagnostics
         {| diag_header := header;
            diag_level := if is_success vo_status then DIAG_OK else DIAG_WARN;
            diag_vo_status := vo_status;
            diag_track_execution_time := track_time;
            diag_track_execution_time_max := time_max;
            diag_track_execution_time_mean := time_mean;
            diag_localized_in_exist_map :=
              if localized_in_exist_map_ st then "Yes" else "No" |}) in
  (set_last_track_ts latest_ts (set_track_execution_times times1 st), ev_status ++ ev_diag).

(** The inter-frame warning at the head of the tick. *)
Definition jitter_warning (nd : NodeParams) (latest_ts last_ts : Z) : list Event :=
  let time_delta_ms := PrimFloat.div (double_of_int64 (latest_ts - last_ts)) 1e6%float in
  if double_gt time_delta_ms (image_jitter_threshold_ms_ nd) && negb (last_ts =? -1)
  then [EvLog WARN "Delta between current and previous frame [%f ms] is above threshold [%f ms]"]
  else [].

(** The tick after the tracking call has returned. *)
Definition after_track (env : TickEnv) (latest_ts : Z) (st : VisualSlamImpl)
    : VisualSlamImpl * list Event :=
  let nd := node st in
  let vo_status := track_status env in
  if bool_decide (vo_status = CUVSLAM_TRACKING_LOST) then
    let st1 := set_pose_cache (pose_cache_Reset (pose_cache st)) st in
    let timestamp_output := if override_publishing_stamp_ nd then clock_now env else latest_ts in
    let '(st2, ev_end) := finish_tick env vo_status latest_ts timestamp_output st1 in
    (st2, [EvLog WARN "Visual tracking is lost"] ++ ev_end)
  else if negb (is_success vo_status) then
    (st, [EvLog WARN "Unknown Tracker Error %d"])
  else
    let timestamp_output := if override_publishing_stamp_ nd then clock_now env else latest_ts in
    match publish_tracked_pose env latest_ts timestamp_output st with
    | (st1, ev1, Return) => (st1, ev1)
    | (st1, ev1, Continue) =>
        let '(st2, ev_end) := finish_tick env vo_status latest_ts timestamp_output st1 in
        (st2, ev1 ++ ev_end)
    end.

(** The tick after its first statement, from the latest image stamp on.
    During the tracking call the engine calls the completion handlers of the
    commands that complete in this tick. *)
Definition track_and_publish (env : TickEnv) (imu_msgs : list ImuType)
    (idx_and_image_msgs : list (Z * ImageType)) (latest_ts : Z) (st : VisualSlamImpl)
    : VisualSlamImpl * list Event :=
  let nd := node st in
  let ev_head :=
    EvLog DEBUG "Using image msg timestamp [%ld]" :: jitter_warning nd latest_ts (last_track_ts st) in
  (* first all imu measurements received since the last update *)
  let ev_imu := register_imu_measurements env latest_ts 0 imu_msgs in
  let cuvslam_images := convert_images (num_cameras_ nd) latest_ts idx_and_image_msgs in
  let '(st_track, ev_handlers) := deliver_all (track_completions env) st in
  let ev_track := EvEngine (CUVSLAM_TrackGpuMem cuvslam_images) :: ev_handlers in
  let '(st', ev_after) := after_track env latest_ts st_track in
  (st', ev_head ++ ev_imu ++ ev_track ++ ev_after).

(** [UpdatePose(imu_msgs, idx_and_image_msgs)].  [None] when the image vector
    is empty, which the code excludes. *)
Definition UpdatePose (env : TickEnv) (imu_msgs : list ImuType)
    (idx_and_image_msgs : list (Z * ImageType)) (st : VisualSlamImpl)
    : option (VisualSlamImpl * list Event) :=
  (* Check for completed localization *)
  let '(st0, ev_check) := CheckLocalizationStatus (poll_future env) st in
  match latest_image_stamp idx_and_image_msgs with
  | None => None
  | Some latest_ts =>
      let '(st1, ev) := track_and_publish env imu_msgs idx_and_image_msgs latest_ts st0 in
      Some (st1, ev_check ++ ev)
  end.

(** ** The sensor callbacks *)

(** Modelled from the spec: the synchronizer's [AddMessage] may hand a
    synchronized group to its registered callback,
    [CallbackSynchronizedImages], synchronously within the call, and the
    sequencer hands fused batches to its registered sink, [UpdatePose].
    Which groups and batches these are is decided by the buffers of the two,
    in code outside this file.  The callbacks below take them as an argument,
    any number of them, each batch with what the engine answers in its tick.
    The image vector of a batch is not empty. *)
Record FusedBatch : Type := {
  batch_env : TickEnv;
  batch_imu_msgs : list ImuType;
  batch_image : Z * ImageType;
  batch_more_images : list (Z * ImageType)
}.

Definition batch_images (batch : FusedBatch) : list (Z * ImageType) :=
  batch_image batch :: batch_more_images batch.

Record SynchronizedGroup : Type := {
  group_latest_ts : Z;
  group_msgs : list (Z * ImageType);
  group_batches : list FusedBatch
}.

(** The sink of the sequencer, called once for each batch. *)
Fixpoint run_batches (batches : list FusedBatch) (st : VisualSlamImpl)
    : VisualSlamImpl * list Event :=
  match batches with
  | [] => (st, [])
  | batch :: rest =>
      let '(st1, ev1) :=
        default (st, [])
          (UpdatePose (batch_env batch) (batch_imu_msgs batch) (batch_images batch) st) in
      let '(st2, ev2) := run_batches rest st1 in
      (st2, ev1 ++ ev2)
  end.

(** [CallbackSynchronizedImages]: the group goes to the sequencer. *)
Definition CallbackSynchronizedImages (batches : list FusedBatch) (latest_ts : Z)
    (idx_and_image_msgs : list (Z * ImageType)) (st : VisualSlamImpl)
    : VisualSlamImpl * list Event :=
  let '(st1, ev) := run_batches batches st in
  (st1, EvSequencerCallbackStream2 latest_ts idx_and_image_msgs :: ev).

Fixpoint run_groups (groups : list SynchronizedGroup) (st : VisualSlamImpl)
    : VisualSlamImpl * list Event :=
  match groups with
  | [] => (st, [])
  | group :: rest =>
      let '(st1, ev1) :=
        CallbackSynchronizedImages (group_batches group) (group_latest_ts group)
          (group_msgs group) st in
      let '(st2, ev2) := run_groups rest st1 in
      (st2, ev1 ++ ev2)
  end.

Definition CallbackImu (batches : list FusedBatch) (msg : ImuType) (st : VisualSlamImpl)
    : VisualSlamImpl * list Event :=
  if IsInitialized st then
    let '(st1, ev) := run_batches batches st in
    (st1, EvSequencerCallbackStream1 (imu_stamp msg) msg :: ev)
  else
    (set_initial_imu_message (Some msg) st, []).

Definition CallbackImage (groups : list SynchronizedGroup) (index : Z) (image_view : ImageType)
    (st : VisualSlamImpl) : VisualSlamImpl * list Event :=
  if IsInitialized st then
    let '(st1, ev) := run_groups groups st in
    (st1, EvSyncAddMessage index (image_stamp image_view) image_view :: ev)
  else
    (st, []).

Definition CallbackCameraInfo (env : InitEnv) (index : Z) (msg : CameraInfoType)
    (st : VisualSlamImpl) : VisualSlamImpl * list Event :=
  if negb (IsInitialized st) then
    let st1 :=
      set_initial_camera_info_messages (<[index := msg]> (initial_camera_info_messages st)) st in
    if IsReadyForInitialization st1 then Initialize env st1 else (st1, [])
  else
    (st, []).

(** The ingress events of the node before and after initialization. *)
Inductive Ingress : Type :=
| OnImu (batches : list FusedBatch) (msg : ImuType)
| OnImage (groups : list SynchronizedGroup) (index : Z) (image_view : ImageType)
| OnCameraInfo (env : InitEnv) (index : Z) (msg : CameraInfoType).

Definition ingress (i : Ingress) (st : VisualSlamImpl) : VisualSlamImpl * list Event :=
  match i with
  | OnImu batches msg => CallbackImu batches msg st
  | OnImage groups index image_view => CallbackImage groups index image_view st
  | OnCameraInfo env index msg => CallbackCameraInfo env index msg st
  end.

Fixpoint run_ingress (inputs : list Ingress) (st : VisualSlamImpl)
    : VisualSlamImpl * list Event :=
  match inputs with
  | [] => (st, [])
  | i :: rest =>
      let '(st1, ev1) := ingress i st in
      let '(st2, ev2) := run_ingress rest st1 in
      (st2, ev1 ++ ev2)
  end.

End VisualSlam.

(** ** Observations on a trace *)

Section Observations.

Context `{Collab : Collaborators}.

Definition is_register_imu (e : Event) : bool :=
  match e with EvEngine (CUVSLAM_RegisterImuMeasurement _ _) => true | _ => false end.

Definition is_track (e : Event) : bool :=
  match e with EvEngine (CUVSLAM_TrackGpuMem _) => true | _ => false end.

Definition is_future_event (e : Event) : bool :=
  match e with EvFutureWaitFor _ _ | EvFutureGet _ => true | _ => false end.

(** The events that can follow the tracking call within a tick: those of
    the tick itself and the exception of a completion handler called on a
    promise that has its value. *)
Definition follows_track (e : Event) : bool :=
  match e with
  | EvLog _ _ | EvPublish _ _ | EvSendTransform _ _ _ _ => true
  | EvEngine (CUVSLAM_GroundConstraintAddNextPose _)
  | EvEngine CUVSLAM_GroundConstraintGetPoseOnGround
  | EvEngine CUVSLAM_GetSlamPose
  | EvEngine CUVSLAM_GetLastGravity => true
  | EvUncaught _ => true
  | _ => false
  end.

(** The messages published on [pub], oldest first. *)
Definition published_on (pub : Publisher) (tr : list Event) : list Message :=
  omap (fun e => match e with
                 | EvPublish p m => if decide (p = pub) then Some m else None
                 | _ => None
                 end) tr.

(** [e] is not a message published on [pub]. *)
Definition not_on (pub : Publisher) (e : Event) : bool :=
  match e with
  | EvPublish p _ => bool_decide (p <> pub)
  | _ => true
  end.

(** What [CheckLocalizationStatus] leaves in [localization_future_]. *)
Definition slot_after_poll (poll : nat -> option FutureOutcome) (slot : option nat) : option nat :=
  match slot with
  | Some f => match poll f with Some _ => None | None => Some f end
  | None => None
  end.

(** The canonical failure result set by [Exit]. *)
Definition canonical_failure : LocalizeResponse :=
  {| localize_status := CUVSLAM_CAN_NOT_LOCALIZE; pose_in_db := default_pose |}.

(** The first localize completion of a run of handler calls. *)
Definition first_localize_completion (cs : list Completion)
    : option (CUVSLAM_Status * option CUVSLAM_Pose) :=
  head (omap (fun c => match c with
                       | CompleteLocalize s pose => Some (s, pose)
                       | CompleteSave _ _ => None
                       end) cs).

(** The covariances of the odometry message [msg] are those the caches of
    [st] give, with the identity where a cache reports none. *)
Definition covariance_as_cached (st : VisualSlamImpl) (msg : Message) : Prop :=
  exists m,
    msg = MsgOdometry m
    /\ odom_pose_covariance m =
         (let res := pose_cache_GetCovariance (pose_cache st) zero_covariance in
          if res.1 then res.2 else identity_covariance)
    /\ odom_twist_covariance m =
         (let res := velocity_cache_GetCovariance (velocity_cache st) zero_covariance in
          if res.1 then res.2 else identity_covariance).

(** [e] is an exception that leaves the function that raised it. *)
Definition is_uncaught (e : Event) : bool :=
  match e with EvUncaught _ => true | _ => false end.

(** [e] is the exception of a completion handler called on a promise that
    has its value. *)
Definition is_handler_exception (e : Event) : bool :=
  match e with EvUncaught promise_already_satisfied => true | _ => false end.

(** [st] with other shared states of the promises. *)
Definition with_promises (localize : gmap nat (option LocalizeResponse))
    (save : gmap nat (option SaveResponse)) (st : VisualSlamImpl) : VisualSlamImpl :=
  set_save_promises save (set_localize_promises localize st).

Definition is_initialize (e : Event) : bool :=
  match e with EvInitialize => true | _ => false end.

(** The folder has no regular file with extension [.mdb]. *)
Definition no_database_files (entries : list DirEntry) : Prop :=
  Forall (fun entry => ~ (is_regular_file entry = true /\ extension entry = ".mdb")) entries.

(** The state in which [CuvslamInternalLocalizeInMapAsync] reaches its
    checks: a fresh promise in the context, not yet satisfied. *)
Definition fresh_context (st : VisualSlamImpl) : VisualSlamImpl :=
  set_localize_in_exist_db_context
    {| response_promise := next_promise st; pose_storage := default_pose |}
    (new_localize_promise st).2.

End Observations.

(** ** A stand-in for the collaborators

    The theorems below hold for every instance of [Collaborators].  To run the
    embedding on concrete inputs the following instance is used.  A transform
    is a displacement along one axis, given as an integer, and the two bases
    coincide. *)

Module StandIn.

Definition capacity : nat := 4.
Definition min_fill : nat := 2.

(** Modelled from the spec: [Add] of the pose cache and of the velocity cache
    (both implemented outside this file) inserts a sample into a bounded
    history and evicts the oldest one beyond the capacity.  The newest
    sample comes first. *)
Definition Add {A : Type} (x : A) (buffer : list A) : list A := take capacity (x :: buffer).

(** Modelled from the spec: [GetVelocity] of the pose cache is the finite
    difference of the two most recent samples divided by their time delta,
    and zero with fewer than two samples. *)
Definition GetVelocity (buffer : list (Z * Z)) : Twist :=
  match buffer with
  | (t2, p2) :: (t1, p1) :: _ =>
      {| linear_x := PrimFloat.div (double_of_int64 (p2 - p1)) (double_of_int64 (t2 - t1));
         linear_y := 0; linear_z := 0; angular_x := 0; angular_y := 0; angular_z := 0 |}
  | _ => zero_twist
  end.

(** Modelled from the spec: [GetCovariance] of either cache reports invalid
    while the buffer holds fewer than a minimum number of samples, and then
    leaves the array alone.  The spec does not give the estimate itself; here
    it is the identity scaled by the number of samples. *)
Definition GetCovariance {A : Type} (buffer : list A) (array : list float) : bool * list float :=
  if (length buffer <? min_fill)%nat then (false, array)
  else (true, map (PrimFloat.mul (double_of_int64 (Z.of_nat (length buffer)))) identity_covariance).

(** [Reset] clears the buffer; [LimitedVector] is a plain list here. *)
#[local] Instance collaborators : Collaborators := {|
  Transform := Z;
  CUVSLAM_Pose := Z;
  PoseType := Z;
  default_pose := 0;
  FromcuVSLAMPose := fun p => p;
  FromcuVSLAMCovariance := fun c => c;
  ChangeBasis := fun _ t => t;
  canonical_pose_cuvslam := 0;
  tf_mul := Z.add;
  tf_inverse := Z.opp;
  tf_apply := fun _ v => v;
  tf_toMsg := fun t => t;
  PoseCache := list (Z * Z);
  pose_cache_Reset := fun _ => [];
  pose_cache_Add := fun ts pose => Add (ts, pose);
  pose_cache_GetVelocity := GetVelocity;
  pose_cache_GetCovariance := GetCovariance;
  VelocityCache := list Twist;
  velocity_cache_Reset := fun _ => [];
  velocity_cache_Add := Add;
  velocity_cache_GetCovariance := GetCovariance;
  LimitedVector := list;
  limited_add := fun T x l => l ++ [x];
  limited_getData := fun T l => l
|}.

Definition params : NodeParams :=
  {| enable_imu_fusion_ := true;
     num_cameras_ := 2;
     enable_localization_n_mapping_ := true;
     enable_ground_constraint_in_odometry_ := false;
     localize_on_startup_ := false;
     image_jitter_threshold_ms_ := 34%float;
     override_publishing_stamp_ := false;
     publish_map_to_odom_tf_ := true;
     invert_map_to_odom_tf_ := false;
     publish_odom_to_base_tf_ := true;
     invert_odom_to_base_tf_ := false;
     map_frame_ := "map";
     odom_frame_ := "odom";
     base_frame_ := "base_link";
     camera_optical_frames_ := ["left_optical"; "right_optical"];
     imu_frame_ := "imu" |}.

(** The object right after construction: no engine, empty caches, the
    default-constructed localize context (promise 0) and [last_track_ts = -1]. *)
Definition constructed_with (nd : NodeParams) : VisualSlamImpl :=
  {| node := nd;
     cuvslam_handle := None;
     ground_constraint_handle := None;
     initial_imu_message := None;
     initial_camera_info_messages := ∅;
     pose_cache := [];
     velocity_cache := [];
     vo_path := [];
     slam_path := [];
     track_execution_times := [];
     last_track_ts := -1;
     localized_in_exist_map_ := false;
     localize_promises := {[ 0%nat := None ]};
     save_promises := ∅;
     next_promise := 1;
     localize_in_exist_db_context := {| response_promise := 0; pose_storage := 0 |};
     localization_future_ := None |}.

Definition constructed : VisualSlamImpl := constructed_with params.

(** The same object once the engine has been created. *)
Definition running : VisualSlamImpl := set_cuvslam_handle (Some 7%nat) constructed.

(** A running node configured without localization and mapping. *)
Definition params_without_mapping : NodeParams :=
  {| enable_imu_fusion_ := true;
     num_cameras_ := 2;
     enable_localization_n_mapping_ := false;
     enable_ground_constraint_in_odometry_ := false;
     localize_on_startup_ := false;
     image_jitter_threshold_ms_ := 34%float;
     override_publishing_stamp_ := false;
     publish_map_to_odom_tf_ := true;
     invert_map_to_odom_tf_ := false;
     publish_odom_to_base_tf_ := true;
     invert_odom_to_base_tf_ := false;
     map_frame_ := "map";
     odom_frame_ := "odom";
     base_frame_ := "base_link";
     camera_optical_frames_ := ["left_optical"; "right_optical"];
     imu_frame_ := "imu" |}.

Definition running_without_mapping : VisualSlamImpl :=
  set_cuvslam_handle (Some 7%nat) (constructed_with params_without_mapping).

Definition imu (ts : Z) : ImuType :=
  {| imu_stamp := ts; imu_frame_id := "imu";
     imu_angular_velocity := {| vx := 0; vy := 0; vz := 0 |};
     imu_linear_acceleration := {| vx := 0; vy := 0; vz := 9.75 |} |}.

Definition image (ts : Z) (buffer : nat) : ImageType :=
  {| image_stamp := ts; image_buffer := buffer |}.

Definition camera_info (ts : Z) : CameraInfoType :=
  {| camera_info_stamp := ts; camera_info_frame_id := "camera" |}.

Definition all_subscribed : Publisher -> bool := fun _ => true.

(** An engine that answers one tick with [status] and the pose [pose]. *)
Definition tick (status : CUVSLAM_Status) (pose : Z) (poll : nat -> option FutureOutcome)
    : TickEnv :=
  {| poll_future := poll;
     register_imu_status := fun _ => CUVSLAM_SUCCESS;
     track_completions := [];
     track_status := status;
     track_pose := pose;
     track_covariance := zero_covariance;
     ground_add_status := CUVSLAM_SUCCESS;
     ground_get_status := CUVSLAM_SUCCESS;
     ground_pose := pose;
     slam_pose_status := CUVSLAM_SUCCESS;
     slam_pose_value := pose;
     gravity_status := CUVSLAM_SUCCESS;
     gravity_value := {| vx := 0; vy := 0; vz := -9.75 |};
     HasSubscribers := all_subscribed;
     clock_now := 0;
     stopwatch_seconds := 0.5%float;
     stopwatch_track_seconds := 0.25%float |}.

Definition never_ready : nat -> option FutureOutcome := fun _ => None.

(** A stereo frame pair stamped [ts]. *)
Definition stereo (ts : Z) : list (Z * ImageType) := [(0, image ts 1); (1, image ts 2)].

Definition init_ok : InitEnv :=
  {| ground_constraint_create_status := CUVSLAM_SUCCESS;
     ground_constraint_created := 3;
     init_tf := {| canTransform := fun _ _ => true; lookupTransform := fun _ _ => Some 3 |};
     create_tracker_status := CUVSLAM_SUCCESS;
     created_tracker := 7 |}.

(** A map folder with a database in it, and an engine that answers the
    initiating call with [result] after making the handler calls [sync]. *)
Definition localize_env (result : CUVSLAM_Status) (sync : list Completion) : LocalizeEnv :=
  {| fs_is_directory := fun _ => true;
     fs_directory_iterator :=
       fun _ => [ {| is_regular_file := true; extension := ".mdb" |} ];
     localize_call_result := result;
     localize_completions := sync |}.

Definition save_env (result : CUVSLAM_Status) (sync : list Completion) : SaveEnv :=
  {| save_call_result := result; save_completions := sync |}.

(** A folder that exists but holds no database file. *)
Definition empty_folder : LocalizeEnv :=
  {| fs_is_directory := fun _ => true;
     fs_directory_iterator := fun _ => [ {| is_regular_file := true; extension := ".txt" |} ];
     localize_call_result := CUVSLAM_SUCCESS;
     localize_completions := [] |}.

Definition ready_with (pose : Z) : nat -> option FutureOutcome :=
  fun _ => Some (FutureValue (Some pose)).

End StandIn.


(** * The rest of the implementation *)

(** ** Image borders of the camera rig ([Initialize])

    The loop over the cameras of [Initialize] turns the region of interest of
    a camera-info message, or the border masks of the node, into the four
    borders of the engine's camera.  All quantities are [uint32_t]. *)

Definition uint32 (z : Z) : Z := z mod 2 ^ 32.

(** [std::clamp(v, lo, hi)]. *)
Definition std_clamp (v lo hi : Z) : Z :=
  if v <? lo then lo else if hi <? v then hi else v.

(** [sensor_msgs::msg::RegionOfInterest], without [do_rectify]. *)
Record RegionOfInterest : Type := {
  x_offset : Z;
  y_offset : Z;
  roi_height : Z;
  roi_width : Z
}.

(** The parameters of the node read by the loop. *)
Record BorderParams : Type := {
  rectified_images_ : bool;
  border_mask_top_ : Z;
  border_mask_bottom_ : Z;
  border_mask_left_ : Z;
  border_mask_right_ : Z
}.

Record CameraBorders : Type := {
  border_top : Z;
  border_bottom : Z;
  border_left : Z;
  border_right : Z
}.

(** The default region (all four values 0) stands for the full image. *)
Definition effective_roi (roi : RegionOfInterest) (img_width img_height : Z)
    : RegionOfInterest :=
  if (x_offset roi =? 0) && (y_offset roi =? 0) && (roi_width roi =? 0) && (roi_height roi =? 0)
  then {| x_offset := x_offset roi; y_offset := y_offset roi;
          roi_height := img_height; roi_width := img_width |}
  else roi.

(** The body of the loop for camera [i]. *)
Definition camera_borders (p : BorderParams) (i : Z) (roi0 : RegionOfInterest)
    (img_width img_height : Z) : CameraBorders :=
  let border_mask_top := uint32 (border_mask_top_ p) in
  let border_mask_bottom := uint32 (border_mask_bottom_ p) in
  let border_mask_left := uint32 (border_mask_left_ p) in
  let border_mask_right := uint32 (border_mask_right_ p) in
  let roi := effective_roi roi0 img_width img_height in
  if negb (rectified_images_ p)
     && (negb (border_mask_top =? 0) || negb (border_mask_bottom =? 0)
         || negb (border_mask_left =? 0) || negb (border_mask_right =? 0))
  then
    if Z.rem i 2 =? 0 then
      {| border_top := std_clamp border_mask_top 0 img_height;
         border_bottom := std_clamp border_mask_bottom 0 img_height;
         border_left := std_clamp border_mask_left 0 img_width;
         border_right := std_clamp border_mask_right 0 img_width |}
    else
      {| border_top := std_clamp border_mask_top 0 img_height;
         border_bottom := std_clamp border_mask_bottom 0 img_height;
         border_left := std_clamp border_mask_right 0 img_width;
         border_right := std_clamp border_mask_left 0 img_width |}
  else
    {| border_top := std_clamp (y_offset roi) 0 img_height;
       border_bottom :=
         std_clamp (uint32 (uint32 (img_height - y_offset roi) - roi_height roi)) 0 img_height;
       border_left := std_clamp (x_offset roi) 0 img_width;
       border_right :=
         std_clamp (uint32 (uint32 (img_width - x_offset roi) - roi_width roi)) 0 img_width |}.

(** The values a [uint32_t] can hold. *)
Definition is_uint32 (z : Z) : Prop := 0 <= z < 2 ^ 32.

Definition roi_is_uint32 (roi : RegionOfInterest) : Prop :=
  is_uint32 (x_offset roi) /\ is_uint32 (y_offset roi)
  /\ is_uint32 (roi_height roi) /\ is_uint32 (roi_width roi).

(** The condition under which the loop takes the border masks of the node
    and not the region of interest. *)
Definition mask_mode (p : BorderParams) : bool :=
  negb (rectified_images_ p)
  && (negb (uint32 (border_mask_top_ p) =? 0) || negb (uint32 (border_mask_bottom_ p) =? 0)
      || negb (uint32 (border_mask_left_ p) =? 0) || negb (uint32 (border_mask_right_ p) =? 0)).

(** ** LocalizeInMapAsync and LocalizeInMap *)

Section LocalizeInMap.

Context `{Collab : Collaborators}.

(** Conversions of cuvslam_ros_conversion and tf2 used by the wrappers only. *)
Variable tf_fromMsg : PoseType -> Transform.
Variable cuvslam_pose_canonical : Transform.
Variable TocuVSLAMPose : Transform -> CUVSLAM_Pose.

Definition set_localized_in_exist_map_ (v : bool) (st : VisualSlamImpl) : VisualSlamImpl :=
  {| node := node st; cuvslam_handle := cuvslam_handle st;
     ground_constraint_handle := ground_constraint_handle st;
     initial_imu_message := initial_imu_message st;
     initial_camera_info_messages := initial_camera_info_messages st;
     pose_cache := pose_cache st; velocity_cache := velocity_cache st; vo_path := vo_path st;
     slam_path := slam_path st; track_execution_times := track_execution_times st;
     last_track_ts := last_track_ts st; localized_in_exist_map_ := v;
     localize_promises := localize_promises st; save_promises := save_promises st;
     next_promise := next_promise st;
     localize_in_exist_db_context := localize_in_exist_db_context st;
     localization_future_ := localization_future_ st |}.

(** The continuation [extract_pose_in_ros_conventions] attached to the
    future of the internal call. *)
Definition extract_pose_in_ros_conventions (response : LocalizeResponse) (st : VisualSlamImpl)
    : VisualSlamImpl * list Event * option PoseType :=
  if negb (is_success (localize_status response)) then
    (set_localized_in_exist_map_ false st,
     [EvLog ERROR "Failed to localize in map. Error %d"], None)
  else
    let cv_map_pose_cv_base_link := FromcuVSLAMPose (pose_in_db response) in
    let map_pose_base_link := ChangeBasis canonical_pose_cuvslam cv_map_pose_cv_base_link in
    (set_localized_in_exist_map_ true st,
     [EvLog INFO "Successfully localized at {%f, %f, %f}"],
     Some (tf_toMsg map_pose_base_link)).

(** [LocalizeInMapAsync]: the future of the internal call, to which the
    continuation is attached, or the exception of the tf lookup. *)
Definition LocalizeInMapAsync (tf : TfEnv) (env : LocalizeEnv) (map_folder_path : string)
    (pose_hint : PoseType) (frame : string) (st : VisualSlamImpl)
    : VisualSlamImpl * list Event * (Exception + nat) :=
  let ev0 := [EvLog INFO "Trying to localize in map '%s' around [%f, %f, %f]"] in
  let frame_id_pose_base := tf_fromMsg pose_hint in
  match GetLatestTransform tf (map_frame_ (node st)) frame with
  | (inl e, ev) => (st, ev0 ++ ev, inl e)
  | (inr map_pose_frame_id, ev) =>
      let map_pose_base := tf_mul map_pose_frame_id frame_id_pose_base in
      let cv_map_pose_cv_base := ChangeBasis cuvslam_pose_canonical map_pose_base in
      let pose_hint_cv := TocuVSLAMPose cv_map_pose_cv_base in
      let '(st1, ev1, response_future) :=
        CuvslamInternalLocalizeInMapAsync env map_folder_path pose_hint_cv st in
      (st1, ev0 ++ ev ++ ev1, inr response_future)
  end.

(** How a call of [LocalizeInMap] stands: returned, left by an exception, or
    suspended in [get()] on the composed future. *)
Inductive LocalizeInMapResult : Type :=
| LocalizeInMapReturns (maybe_pose : option PoseType)
| LocalizeInMapThrows (e : Exception)
| LocalizeInMapBlocks (response_future : nat).

(** The composed future is ready once the promise has a value and the
    continuation has run; the embedding runs the continuation at the moment
    the waiting caller is released. *)
Definition LocalizeInMap_resume (response_future : nat) (st : VisualSlamImpl)
    : option (VisualSlamImpl * list Event * option PoseType) :=
  (fun response => extract_pose_in_ros_conventions response st)
    <$> future_value response_future (localize_promises st).

Definition LocalizeInMap (tf : TfEnv) (env : LocalizeEnv) (map_folder_path : string)
    (pose_hint : PoseType) (frame : string) (st : VisualSlamImpl)
    : VisualSlamImpl * list Event * LocalizeInMapResult :=
  match LocalizeInMapAsync tf env map_folder_path pose_hint frame st with
  | (st1, ev1, inl e) => (st1, ev1, LocalizeInMapThrows e)
  | (st1, ev1, inr response_future) =>
      match LocalizeInMap_resume response_future st1 with
      | Some (st2, ev2, maybe_pose) => (st2, ev1 ++ ev2, LocalizeInMapReturns maybe_pose)
      | None => (st1, ev1, LocalizeInMapBlocks response_future)
      end
  end.

End LocalizeInMap.

(** ** Further observations *)

Section MoreObservations.

Context `{Collab : Collaborators}.

(** The stamp a publication carries. *)
Definition publication_stamp (e : Event) : option Z :=
  match e with
  | EvSendTransform stamp_ns _ _ _ => Some stamp_ns
  | EvPublish _ (MsgPoseStamped m) => Some (stamp (pose_stamped_header m))
  | EvPublish _ (MsgPoseWithCovarianceStamped h _ _) => Some (stamp h)
  | EvPublish _ (MsgOdometry m) => Some (stamp (odom_header m))
  | EvPublish _ (MsgVelocityMarkers stamp_ns _ _) => Some stamp_ns
  | EvPublish _ (MsgGravityMarker stamp_ns _ _) => Some stamp_ns
  | EvPublish _ (MsgPath h _) => Some (stamp h)
  | EvPublish _ (MsgVisualSlamStatus m) => Some (stamp (status_header m))
  | EvPublish _ (MsgDiagnostics m) => Some (stamp (diag_header m))
  | _ => None
  end.

(** [e] is no publication with a stamp other than [ts]. *)
Definition stamped_with (ts : Z) (e : Event) : bool :=
  match publication_stamp e with
  | Some stamp_ns => bool_decide (stamp_ns = ts)
  | None => true
  end.

(** The stamp put on the publications of a tick. *)
Definition timestamp_output (env : TickEnv) (st : VisualSlamImpl) (latest_ts : Z) : Z :=
  if override_publishing_stamp_ (node st) then clock_now env else latest_ts.

(** The engine calls a tick can make. *)
Definition is_tick_call (e : Event) : bool :=
  match e with
  | EvEngine (CUVSLAM_RegisterImuMeasurement _ _)
  | EvEngine (CUVSLAM_TrackGpuMem _)
  | EvEngine (CUVSLAM_GroundConstraintAddNextPose _)
  | EvEngine CUVSLAM_GroundConstraintGetPoseOnGround
  | EvEngine CUVSLAM_GetSlamPose
  | EvEngine CUVSLAM_GetLastGravity => true
  | EvEngine _ => false
  | _ => true
  end.

(** [e] is a frame or a sample handed to the synchronizer or the sequencer. *)
Definition is_forwarded (e : Event) : bool :=
  match e with
  | EvSyncAddMessage _ _ _ | EvSequencerCallbackStream1 _ _ => true
  | _ => false
  end.

Definition is_jitter_warning (e : Event) : bool :=
  match e with
  | EvLog WARN text =>
      bool_decide
        (text = "Delta between current and previous frame [%f ms] is above threshold [%f ms]")
  | _ => false
  end.

Definition is_gravity_call (e : Event) : bool :=
  match e with EvEngine CUVSLAM_GetLastGravity => true | _ => false end.

Definition is_slam_pose_call (e : Event) : bool :=
  match e with EvEngine CUVSLAM_GetSlamPose => true | _ => false end.

(** The pose of the tick after the optional ground constraint: [None] when a
    ground constraint exists and one of its two engine calls fails. *)
Definition grounded_pose (env : TickEnv) (st : VisualSlamImpl) : option CUVSLAM_Pose :=
  match ground_constraint_handle st with
  | None => Some (track_pose env)
  | Some _ =>
      if is_success (ground_add_status env) && is_success (ground_get_status env)
      then Some (ground_pose env) else None
  end.

(** The successful tick runs to its end: the ground constraint, if any, and
    the SLAM pose, if asked for, are obtained. *)
Definition tick_completes (env : TickEnv) (st : VisualSlamImpl) : Prop :=
  track_status env = CUVSLAM_SUCCESS
  /\ is_Some (grounded_pose env st)
  /\ (enable_localization_n_mapping_ (node st) = true -> slam_pose_status env = CUVSLAM_SUCCESS).

(** The successful tick ends early. *)
Definition tick_aborts (env : TickEnv) (st : VisualSlamImpl) : Prop :=
  track_status env = CUVSLAM_SUCCESS
  /\ (grounded_pose env st = None
      \/ (enable_localization_n_mapping_ (node st) = true
          /\ slam_pose_status env <> CUVSLAM_SUCCESS)).

(** The masks among the messages of a batch that belong to camera [idx],
    in the order of the batch. *)
Definition masks_of (num_cameras idx : Z) (idx_and_image_msgs : list (Z * ImageType))
    : list ImageType :=
  omap (fun msg : Z * ImageType =>
          if (num_cameras <=? msg.1) && (msg.1 - num_cameras =? idx) then Some msg.2 else None)
    idx_and_image_msgs.

(** The camera messages of a batch, in the order of the batch. *)
Definition camera_msgs (num_cameras : Z) (idx_and_image_msgs : list (Z * ImageType))
    : list (Z * ImageType) :=
  filter (fun msg : Z * ImageType => msg.1 < num_cameras) idx_and_image_msgs.

(** The events of a tick from its first log line to the tracking call. *)
Definition tick_head (env : TickEnv) (imu_msgs : list ImuType)
    (idx_and_image_msgs : list (Z * ImageType)) (latest_ts : Z) (st : VisualSlamImpl)
    : list Event :=
  (EvLog DEBUG "Using image msg timestamp [%ld]"
     :: jitter_warning (node st) latest_ts (last_track_ts st))
  ++ register_imu_measurements env latest_ts 0 imu_msgs
  ++ [EvEngine (CUVSLAM_TrackGpuMem
                  (convert_images (num_cameras_ (node st)) latest_ts idx_and_image_msgs))].

(** The engine calls of the ground constraint in a successful tick. *)
Definition ground_events (env : TickEnv) (st : VisualSlamImpl) : list Event :=
  match ground_constraint_handle st with
  | Some _ => (PoseToGround env (track_pose env)).2
  | None => []
  end.

(** The events with which a successful tick ends early. *)
Definition abort_events (env : TickEnv) (st : VisualSlamImpl) : list Event :=
  match grounded_pose env st with
  | None => ground_events env st ++ [EvLog WARN "Unknown ground constraint Error %d"]
  | Some _ =>
      ground_events env st ++ [EvEngine CUVSLAM_GetSlamPose; EvLog WARN "Get Slam Pose Error %d"]
  end.

(** What an event of a tick can be: a log line (the inter-frame warning only
    when an earlier tick has run to its end), an engine call of the tick (the
    SLAM pose and the gravity only when they are asked for and tracking
    succeeded), a publication stamped with the tick's output stamp (the
    gravity marker only when the engine has a gravity estimate), the poll of
    the localization future, or the exception of a completion handler called
    on a promise that has its value. *)
Definition tick_event (env : TickEnv) (st : VisualSlamImpl) (latest_ts : Z) (e : Event) : bool :=
  match e with
  | EvLog _ _ => negb (is_jitter_warning e) || negb (last_track_ts st =? -1)
  | EvEngine CUVSLAM_GetLastGravity =>
      HasSubscribers env vis_gravity_pub_ && enable_imu_fusion_ (node st)
      && is_success (track_status env)
  | EvEngine CUVSLAM_GetSlamPose =>
      enable_localization_n_mapping_ (node st) && is_success (track_status env)
  | EvEngine _ => is_tick_call e
  | EvPublish vis_gravity_pub_ _ =>
      is_success (gravity_status env) && stamped_with (timestamp_output env st latest_ts) e
  | EvPublish _ _ | EvSendTransform _ _ _ _ =>
      stamped_with (timestamp_output env st latest_ts) e
  | EvFutureWaitFor _ _ | EvFutureGet _ => true
  | EvUncaught promise_already_satisfied => true
  | _ => false
  end.

(** The members a tick has no business with keep their values.  The two
    maps of promises are not among them: the engine calls the completion
    handlers during the tracking call. *)
Definition commands_untouched (st st' : VisualSlamImpl) : Prop :=
  node st' = node st
  /\ cuvslam_handle st' = cuvslam_handle st
  /\ ground_constraint_handle st' = ground_constraint_handle st
  /\ initial_imu_message st' = initial_imu_message st
  /\ initial_camera_info_messages st' = initial_camera_info_messages st
  /\ localized_in_exist_map_ st' = localized_in_exist_map_ st
  /\ next_promise st' = next_promise st
  /\ localize_in_exist_db_context st' = localize_in_exist_db_context st.

(** What a callback hands to the synchronizer or the sequencer once the
    engine exists. *)
Definition forwarded (i : Ingress) : option Event :=
  match i with
  | OnImu _ msg => Some (EvSequencerCallbackStream1 (imu_stamp msg) msg)
  | OnImage _ index image_view =>
      Some (EvSyncAddMessage index (image_stamp image_view) image_view)
  | OnCameraInfo _ _ _ => None
  end.

(** The last IMU message among the inputs, [start] when there is none. *)
Definition latest_imu (inputs : list Ingress) (start : option ImuType) : option ImuType :=
  foldl (fun acc i => match i with OnImu _ msg => Some msg | _ => acc end) start inputs.

(** The camera-info messages among the inputs, by camera, on top of [start]. *)
Definition stored_camera_infos (inputs : list Ingress) (start : gmap Z CameraInfoType)
    : gmap Z CameraInfoType :=
  foldl (fun acc i => match i with OnCameraInfo _ index msg => <[index := msg]> acc | _ => acc end)
    start inputs.

(** [e] is an event of [Initialize] before the tracker is asked for: the
    entry, a log line, the creation of the ground constraint or the default
    configuration. *)
Definition is_setup_event (e : Event) : bool :=
  match e with
  | EvInitialize | EvLog _ _ => true
  | EvEngine CUVSLAM_GroundConstraintCreate | EvEngine CUVSLAM_InitDefaultConfiguration => true
  | _ => false
  end.

(** [e] says that a function was left by an exception nothing in it catches
    or that the language defines nothing from here on. *)
Definition is_abort (e : Event) : bool :=
  match e with
  | EvUncaught _ | EvUndefinedBehaviour => true
  | _ => false
  end.

(** The stored messages [Initialize] reads: one camera-info message for each
    camera of the rig and, with IMU fusion, the IMU message. *)
Definition initial_messages_stored (st : VisualSlamImpl) : Prop :=
  (forall i, 0 <= i < num_cameras_ (node st) ->
             is_Some (initial_camera_info_messages st !! i))
  /\ (enable_imu_fusion_ (node st) = true -> is_Some (initial_imu_message st)).

(** Everything [Initialize] asks for is there: the camera-info messages are
    those of the cameras [0 .. num_cameras_ - 1] and of no other index, there
    is a camera to take the base frame from when the parameter is empty, the
    frames of the cameras, when given as a parameter, are at least as many as
    the cameras, the IMU message has arrived if IMU fusion is enabled, and
    the tf buffer knows every transform. *)
Definition rig_inputs_present (tf : TfEnv) (st : VisualSlamImpl) : Prop :=
  0 <= num_cameras_ (node st)
  /\ (forall i, is_Some (initial_camera_info_messages st !! i)
                <-> 0 <= i < num_cameras_ (node st))
  /\ (base_frame_ (node st) = "" -> 0 < num_cameras_ (node st))
  /\ (camera_optical_frames_ (node st) = []
      \/ num_cameras_ (node st) <= Z.of_nat (length (camera_optical_frames_ (node st))))
  /\ (enable_imu_fusion_ (node st) = true -> is_Some (initial_imu_message st))
  /\ (forall target source, is_Some (lookupTransform tf target source)).

(** [e] is a message handed to the synchronizer or the sequencer, or the
    entry into [Initialize]. *)
Definition is_ingress_event (e : Event) : bool :=
  match e with
  | EvSyncAddMessage _ _ _ | EvSequencerCallbackStream1 _ _
  | EvSequencerCallbackStream2 _ _ | EvInitialize => true
  | _ => false
  end.

(** The group as [CallbackSynchronizedImages] hands it to the sequencer. *)
Definition group_handed_on (group : SynchronizedGroup) : Event :=
  EvSequencerCallbackStream2 (group_latest_ts group) (group_msgs group).

(** What the callbacks of an input hand to the synchronizer and the
    sequencer once the engine exists, in this order. *)
Definition handed_on (i : Ingress) : list Event :=
  match i with
  | OnImu _ msg => [EvSequencerCallbackStream1 (imu_stamp msg) msg]
  | OnImage groups index image_view =>
      EvSyncAddMessage index (image_stamp image_view) image_view
      :: map group_handed_on groups
  | OnCameraInfo _ _ _ => []
  end.

(** The batches the sequencer hands to [UpdatePose] in reaction to an
    input, in this order. *)
Definition ticks_of (i : Ingress) : list FusedBatch :=
  match i with
  | OnImu batches _ => batches
  | OnImage groups _ _ => concat (map group_batches groups)
  | OnCameraInfo _ _ _ => []
  end.

(** The pose hint as [LocalizeInMapAsync] hands it to the engine. *)
Definition pose_hint_cv (tf_fromMsg : PoseType -> Transform) (cuvslam_pose_canonical : Transform)
    (TocuVSLAMPose : Transform -> CUVSLAM_Pose) (map_pose_frame_id : Transform)
    (pose_hint : PoseType) : CUVSLAM_Pose :=
  TocuVSLAMPose (ChangeBasis cuvslam_pose_canonical
                   (tf_mul map_pose_frame_id (tf_fromMsg pose_hint))).

(** The pose being localized at, in the conventions of ROS. *)
Definition localized_pose (pose_in_db : CUVSLAM_Pose) : PoseType :=
  tf_toMsg (ChangeBasis canonical_pose_cuvslam (FromcuVSLAMPose pose_in_db)).

End MoreObservations.

(** ** Further inputs for the stand-in *)

Module StandInInputs.

Import StandIn.

#[local] Existing Instance StandIn.collaborators.

(** An engine that tracks but has no SLAM pose to give. *)
Definition tick_without_slam_pose : TickEnv :=
  {| poll_future := never_ready;
     register_imu_status := fun _ => CUVSLAM_SUCCESS;
     track_completions := [];
     track_status := CUVSLAM_SUCCESS;
     track_pose := 5;
     track_covariance := zero_covariance;
     ground_add_status := CUVSLAM_SUCCESS;
     ground_get_status := CUVSLAM_SUCCESS;
     ground_pose := 5;
     slam_pose_status := CUVSLAM_GENERIC_ERROR;
     slam_pose_value := 0;
     gravity_status := CUVSLAM_SUCCESS;
     gravity_value := {| vx := 0; vy := 0; vz := -9.75 |};
     HasSubscribers := all_subscribed;
     clock_now := 0;
     stopwatch_seconds := 0.5%float;
     stopwatch_track_seconds := 0.25%float |}.

(** An engine that, during the tracking call of the tick, completes the
    save request of context 1. *)
Definition tick_completing_save : TickEnv :=
  {| poll_future := never_ready;
     register_imu_status := fun _ => CUVSLAM_SUCCESS;
     track_completions := [CompleteSave 1 CUVSLAM_SUCCESS];
     track_status := CUVSLAM_SUCCESS;
     track_pose := 5;
     track_covariance := zero_covariance;
     ground_add_status := CUVSLAM_SUCCESS;
     ground_get_status := CUVSLAM_SUCCESS;
     ground_pose := 5;
     slam_pose_status := CUVSLAM_SUCCESS;
     slam_pose_value := 5;
     gravity_status := CUVSLAM_SUCCESS;
     gravity_value := {| vx := 0; vy := 0; vz := -9.75 |};
     HasSubscribers := all_subscribed;
     clock_now := 0;
     stopwatch_seconds := 0.5%float;
     stopwatch_track_seconds := 0.25%float |}.

(** The object before initialization with the camera-info messages of both
    cameras and an IMU message stored. *)
Definition ready_to_initialize : VisualSlamImpl :=
  set_initial_imu_message (Some (imu 12))
    (set_initial_camera_info_messages
       (<[1 := camera_info 10]> (<[0 := camera_info 10]> ∅)) constructed).

(** A stereo pair stamped 13 as the sequencer hands it to [UpdatePose], and
    the synchronized group that makes the sequencer do so. *)
Definition batch_13 : FusedBatch :=
  {| batch_env := tick CUVSLAM_SUCCESS 5 never_ready;
     batch_imu_msgs := [imu 12];
     batch_image := (0, image 13 1);
     batch_more_images := [(1, image 13 2)] |}.

Definition group_13 : SynchronizedGroup :=
  {| group_latest_ts := 13; group_msgs := stereo 13; group_batches := [batch_13] |}.

(** A tf buffer in which every frame is 3 away from every other, and one
    that knows no frame. *)
Definition tf_tree : TfEnv :=
  {| canTransform := fun _ _ => true; lookupTransform := fun _ _ => Some 3 |}.

Definition empty_tf_tree : TfEnv :=
  {| canTransform := fun _ _ => false; lookupTransform := fun _ _ => None |}.

(** The conversions of the wrappers: the bases coincide. *)
Definition tf_fromMsg : PoseType -> Transform := fun pose => pose.
Definition cuvslam_pose_canonical : Transform := 0.
Definition TocuVSLAMPose : Transform -> CUVSLAM_Pose := fun pose => pose.

(** A tracker that cannot be created. *)
Definition init_without_tracker : InitEnv :=
  {| ground_constraint_create_status := CUVSLAM_SUCCESS;
     ground_constraint_created := 3;
     init_tf := tf_tree;
     create_tracker_status := CUVSLAM_GENERIC_ERROR;
     created_tracker := 7 |}.

(** Border masks of a stereo rig with unrectified images, and a rig without
    masks. *)
Definition masked : BorderParams :=
  {| rectified_images_ := false; border_mask_top_ := 10; border_mask_bottom_ := 20;
     border_mask_left_ := 30; border_mask_right_ := 40 |}.

Definition unmasked : BorderParams :=
  {| rectified_images_ := true; border_mask_top_ := 10; border_mask_bottom_ := 20;
     border_mask_left_ := 30; border_mask_right_ := 40 |}.

Definition region (x y height width : Z) : RegionOfInterest :=
  {| x_offset := x; y_offset := y; roi_height := height; roi_width := width |}.

End StandInInputs.

(** * Properties *)

Section Properties.

Context `{Collab : Collaborators}.

Implicit Types (st : VisualSlamImpl) (tr : list Event) (env : TickEnv).

(** Proves [Forall P l] for a trace [l] built from the blocks of the tick,
    when [P] holds by computation of every event that can occur. *)
Ltac forall_events :=
  repeat first
    [ apply Forall_nil_2
    | apply Forall_cons_2; [ exact I | ]
    | apply Forall_app_2
    | progress unfold publish_if, PublishFrameTransform, PublishGravity, jitter_warning, PoseToGround
    | match goal with
      | |- Forall _ (if ?c then _ else _) => destruct c
      | |- Forall _ (match ?x with _ => _ end) => destruct x
      | |- Forall _ (_ :: _) => apply Forall_cons_2; [ exact I | ]
      end ].

(** Decides an implication between event kinds by cases on the event. *)
Ltac by_event :=
  let e := fresh "e" in
  intros e; destruct e as [| [] | | | | | | | | | [] | |]; cbn; tauto.

(** Splits a membership in an explicit list into its cases. *)
Ltac elem_cases :=
  repeat match goal with
         | H : _ ∈ [] |- _ => apply elem_of_nil in H; destruct H
         | H : _ ∈ _ :: _ |- _ => apply elem_of_cons in H as [H|H]
         end.

(** ** Reading a trace *)

Lemma published_on_app pub tr1 tr2 :
  published_on pub (tr1 ++ tr2) = published_on pub tr1 ++ published_on pub tr2.
Proof. unfold published_on. apply omap_app. Qed.

Lemma published_on_none pub tr :
  Forall (not_on pub) tr -> published_on pub tr = [].
Proof.
  induction 1 as [|e tr He _ IH]; [reflexivity|].
  unfold published_on in *. cbn [omap list_omap]. rewrite IH.
  destruct e; try reflexivity. cbn in He.
  destruct (decide (pub0 = pub)) as [->|]; [|reflexivity].
  apply bool_decide_unpack in He. contradiction.
Qed.

Lemma published_on_publish_if env pub pub' msg :
  published_on pub (publish_if env pub' msg) =
  if decide (pub' = pub) then (if HasSubscribers env pub' then [msg] else []) else [].
Proof.
  unfold publish_if, published_on.
  destruct (HasSubscribers env pub'); cbn; destruct (decide (pub' = pub)); reflexivity.
Qed.

Lemma elem_of_published_on pub msg tr :
  EvPublish pub msg ∈ tr <-> msg ∈ published_on pub tr.
Proof.
  unfold published_on. rewrite list_elem_of_omap. split.
  - intros Hin. exists (EvPublish pub msg). split; [exact Hin|].
    destruct (decide (pub = pub)); [reflexivity|contradiction].
  - intros (e & Hin & He). destruct e; try discriminate.
    destruct (decide (pub0 = pub)); [|discriminate]. by simplify_eq.
Qed.

(** ** The completion handlers *)

(** A handler call writes the promises and nothing else, and the only event
    it can leave is the exception of [set_value]. *)
Lemma deliver_with_promises c st :
  exists localize save ev,
    deliver c st = (with_promises localize save st, ev) /\ Forall is_handler_exception ev.
Proof.
  destruct st; destruct c as [context status|status pose]; cbn [deliver];
    unfold SaveToSlamDbResponse, LocalizeInExistDbResponse, set_value, with_promises,
      set_save_promises, set_localize_promises; cbn.
  - destruct (_ !! context) as [[?|]|]; eexists _, _, _;
      (split; [reflexivity|repeat constructor]).
  - destruct (_ !! _) as [[?|]|]; eexists _, _, _;
      (split; [reflexivity|repeat constructor]).
Qed.

Lemma deliver_all_with_promises cs st :
  exists localize save ev,
    deliver_all cs st = (with_promises localize save st, ev) /\ Forall is_handler_exception ev.
Proof.
  revert st. induction cs as [|c cs IH]; intros st; cbn [deliver_all].
  - exists (localize_promises st), (save_promises st), [].
    split; [destruct st; reflexivity|constructor].
  - destruct (deliver_with_promises c st) as (lp1 & sp1 & ev1 & -> & Hev1).
    destruct (IH (with_promises lp1 sp1 st)) as (lp2 & sp2 & ev2 & -> & Hev2).
    exists lp2, sp2, (ev1 ++ ev2). split; [reflexivity|]. apply Forall_app_2; assumption.
Qed.

Lemma with_promises_members localize save st :
  let st' := with_promises localize save st in
  node st' = node st
  /\ cuvslam_handle st' = cuvslam_handle st
  /\ ground_constraint_handle st' = ground_constraint_handle st
  /\ initial_imu_message st' = initial_imu_message st
  /\ initial_camera_info_messages st' = initial_camera_info_messages st
  /\ pose_cache st' = pose_cache st
  /\ velocity_cache st' = velocity_cache st
  /\ vo_path st' = vo_path st
  /\ slam_path st' = slam_path st
  /\ track_execution_times st' = track_execution_times st
  /\ last_track_ts st' = last_track_ts st
  /\ localized_in_exist_map_ st' = localized_in_exist_map_ st
  /\ next_promise st' = next_promise st
  /\ localize_in_exist_db_context st' = localize_in_exist_db_context st
  /\ localization_future_ st' = localization_future_ st.
Proof. cbn. repeat split. Qed.

(** Reads the members of [with_promises _ _ st] that are those of [st]. *)
Ltac unpromise :=
  repeat match goal with
         | |- context [with_promises ?lp ?sp ?st] =>
             let H := fresh in
             pose proof (with_promises_members lp sp st) as H; cbn zeta in H;
             destruct H as (? & ? & ? & ? & ? & ? & ? & ? & ? & ? & ? & ? & ? & ? & ?);
             generalize dependent (with_promises lp sp st); intros
         end.

(** ** The blocks of the tick, one at a time *)

Lemma CheckLocalizationStatus_state poll st :
  (CheckLocalizationStatus poll st).1 =
  set_localization_future_ (slot_after_poll poll (localization_future_ st)) st.
Proof.
  unfold CheckLocalizationStatus, slot_after_poll.
  destruct st as [? ? ? ? ? ? ? ? ? ? ? ? ? ? ? ? slot]; cbn.
  destruct slot as [f|]; [destruct (poll f)|]; reflexivity.
Qed.

Lemma CheckLocalizationStatus_events poll st :
  (CheckLocalizationStatus poll st).2 =
  match localization_future_ st with
  | None => []
  | Some f =>
      match poll f with
      | None => [EvFutureWaitFor f 0]
      | Some outcome =>
          [EvFutureWaitFor f 0; EvFutureGet f;
           match outcome with
           | FutureValue (Some _) => EvLog INFO "Localization completed successfully"
           | FutureValue None => EvLog ERROR "Localization failed"
           | FutureThrows => EvLog ERROR "Localization exception: %s"
           end]
      end
  end.
Proof.
  unfold CheckLocalizationStatus.
  destruct (localization_future_ st) as [f|]; [destruct (poll f)|]; reflexivity.
Qed.

Lemma register_imu_measurements_calls env latest_ts n imu_msgs :
  filter is_register_imu (register_imu_measurements env latest_ts n imu_msgs) =
  map (fun msg => EvEngine (CUVSLAM_RegisterImuMeasurement latest_ts (TocuVSLAMImuMeasurement msg)))
    imu_msgs.
Proof.
  revert n. induction imu_msgs as [|msg rest IH]; intros n; [reflexivity|].
  cbn [register_imu_measurements map]. rewrite !filter_app, IH.
  destruct (negb (is_success (register_imu_status env n))); reflexivity.
Qed.

Lemma register_imu_measurements_kinds env latest_ts n imu_msgs :
  Forall (fun e => negb (is_track e) && negb (is_publication e) && negb (is_future_event e))
    (register_imu_measurements env latest_ts n imu_msgs).
Proof.
  revert n. induction imu_msgs as [|msg rest IH]; intros n; cbn [register_imu_measurements].
  - constructor.
  - forall_events. apply IH.
Qed.

Lemma publish_poses_follow env latest_ts ts_out cv_odom cv_map st :
  Forall follows_track (publish_poses env latest_ts ts_out cv_odom cv_map st).2.
Proof. unfold publish_poses; cbn [snd]. forall_events. Qed.

Lemma finish_tick_follow env vo_status latest_ts ts_out st :
  Forall follows_track (finish_tick env vo_status latest_ts ts_out st).2.
Proof. unfold finish_tick; cbn [snd]. forall_events. Qed.

Lemma publish_tracked_pose_follow env latest_ts ts_out st :
  Forall follows_track (publish_tracked_pose env latest_ts ts_out st).1.2.
Proof.
  unfold publish_tracked_pose.
  pose proof (publish_poses_follow env latest_ts ts_out) as Hposes.
  destruct (ground_constraint_handle st); unfold PoseToGround;
    repeat match goal with
           | |- context [if ?c then _ else _] => destruct c
           | |- context [publish_poses ?a ?b ?c ?d ?e ?f] =>
               let H := fresh in
               pose proof (Hposes d e f) as H; destruct (publish_poses a b c d e f); cbn [snd] in H
           end; cbn [fst snd]; forall_events; assumption.
Qed.

Lemma filter_none (P : Event -> bool) tr :
  Forall (fun e => negb (P e)) tr -> filter P tr = [].
Proof.
  induction 1 as [|e tr He _ IH]; [reflexivity|].
  rewrite filter_cons, IH. destruct (P e); [destruct He|].
  destruct (decide _) as [Hd|]; [destruct Hd|reflexivity].
Qed.

Lemma latest_image_stamp_nonempty (idx_and_image_msgs : list (Z * ImageType)) :
  idx_and_image_msgs <> [] -> exists latest_ts, latest_image_stamp idx_and_image_msgs = Some latest_ts.
Proof. destruct idx_and_image_msgs; [congruence|]. cbn. eauto. Qed.

Lemma UpdatePose_eq env imu_msgs idx_and_image_msgs latest_ts st :
  latest_image_stamp idx_and_image_msgs = Some latest_ts ->
  UpdatePose env imu_msgs idx_and_image_msgs st =
  Some ((track_and_publish env imu_msgs idx_and_image_msgs latest_ts
           (CheckLocalizationStatus (poll_future env) st).1).1,
        (CheckLocalizationStatus (poll_future env) st).2 ++
        (track_and_publish env imu_msgs idx_and_image_msgs latest_ts
           (CheckLocalizationStatus (poll_future env) st).1).2).
Proof.
  intros Hts. unfold UpdatePose. rewrite Hts.
  destruct (CheckLocalizationStatus (poll_future env) st) as [st0 ev0]. cbn [fst snd].
  destruct (track_and_publish env imu_msgs idx_and_image_msgs latest_ts st0). reflexivity.
Qed.

Lemma UpdatePose_runs env (imu_msgs : list ImuType)
    (idx_and_image_msgs : list (Z * ImageType)) st :
  idx_and_image_msgs <> [] ->
  exists st' tr, UpdatePose env imu_msgs idx_and_image_msgs st = Some (st', tr).
Proof.
  intros Hne. destruct (latest_image_stamp_nonempty _ Hne) as [latest_ts Hts].
  rewrite (UpdatePose_eq _ _ _ _ _ Hts). eauto.
Qed.

Lemma after_track_follow env latest_ts st :
  Forall follows_track (after_track env latest_ts st).2.
Proof.
  unfold after_track.
  destruct (bool_decide (track_status env = CUVSLAM_TRACKING_LOST)).
  - pose proof (finish_tick_follow env (track_status env) latest_ts
                  (if override_publishing_stamp_ (node st) then clock_now env else latest_ts)
                  (set_pose_cache (pose_cache_Reset (pose_cache st)) st)) as Hfin.
    destruct (finish_tick _ _ _ _ _) as [st2 ev_end]. cbn [fst snd] in *.
    forall_events. exact Hfin.
  - destruct (negb (is_success (track_status env))).
    + forall_events.
    + set (ts_out := if override_publishing_stamp_ (node st) then clock_now env else latest_ts).
      pose proof (publish_tracked_pose_follow env latest_ts ts_out st) as Hpub.
      destruct (publish_tracked_pose env latest_ts ts_out st) as [[st1 ev1] []]; cbn [fst snd] in *.
      * pose proof (finish_tick_follow env (track_status env) latest_ts ts_out st1) as Hfin.
        destruct (finish_tick _ _ _ _ _) as [st2 ev_end]. cbn [fst snd] in *.
        forall_events; assumption.
      * assumption.
Qed.

(** The tick in three parts: up to the tracking call, the completion
    handlers the engine calls during it, and the rest. *)
Lemma track_and_publish_eq env imu_msgs idx_and_image_msgs latest_ts st :
  exists localize save ev_handlers,
    deliver_all (track_completions env) st = (with_promises localize save st, ev_handlers)
    /\ Forall is_handler_exception ev_handlers
    /\ track_and_publish env imu_msgs idx_and_image_msgs latest_ts st =
         ((after_track env latest_ts (with_promises localize save st)).1,
          (EvLog DEBUG "Using image msg timestamp [%ld]"
             :: jitter_warning (node st) latest_ts (last_track_ts st))
          ++ register_imu_measurements env latest_ts 0 imu_msgs
          ++ EvEngine (CUVSLAM_TrackGpuMem
                         (convert_images (num_cameras_ (node st)) latest_ts idx_and_image_msgs))
             :: ev_handlers ++ (after_track env latest_ts (with_promises localize save st)).2).
Proof.
  destruct (deliver_all_with_promises (track_completions env) st)
    as (localize & save & ev_handlers & Hd & Hev).
  exists localize, save, ev_handlers. split; [exact Hd|]. split; [exact Hev|].
  unfold track_and_publish. rewrite Hd.
  destruct (after_track env latest_ts (with_promises localize save st)). reflexivity.
Qed.

Lemma handler_exceptions_follow ev :
  Forall is_handler_exception ev -> Forall follows_track ev.
Proof. intros Hev. eapply Forall_impl; [exact Hev|]. by_event. Qed.

(** The events of the tick up to and including the tracking call. *)
Lemma track_and_publish_shape env imu_msgs idx_and_image_msgs latest_ts st :
  exists after,
    (track_and_publish env imu_msgs idx_and_image_msgs latest_ts st).2 =
      (EvLog DEBUG "Using image msg timestamp [%ld]"
         :: jitter_warning (node st) latest_ts (last_track_ts st))
      ++ register_imu_measurements env latest_ts 0 imu_msgs
      ++ EvEngine (CUVSLAM_TrackGpuMem
                     (convert_images (num_cameras_ (node st)) latest_ts idx_and_image_msgs))
         :: after
    /\ Forall follows_track after.
Proof.
  destruct (track_and_publish_eq env imu_msgs idx_and_image_msgs latest_ts st)
    as (localize & save & ev_handlers & _ & Hev & ->).
  eexists. split; [reflexivity|].
  apply Forall_app_2; [apply handler_exceptions_follow, Hev|apply after_track_follow].
Qed.

Lemma jitter_warning_kinds nd latest_ts last_ts :
  Forall (fun e => negb (is_engine_event e) && negb (is_publication e) && negb (is_future_event e))
    (jitter_warning nd latest_ts last_ts).
Proof. forall_events. Qed.

Lemma publish_tracked_pose_frame env latest_ts ts_out st :
  let r := publish_tracked_pose env latest_ts ts_out st in
  localization_future_ r.1.1 = localization_future_ st
  /\ last_track_ts r.1.1 = last_track_ts st
  /\ track_execution_times r.1.1 = track_execution_times st
  /\ node r.1.1 = node st
  /\ (r.2 = Return -> r.1.1 = st /\ Forall (fun e => negb (is_publication e)) r.1.2).
Proof.
  unfold publish_tracked_pose, publish_poses.
  destruct (ground_constraint_handle st); unfold PoseToGround;
    repeat match goal with
           | |- context [if negb (is_success ?c) then _ else _] => destruct (negb (is_success c))
           | |- context [if enable_localization_n_mapping_ ?c then _ else _] =>
               destruct (enable_localization_n_mapping_ c)
           end; cbn [fst snd];
    (repeat split; try reflexivity; try discriminate; try forall_events).
Qed.

Lemma finish_tick_frame env vo_status latest_ts ts_out st :
  let r := finish_tick env vo_status latest_ts ts_out st in
  localization_future_ r.1 = localization_future_ st
  /\ pose_cache r.1 = pose_cache st
  /\ velocity_cache r.1 = velocity_cache st
  /\ last_track_ts r.1 = latest_ts
  /\ track_execution_times r.1 =
       limited_add (stopwatch_track_seconds env) (track_execution_times st).
Proof. unfold finish_tick. cbn. repeat split; reflexivity. Qed.

Lemma track_and_publish_slot env imu_msgs idx_and_image_msgs latest_ts st :
  localization_future_ (track_and_publish env imu_msgs idx_and_image_msgs latest_ts st).1 =
  localization_future_ st.
Proof.
  destruct (track_and_publish_eq env imu_msgs idx_and_image_msgs latest_ts st)
    as (localize & save & ev_handlers & _ & _ & ->).
  cbn [fst]. change (localization_future_ st)
    with (localization_future_ (with_promises localize save st)).
  generalize (with_promises localize save st). clear st. intros st.
  unfold after_track.
  destruct (bool_decide (track_status env = CUVSLAM_TRACKING_LOST)).
  - destruct (finish_tick_frame env (track_status env) latest_ts
                (if override_publishing_stamp_ (node st) then clock_now env else latest_ts)
                (set_pose_cache (pose_cache_Reset (pose_cache st)) st)) as (Hslot & _).
    destruct (finish_tick _ _ _ _ _). exact Hslot.
  - destruct (negb (is_success (track_status env))); [reflexivity|].
    set (ts_out := if override_publishing_stamp_ (node st) then clock_now env else latest_ts).
    destruct (publish_tracked_pose_frame env latest_ts ts_out st) as (Hslot & _).
    destruct (publish_tracked_pose env latest_ts ts_out st) as [[st1 ev1] []]; cbn [fst snd] in *.
    + destruct (finish_tick_frame env (track_status env) latest_ts ts_out st1) as (Hfin & _).
      destruct (finish_tick _ _ _ _ _). cbn [fst] in *. congruence.
    + exact Hslot.
Qed.

Lemma CheckLocalizationStatus_kinds poll st :
  Forall (fun e => negb (is_engine_event e) && negb (is_publication e) && negb (is_register_imu e)
                   && negb (is_track e))
    (CheckLocalizationStatus poll st).2.
Proof.
  rewrite CheckLocalizationStatus_events.
  destruct (localization_future_ st) as [f|]; [destruct (poll f) as [[[?|]|]|]|]; forall_events.
Qed.

Lemma filter_kinds (P Q : Event -> bool) tr :
  Forall Q tr -> (forall e, Q e -> negb (P e)) -> filter P tr = [].
Proof. intros Htr HQP. apply filter_none. eapply Forall_impl; [exact Htr|exact HQP]. Qed.

Lemma Forall_bool_weaken (P Q : Event -> bool) tr :
  (forall e, P e -> Q e) -> Forall P tr -> Forall Q tr.
Proof. intros HPQ Htr. eapply Forall_impl; [exact Htr|exact HPQ]. Qed.

(** ** The tracking tick *)

(** C7: within a tick the IMU registration is called once for every inertial
    sample of the batch, in order, every such call precedes the tracking
    call, and the tracking call is made exactly once. *)
Theorem imu_registered_before_single_track env (imu_msgs : list ImuType)
    (idx_and_image_msgs : list (Z * ImageType)) st :
  idx_and_image_msgs <> [] ->
  exists st' tr latest_ts before after,
    UpdatePose env imu_msgs idx_and_image_msgs st = Some (st', tr)
    /\ latest_image_stamp idx_and_image_msgs = Some latest_ts
    /\ tr = before
            ++ EvEngine (CUVSLAM_TrackGpuMem
                           (convert_images (num_cameras_ (node st)) latest_ts idx_and_image_msgs))
               :: after
    /\ filter is_register_imu before =
         map (fun msg =>
                EvEngine (CUVSLAM_RegisterImuMeasurement latest_ts (TocuVSLAMImuMeasurement msg)))
           imu_msgs
    /\ filter is_track before = []
    /\ filter is_register_imu after = []
    /\ filter is_track after = [].
Proof.
  intros Hne. destruct (latest_image_stamp_nonempty _ Hne) as [latest_ts Hts].
  set (st0 := (CheckLocalizationStatus (poll_future env) st).1).
  destruct (track_and_publish_shape env imu_msgs idx_and_image_msgs latest_ts st0)
    as (after & Hshape & Hafter).
  assert (Hnode : node st0 = node st)
    by (subst st0; rewrite CheckLocalizationStatus_state; reflexivity).
  assert (Hlast : last_track_ts st0 = last_track_ts st)
    by (subst st0; rewrite CheckLocalizationStatus_state; reflexivity).
  rewrite Hnode, Hlast in Hshape.
  eexists _, _, latest_ts,
    ((CheckLocalizationStatus (poll_future env) st).2
       ++ (EvLog DEBUG "Using image msg timestamp [%ld]"
             :: jitter_warning (node st) latest_ts (last_track_ts st))
       ++ register_imu_measurements env latest_ts 0 imu_msgs), after.
  split; [apply UpdatePose_eq, Hts|].
  split; [exact Hts|].
  split; [fold st0; rewrite Hshape, <- !app_assoc; reflexivity|].
  split; [|split; [|split]].
  - rewrite !filter_app, register_imu_measurements_calls, filter_cons.
    rewrite (filter_kinds _ _ _ (CheckLocalizationStatus_kinds _ _)) by by_event.
    rewrite (filter_kinds _ _ _ (jitter_warning_kinds _ _ _)) by by_event.
    reflexivity.
  - rewrite !filter_app, filter_cons.
    rewrite (filter_kinds _ _ _ (CheckLocalizationStatus_kinds _ _)) by by_event.
    rewrite (filter_kinds _ _ _ (jitter_warning_kinds _ _ _)) by by_event.
    rewrite (filter_kinds _ _ _ (register_imu_measurements_kinds _ _ _ _)) by by_event.
    reflexivity.
  - apply (filter_kinds _ _ _ Hafter). by_event.
  - apply (filter_kinds _ _ _ Hafter). by_event.
Qed.

(** The tick after the status check: no wait on a future, no [get]. *)
Lemma track_and_publish_no_future_event env imu_msgs idx_and_image_msgs latest_ts st :
  filter is_future_event (track_and_publish env imu_msgs idx_and_image_msgs latest_ts st).2 = [].
Proof.
  destruct (track_and_publish_shape env imu_msgs idx_and_image_msgs latest_ts st)
    as (after & -> & Hafter).
  rewrite !filter_app, filter_cons, filter_cons.
  rewrite (filter_kinds _ _ _ (jitter_warning_kinds _ _ _)) by by_event.
  rewrite (filter_kinds _ _ _ (register_imu_measurements_kinds _ _ _ _)) by by_event.
  rewrite (filter_kinds _ _ _ Hafter) by by_event.
  reflexivity.
Qed.

(** C5: the tick starts with the localization status check, before any engine
    call.  The check waits on the stored future for zero seconds; when the
    future is ready it takes the result, logs the outcome and clears the
    slot; when no future is stored or the future is not ready the slot is
    left as it is and nothing else in the tick waits on a future. *)
Theorem localization_poll_is_nonblocking env (imu_msgs : list ImuType)
    (idx_and_image_msgs : list (Z * ImageType)) st :
  idx_and_image_msgs <> [] ->
  exists st' tr check rest,
    UpdatePose env imu_msgs idx_and_image_msgs st = Some (st', tr)
    /\ tr = check ++ rest
    /\ filter is_engine_event check = []
    /\ filter is_track rest <> []
    /\ filter is_future_event rest = []
    /\ (forall f seconds, EvFutureWaitFor f seconds ∈ tr -> seconds = 0)
    /\ match localization_future_ st with
       | None => check = [] /\ localization_future_ st' = None
       | Some f =>
           match poll_future env f with
           | None => check = [EvFutureWaitFor f 0] /\ localization_future_ st' = Some f
           | Some outcome =>
               localization_future_ st' = None
               /\ exists level text, check = [EvFutureWaitFor f 0; EvFutureGet f; EvLog level text]
           end
       end.
Proof.
  intros Hne. destruct (latest_image_stamp_nonempty _ Hne) as [latest_ts Hts].
  set (st0 := (CheckLocalizationStatus (poll_future env) st).1).
  eexists _, _, (CheckLocalizationStatus (poll_future env) st).2,
    (track_and_publish env imu_msgs idx_and_image_msgs latest_ts st0).2.
  split; [apply UpdatePose_eq, Hts|]. fold st0.
  split; [reflexivity|].
  split; [apply (filter_kinds _ _ _ (CheckLocalizationStatus_kinds _ _)); by_event|].
  split.
  { destruct (track_and_publish_shape env imu_msgs idx_and_image_msgs latest_ts st0)
      as (after & -> & _).
    rewrite !filter_app, (filter_cons _ (EvEngine _)). cbn.
    intros Hnil. apply app_eq_nil in Hnil as [_ Hnil]. apply app_eq_nil in Hnil as [_ Hnil].
    discriminate. }
  split; [apply track_and_publish_no_future_event|].
  split.
  { intros f seconds [Hin|Hin]%elem_of_app.
    - rewrite CheckLocalizationStatus_events in Hin.
      destruct (localization_future_ st) as [f0|];
        [destruct (poll_future env f0) as [[[?|]|]|]|]; elem_cases; congruence.
    - assert (Hf : EvFutureWaitFor f seconds ∈ filter is_future_event
                     (track_and_publish env imu_msgs idx_and_image_msgs latest_ts st0).2)
        by (apply list_elem_of_filter; split; [exact I|exact Hin]).
      rewrite track_and_publish_no_future_event in Hf. elem_cases. }
  rewrite track_and_publish_slot. subst st0.
  rewrite CheckLocalizationStatus_state, CheckLocalizationStatus_events. cbn.
  destruct (localization_future_ st) as [f|]; cbn;
    [destruct (poll_future env f) as [[[?|]|]|]|]; eauto 8.
Qed.

Lemma filter_publish_if env pub msg :
  filter is_publication (publish_if env pub msg) = publish_if env pub msg.
Proof. unfold publish_if. destruct (HasSubscribers env pub); reflexivity. Qed.

Lemma finish_tick_events env vo_status latest_ts ts_out st :
  exists status_msg diagnostics,
    (finish_tick env vo_status latest_ts ts_out st).2 =
      publish_if env visual_slam_status_pub_ (MsgVisualSlamStatus status_msg)
      ++ publish_if env diagnostics_pub_ (MsgDiagnostics diagnostics)
    /\ vo_state status_msg = (if is_success vo_status then 1 else 2)
    /\ track_execution_time status_msg = stopwatch_track_seconds env
    /\ diag_level diagnostics = (if is_success vo_status then DIAG_OK else DIAG_WARN)
    /\ diag_vo_status diagnostics = vo_status.
Proof. unfold finish_tick. cbn [snd]. eexists _, _. repeat split. Qed.

Lemma after_track_lost env latest_ts st :
  track_status env = CUVSLAM_TRACKING_LOST ->
  let ts_out := if override_publishing_stamp_ (node st) then clock_now env else latest_ts in
  let fin := finish_tick env CUVSLAM_TRACKING_LOST latest_ts ts_out
               (set_pose_cache (pose_cache_Reset (pose_cache st)) st) in
  after_track env latest_ts st = (fin.1, EvLog WARN "Visual tracking is lost" :: fin.2).
Proof.
  intros Hlost ts_out fin. unfold after_track. rewrite Hlost. cbn [bool_decide decide_rel].
  rewrite bool_decide_eq_true_2 by reflexivity.
  fold ts_out. change (node (set_pose_cache _ st)) with (node st). fold fin.
  destruct fin as [st2 ev_end]. reflexivity.
Qed.

Lemma after_track_error env latest_ts st :
  track_status env <> CUVSLAM_TRACKING_LOST ->
  track_status env <> CUVSLAM_SUCCESS ->
  after_track env latest_ts st = (st, [EvLog WARN "Unknown Tracker Error %d"]).
Proof.
  intros Hlost Herr. unfold after_track, is_success.
  rewrite bool_decide_eq_false_2 by exact Hlost.
  rewrite (bool_decide_eq_false_2 _ Herr). reflexivity.
Qed.

Lemma handler_exceptions_quiet ev :
  Forall is_handler_exception ev -> filter is_publication ev = [].
Proof. intros Hev. apply (filter_kinds _ _ _ Hev). by_event. Qed.

(** The events of a tick before the tracking call are no publications. *)
Lemma tick_head_quiet env (imu_msgs : list ImuType) latest_ts st after :
  filter is_publication
    ((CheckLocalizationStatus (poll_future env) st).2
     ++ (EvLog DEBUG "Using image msg timestamp [%ld]"
           :: jitter_warning (node st) latest_ts (last_track_ts st))
     ++ register_imu_measurements env latest_ts 0 imu_msgs
     ++ after) = filter is_publication after.
Proof.
  rewrite !filter_app, filter_cons.
  rewrite (filter_kinds _ _ _ (CheckLocalizationStatus_kinds _ _)) by by_event.
  rewrite (filter_kinds _ _ _ (jitter_warning_kinds _ _ _)) by by_event.
  rewrite (filter_kinds _ _ _ (register_imu_measurements_kinds _ _ _ _)) by by_event.
  reflexivity.
Qed.

Lemma CheckLocalizationStatus_frame poll st :
  let st0 := (CheckLocalizationStatus poll st).1 in
  node st0 = node st
  /\ last_track_ts st0 = last_track_ts st
  /\ pose_cache st0 = pose_cache st
  /\ velocity_cache st0 = velocity_cache st
  /\ track_execution_times st0 = track_execution_times st.
Proof. cbn zeta. rewrite CheckLocalizationStatus_state. repeat split. Qed.

(** C6: in a tick in which the engine reports [CUVSLAM_TRACKING_LOST] the
    pose cache is reset, the only messages published are the status and the
    diagnostics message (no pose, transform, odometry or path), and the tick
    runs to its end: the execution time is recorded and the tick's time stamp
    becomes [last_track_ts]. *)
Theorem tracking_lost_tick_completes env (imu_msgs : list ImuType)
    (idx_and_image_msgs : list (Z * ImageType)) st :
  idx_and_image_msgs <> [] ->
  track_status env = CUVSLAM_TRACKING_LOST ->
  exists st' tr latest_ts status_msg diagnostics,
    UpdatePose env imu_msgs idx_and_image_msgs st = Some (st', tr)
    /\ latest_image_stamp idx_and_image_msgs = Some latest_ts
    /\ pose_cache st' = pose_cache_Reset (pose_cache st)
    /\ filter is_publication tr =
         publish_if env visual_slam_status_pub_ (MsgVisualSlamStatus status_msg)
         ++ publish_if env diagnostics_pub_ (MsgDiagnostics diagnostics)
    /\ vo_state status_msg = 2
    /\ diag_level diagnostics = DIAG_WARN
    /\ diag_vo_status diagnostics = CUVSLAM_TRACKING_LOST
    /\ track_execution_times st' =
         limited_add (stopwatch_track_seconds env) (track_execution_times st)
    /\ last_track_ts st' = latest_ts.
Proof.
  intros Hne Hlost. destruct (latest_image_stamp_nonempty _ Hne) as [latest_ts Hts].
  set (st0 := (CheckLocalizationStatus (poll_future env) st).1).
  destruct (track_and_publish_eq env imu_msgs idx_and_image_msgs latest_ts st0)
    as (localize & save & ev_handlers & _ & Hev & Htp).
  destruct (CheckLocalizationStatus_frame (poll_future env) st)
    as (Hnode & Hts0 & Hcache0 & _ & Htimes0).
  fold st0 in Hnode, Hts0, Hcache0, Htimes0.
  set (stw := with_promises localize save st0) in *.
  pose proof (after_track_lost env latest_ts stw Hlost) as Hafter. cbn zeta in Hafter.
  set (ts_out := if override_publishing_stamp_ (node stw) then clock_now env else latest_ts) in *.
  set (st1 := set_pose_cache (pose_cache_Reset (pose_cache stw)) stw) in *.
  destruct (finish_tick_events env CUVSLAM_TRACKING_LOST latest_ts ts_out st1)
    as (status_msg & diagnostics & Hevs & Hstate & _ & Hlevel & Hstatus).
  destruct (finish_tick_frame env CUVSLAM_TRACKING_LOST latest_ts ts_out st1)
    as (_ & Hcache & _ & Hlast & Htimes).
  exists (finish_tick env CUVSLAM_TRACKING_LOST latest_ts ts_out st1).1.
  eexists _, latest_ts, status_msg, diagnostics.
  split; [rewrite (UpdatePose_eq _ _ _ _ _ Hts); fold st0; rewrite Htp, Hafter; reflexivity|].
  split; [exact Hts|].
  split.
  { rewrite Hcache. change (pose_cache st1) with (pose_cache_Reset (pose_cache st0)).
    rewrite Hcache0. reflexivity. }
  split.
  { cbn [fst snd]. rewrite Hevs, Hnode, Hts0, tick_head_quiet.
    rewrite filter_cons, filter_app, (handler_exceptions_quiet _ Hev).
    cbn [app]. rewrite !filter_cons, filter_app, !filter_publish_if. reflexivity. }
  split; [exact Hstate|]. split; [exact Hlevel|]. split; [exact Hstatus|].
  split.
  { rewrite Htimes. change (track_execution_times st1) with (track_execution_times st0).
    rewrite Htimes0. reflexivity. }
  exact Hlast.
Qed.

(** C10: when the tracking status is neither success nor tracking-lost the
    tick returns early: the pose cache is not reset, nothing is published
    (no status, no diagnostics), the execution-time history and
    [last_track_ts] keep their values, so that the inter-frame warning of the
    next tick is computed against the stamp of the last tick that ran to its
    end. *)
Theorem tracker_error_returns_early env (imu_msgs : list ImuType)
    (idx_and_image_msgs : list (Z * ImageType)) st :
  idx_and_image_msgs <> [] ->
  track_status env <> CUVSLAM_SUCCESS ->
  track_status env <> CUVSLAM_TRACKING_LOST ->
  exists st' tr,
    UpdatePose env imu_msgs idx_and_image_msgs st = Some (st', tr)
    /\ pose_cache st' = pose_cache st
    /\ velocity_cache st' = velocity_cache st
    /\ filter is_publication tr = []
    /\ track_execution_times st' = track_execution_times st
    /\ last_track_ts st' = last_track_ts st
    /\ forall env2 (imu_msgs2 : list ImuType) (images2 : list (Z * ImageType)) latest_ts2,
         latest_image_stamp images2 = Some latest_ts2 ->
         exists st2 tr2 after2,
           UpdatePose env2 imu_msgs2 images2 st' = Some (st2, tr2)
           /\ tr2 = (CheckLocalizationStatus (poll_future env2) st').2
                    ++ (EvLog DEBUG "Using image msg timestamp [%ld]"
                          :: jitter_warning (node st) latest_ts2 (last_track_ts st))
                    ++ register_imu_measurements env2 latest_ts2 0 imu_msgs2
                    ++ EvEngine (CUVSLAM_TrackGpuMem
                                   (convert_images (num_cameras_ (node st)) latest_ts2 images2))
                       :: after2.
Proof.
  intros Hne Hok Hlost. destruct (latest_image_stamp_nonempty _ Hne) as [latest_ts Hts].
  set (st0 := (CheckLocalizationStatus (poll_future env) st).1).
  destruct (track_and_publish_eq env imu_msgs idx_and_image_msgs latest_ts st0)
    as (localize & save & ev_handlers & _ & Hev & Htp).
  destruct (CheckLocalizationStatus_frame (poll_future env) st)
    as (Hnode & Hts0 & Hcache & Hvel & Htimes).
  fold st0 in Hnode, Hts0, Hcache, Hvel, Htimes.
  set (stw := with_promises localize save st0) in *.
  rewrite (after_track_error env latest_ts stw Hlost Hok) in Htp.
  exists stw. eexists.
  split; [rewrite (UpdatePose_eq _ _ _ _ _ Hts); fold st0; rewrite Htp; reflexivity|].
  split; [exact Hcache|]. split; [exact Hvel|].
  split.
  { cbn [fst snd]. rewrite Hnode, Hts0, tick_head_quiet.
    rewrite filter_cons, filter_app, (handler_exceptions_quiet _ Hev). reflexivity. }
  split; [exact Htimes|]. split; [exact Hts0|].
  intros env2 imu_msgs2 images2 latest_ts2 Hts2.
  set (st1 := (CheckLocalizationStatus (poll_future env2) stw).1).
  destruct (track_and_publish_shape env2 imu_msgs2 images2 latest_ts2 st1)
    as (after2 & Hshape & _).
  destruct (CheckLocalizationStatus_frame (poll_future env2) stw) as (Hnode1 & Hts1 & _).
  fold st1 in Hnode1, Hts1.
  change (node stw) with (node st0) in Hnode1.
  change (last_track_ts stw) with (last_track_ts st0) in Hts1.
  rewrite Hnode1, Hts1, Hnode, Hts0 in Hshape.
  eexists _, _, after2.
  split; [apply UpdatePose_eq, Hts2|].
  fold st1. rewrite Hshape. reflexivity.
Qed.

(** ** The covariance of the odometry message *)

Lemma publish_poses_odometry env latest_ts ts_out cv_odom cv_map st msg :
  msg ∈ published_on tracking_odometry_pub_ (publish_poses env latest_ts ts_out cv_odom cv_map st).2 ->
  covariance_as_cached (publish_poses env latest_ts ts_out cv_odom cv_map st).1 msg.
Proof.
  unfold publish_poses. cbn [fst snd].
  rewrite !published_on_app, !published_on_publish_if. cbn [decide decide_rel].
  rewrite (published_on_none _ (if publish_map_to_odom_tf_ _ then _ else _)) by forall_events.
  rewrite (published_on_none _ (if publish_odom_to_base_tf_ _ then _ else _)) by forall_events.
  rewrite (published_on_none _ (if _ && _ then _ else _)) by forall_events.
  repeat match goal with
         | |- context [decide (?a = ?b)] =>
             destruct (decide (a = b)); try discriminate; try contradiction
         end.
  cbn [app]. rewrite app_nil_r.
  destruct (HasSubscribers env tracking_odometry_pub_); intros Hin; elem_cases.
  subst msg. eexists. split; [reflexivity|]. split; reflexivity.
Qed.

Lemma publish_tracked_pose_odometry env latest_ts ts_out st msg :
  msg ∈ published_on tracking_odometry_pub_ (publish_tracked_pose env latest_ts ts_out st).1.2 ->
  covariance_as_cached (publish_tracked_pose env latest_ts ts_out st).1.1 msg.
Proof.
  unfold publish_tracked_pose.
  pose proof (publish_poses_odometry env latest_ts ts_out) as Hposes.
  assert (Hground : forall pose, published_on tracking_odometry_pub_ (PoseToGround env pose).2 = []).
  { intros pose. apply published_on_none. unfold PoseToGround.
    destruct (negb _); [|destruct (negb _)]; cbn [snd]; forall_events. }
  destruct (ground_constraint_handle st);
    [specialize (Hground (track_pose env)); destruct (PoseToGround env (track_pose env)) as [[pose|] ev_ground];
     cbn [snd] in Hground|];
    repeat match goal with
           | |- context [if ?c then _ else _] => destruct c
           | |- context [publish_poses ?a ?b ?c ?d ?e ?f] =>
               let H := fresh in
               pose proof (Hposes d e f msg) as H; destruct (publish_poses a b c d e f);
               cbn [fst snd] in H
           end; cbn [fst snd]; rewrite ?published_on_app, ?Hground; cbn [app];
    try assumption; cbn; intros Hin; elem_cases.
Qed.

Lemma finish_tick_no_odometry env vo_status latest_ts ts_out st :
  published_on tracking_odometry_pub_ (finish_tick env vo_status latest_ts ts_out st).2 = [].
Proof. apply published_on_none. unfold finish_tick; cbn [snd]. forall_events. Qed.

Lemma after_track_odometry env latest_ts st msg :
  msg ∈ published_on tracking_odometry_pub_ (after_track env latest_ts st).2 ->
  covariance_as_cached (after_track env latest_ts st).1 msg.
Proof.
  unfold after_track.
  destruct (bool_decide (track_status env = CUVSLAM_TRACKING_LOST)).
  - pose proof (finish_tick_no_odometry env (track_status env) latest_ts
                  (if override_publishing_stamp_ (node st) then clock_now env else latest_ts)
                  (set_pose_cache (pose_cache_Reset (pose_cache st)) st)) as Hfin.
    destruct (finish_tick _ _ _ _ _) as [st2 ev_end]. cbn [fst snd] in *.
    rewrite !published_on_app, Hfin. cbn. intros Hin. elem_cases.
  - destruct (negb (is_success (track_status env))).
    + cbn. intros Hin. elem_cases.
    + set (ts_out := if override_publishing_stamp_ (node st) then clock_now env else latest_ts).
      pose proof (publish_tracked_pose_odometry env latest_ts ts_out st msg) as Hpub.
      destruct (publish_tracked_pose env latest_ts ts_out st) as [[st1 ev1] []]; cbn [fst snd] in *.
      * pose proof (finish_tick_no_odometry env (track_status env) latest_ts ts_out st1) as Hfin.
        destruct (finish_tick_frame env (track_status env) latest_ts ts_out st1)
          as (_ & Hcache & Hvel & _).
        destruct (finish_tick _ _ _ _ _) as [st2 ev_end]. cbn [fst snd] in *.
        rewrite !published_on_app, Hfin, app_nil_r.
        intros Hin. destruct (Hpub Hin) as (m & -> & Hpose & Htwist).
        exists m. rewrite Hcache, Hvel. auto.
      * exact Hpub.
Qed.

Lemma handler_exceptions_unpublished pub ev :
  Forall is_handler_exception ev -> published_on pub ev = [].
Proof.
  intros Hev. apply published_on_none. eapply Forall_impl; [exact Hev|]. by_event.
Qed.

Lemma track_and_publish_odometry env imu_msgs idx_and_image_msgs latest_ts st msg :
  msg ∈ published_on tracking_odometry_pub_
          (track_and_publish env imu_msgs idx_and_image_msgs latest_ts st).2 ->
  covariance_as_cached (track_and_publish env imu_msgs idx_and_image_msgs latest_ts st).1 msg.
Proof.
  destruct (track_and_publish_eq env imu_msgs idx_and_image_msgs latest_ts st)
    as (localize & save & ev_handlers & _ & Hev & ->). cbn [fst snd].
  assert (Hhead : published_on tracking_odometry_pub_
            (EvLog DEBUG "Using image msg timestamp [%ld]"
               :: jitter_warning (node st) latest_ts (last_track_ts st)) = [])
    by (apply published_on_none; forall_events).
  assert (Himu : published_on tracking_odometry_pub_
            (register_imu_measurements env latest_ts 0 imu_msgs) = []).
  { apply published_on_none.
    eapply Forall_bool_weaken, register_imu_measurements_kinds. by_event. }
  rewrite !published_on_app, Hhead, Himu.
  change (published_on tracking_odometry_pub_ (EvEngine ?c :: ?l))
    with (published_on tracking_odometry_pub_ l).
  rewrite published_on_app, (handler_exceptions_unpublished _ _ Hev).
  apply after_track_odometry.
Qed.

(** C8: the odometry message of a tick carries, in its pose covariance, the
    array filled by the pose cache when the cache reports a valid covariance
    and the 6x6 identity when it reports none; likewise the twist covariance
    with the velocity cache.  The caches are those at the end of the tick. *)
Theorem odometry_covariance_defaults_to_identity env (imu_msgs : list ImuType)
    (idx_and_image_msgs : list (Z * ImageType)) st st' tr msg :
  UpdatePose env imu_msgs idx_and_image_msgs st = Some (st', tr) ->
  EvPublish tracking_odometry_pub_ msg ∈ tr ->
  (exists m,
     msg = MsgOdometry m
     /\ odom_pose_covariance m =
          (let res := pose_cache_GetCovariance (pose_cache st') zero_covariance in
           if res.1 then res.2 else identity_covariance)
     /\ odom_twist_covariance m =
          (let res := velocity_cache_GetCovariance (velocity_cache st') zero_covariance in
           if res.1 then res.2 else identity_covariance))
  /\ length identity_covariance = 36%nat
  /\ forall i j : nat, (i < 6)%nat -> (j < 6)%nat ->
       identity_covariance !! (i * 6 + j)%nat = Some (if Nat.eqb i j then 1%float else 0%float).
Proof.
  intros Hrun Hin. split; [|split; [reflexivity|]].
  - destruct (latest_image_stamp idx_and_image_msgs) as [latest_ts|] eqn:Hts.
    2:{ unfold UpdatePose in Hrun. rewrite Hts in Hrun.
        destruct (CheckLocalizationStatus _ _). discriminate. }
    rewrite (UpdatePose_eq _ _ _ _ _ Hts) in Hrun. injection Hrun as <- <-.
    apply elem_of_published_on in Hin. rewrite published_on_app in Hin.
    rewrite (published_on_none _ (CheckLocalizationStatus _ _).2) in Hin.
    2:{ eapply Forall_bool_weaken, CheckLocalizationStatus_kinds. by_event. }
    apply track_and_publish_odometry in Hin. exact Hin.
  - intros i j Hi Hj.
    do 6 (destruct i as [|i]; [do 6 (destruct j as [|j]; [reflexivity|]); lia|]). lia.
Qed.

(** ** Promises and completion handlers *)

Lemma future_value_insert {R : Type} (p q : nat) (v : option R) (ps : gmap nat (option R)) :
  future_value p (<[q := v]> ps) = if decide (q = p) then v else future_value p ps.
Proof.
  unfold future_value. rewrite lookup_insert.
  destruct (decide (q = p)); [destruct v|]; reflexivity.
Qed.

Lemma set_value_pending {R : Type} (p : nat) (r : R) (ps : gmap nat (option R)) :
  ps !! p = Some None -> set_value p r ps = inr (<[p := Some r]> ps).
Proof. intros Hp. unfold set_value. rewrite Hp. reflexivity. Qed.

(** A handler call leaves the context, the names and the parameters alone. *)
Lemma deliver_frame c st :
  localize_in_exist_db_context (deliver c st).1 = localize_in_exist_db_context st
  /\ next_promise (deliver c st).1 = next_promise st
  /\ node (deliver c st).1 = node st.
Proof.
  destruct c as [context status|status pose]; cbn [deliver];
    unfold SaveToSlamDbResponse, LocalizeInExistDbResponse;
    destruct (set_value _ _ _); cbn; auto.
Qed.

(** A handler call only ever writes the promise of the current context. *)
Lemma deliver_other_promise c st p :
  p <> response_promise (localize_in_exist_db_context st) ->
  localize_promises (deliver c st).1 !! p = localize_promises st !! p.
Proof.
  intros Hp. destruct c as [context status|status pose]; cbn [deliver];
    unfold SaveToSlamDbResponse, LocalizeInExistDbResponse, set_value.
  - destruct (save_promises st !! context) as [[?|]|]; reflexivity.
  - destruct (localize_promises st !! _) as [[?|]|]; cbn; try reflexivity.
    rewrite lookup_insert_ne by congruence. reflexivity.
Qed.

(** A value, once set, stays. *)
Lemma deliver_keeps_value c st p r :
  future_value p (localize_promises st) = Some r ->
  future_value p (localize_promises (deliver c st).1) = Some r.
Proof.
  intros Hr. destruct c as [context status|status pose]; cbn [deliver];
    unfold SaveToSlamDbResponse, LocalizeInExistDbResponse.
  - destruct (set_value _ _ _); exact Hr.
  - unfold set_value.
    destruct (localize_promises st !! _) as [[?|]|] eqn:Hq; cbn; try exact Hr.
    rewrite future_value_insert. destruct (decide _) as [Heq|]; [|exact Hr].
    unfold future_value in Hr. rewrite <- Heq, Hq in Hr. discriminate.
Qed.

Lemma deliver_all_frame cs st :
  localize_in_exist_db_context (deliver_all cs st).1 = localize_in_exist_db_context st
  /\ next_promise (deliver_all cs st).1 = next_promise st
  /\ node (deliver_all cs st).1 = node st.
Proof.
  revert st. induction cs as [|c cs IH]; intros st; cbn [deliver_all]; [auto|].
  destruct (deliver_frame c st) as (Hc & Hn & Hnode).
  destruct (deliver c st) as [st1 ev1]. specialize (IH st1).
  destruct (deliver_all cs st1) as [st2 ev2]. cbn [fst] in *.
  destruct IH as (-> & -> & ->). auto.
Qed.

Lemma deliver_all_other_promise cs st p :
  p <> response_promise (localize_in_exist_db_context st) ->
  localize_promises (deliver_all cs st).1 !! p = localize_promises st !! p.
Proof.
  revert st. induction cs as [|c cs IH]; intros st Hp; cbn [deliver_all]; [reflexivity|].
  pose proof (deliver_other_promise c st p Hp) as Hc.
  destruct (deliver_frame c st) as (Hctx & _).
  destruct (deliver c st) as [st1 ev1]. specialize (IH st1).
  destruct (deliver_all cs st1) as [st2 ev2]. cbn [fst] in *.
  rewrite IH by congruence. exact Hc.
Qed.

Lemma deliver_all_keeps_value cs st p r :
  future_value p (localize_promises st) = Some r ->
  future_value p (localize_promises (deliver_all cs st).1) = Some r.
Proof.
  revert st. induction cs as [|c cs IH]; intros st Hr; cbn [deliver_all]; [exact Hr|].
  pose proof (deliver_keeps_value c st p r Hr) as Hc.
  destruct (deliver c st) as [st1 ev1]. specialize (IH st1).
  destruct (deliver_all cs st1) as [st2 ev2]. cbn [fst] in *. auto.
Qed.

(** While the promise of the context is pending, the first localize
    completion of a run of handler calls decides its value. *)
Lemma deliver_all_pending cs st :
  localize_promises st !! response_promise (localize_in_exist_db_context st) = Some None ->
  future_value (response_promise (localize_in_exist_db_context st))
    (localize_promises (deliver_all cs st).1) =
  (fun c => localize_response c.1 c.2) <$> first_localize_completion cs.
Proof.
  revert st. induction cs as [|c cs IH]; intros st Hp; cbn [deliver_all].
  - cbn [fst]. unfold future_value. rewrite Hp. reflexivity.
  - destruct c as [context status|status pose].
    + specialize (IH (deliver (CompleteSave context status) st).1).
      destruct (deliver_frame (CompleteSave context status) st) as (Hctx & _).
      assert (Hsame : localize_promises (deliver (CompleteSave context status) st).1
                      = localize_promises st).
      { cbn [deliver]. unfold SaveToSlamDbResponse. destruct (set_value _ _ _); reflexivity. }
      destruct (deliver (CompleteSave context status) st) as [st1 ev1]. cbn [fst] in *.
      destruct (deliver_all cs st1) as [st2 ev2]. cbn [fst] in *.
      rewrite Hctx, Hsame in IH. rewrite IH by exact Hp. reflexivity.
    + pose proof (deliver_all_keeps_value cs (deliver (CompleteLocalize status pose) st).1
                    (response_promise (localize_in_exist_db_context st))
                    (localize_response status pose)) as Hkeep.
      destruct (deliver (CompleteLocalize status pose) st) as [st1 ev1] eqn:Hd. cbn [fst] in *.
      destruct (deliver_all cs st1) as [st2 ev2]. cbn [fst] in *.
      unfold first_localize_completion. cbn. apply Hkeep.
      cbn [deliver] in Hd. unfold LocalizeInExistDbResponse in Hd.
      rewrite (set_value_pending _ _ _ Hp) in Hd. injection Hd as <- _. cbn.
      rewrite future_value_insert. destruct (decide _); [reflexivity|contradiction].
Qed.

Lemma fresh_context_pending st :
  localize_promises (fresh_context st) !! next_promise st = Some None.
Proof. unfold fresh_context, new_localize_promise. cbn. apply lookup_insert_eq. Qed.

Lemma LocalizeInExistDbResponse_fresh status pose st :
  LocalizeInExistDbResponse status pose (fresh_context st) =
  (set_localize_promises
     (<[next_promise st := Some (localize_response status pose)]>
        (localize_promises (fresh_context st)))
     (fresh_context st), []).
Proof.
  unfold LocalizeInExistDbResponse.
  change (response_promise (localize_in_exist_db_context (fresh_context st)))
    with (next_promise st).
  rewrite (set_value_pending _ _ _ (fresh_context_pending st)). reflexivity.
Qed.

Lemma has_lmdb_files_false entries :
  no_database_files entries -> has_lmdb_files entries = false.
Proof.
  unfold no_database_files, has_lmdb_files.
  induction 1 as [|entry entries Hentry _ IH]; [reflexivity|].
  cbn [existsb]. rewrite IH, orb_false_r.
  destruct (is_regular_file entry); [|reflexivity]. cbn.
  apply bool_decide_eq_false_2. intros Hext. apply Hentry. auto.
Qed.

(** The three early exits of [CuvslamInternalLocalizeInMapAsync]. *)
Lemma localize_precondition_unmet (env : LocalizeEnv) map_folder_path pose_hint st :
  enable_localization_n_mapping_ (node st) = false
  \/ fs_is_directory env map_folder_path = false
  \/ has_lmdb_files (fs_directory_iterator env map_folder_path) = false ->
  exists text status,
    CuvslamInternalLocalizeInMapAsync env map_folder_path pose_hint st =
      (set_localize_promises
         (<[next_promise st := Some (localize_response status None)]>
            (localize_promises (fresh_context st)))
         (fresh_context st),
       [EvLog ERROR text], next_promise st)
    /\ status = (if enable_localization_n_mapping_ (node st)
                 then CUVSLAM_GENERIC_ERROR else CUVSLAM_SLAM_IS_NOT_INITIALIZED).
Proof.
  intros Hunmet. unfold CuvslamInternalLocalizeInMapAsync, new_localize_promise.
  cbn [fst snd]. fold (new_localize_promise st).
  change (set_localize_in_exist_db_context _ (set_next_promise _ _)) with (fresh_context st).
  change (node (fresh_context st)) with (node st).
  destruct (enable_localization_n_mapping_ (node st)); cbn [negb].
  - destruct (fs_is_directory env map_folder_path); cbn [negb].
    + destruct (has_lmdb_files _); cbn [negb].
      * destruct Hunmet as [|[|]]; discriminate.
      * rewrite LocalizeInExistDbResponse_fresh. eauto.
    + rewrite LocalizeInExistDbResponse_fresh. eauto.
  - rewrite LocalizeInExistDbResponse_fresh. eauto.
Qed.

(** The path of [CuvslamInternalLocalizeInMapAsync] that reaches the engine. *)
Lemma localize_request_issued (env : LocalizeEnv) map_folder_path pose_hint st :
  enable_localization_n_mapping_ (node st) = true ->
  fs_is_directory env map_folder_path = true ->
  has_lmdb_files (fs_directory_iterator env map_folder_path) = true ->
  let issued :=
    set_localize_in_exist_db_context
      {| response_promise := next_promise st; pose_storage := pose_hint |} (fresh_context st) in
  exists tr,
    CuvslamInternalLocalizeInMapAsync env map_folder_path pose_hint st =
      ((deliver_all (localize_completions env) issued).1, tr, next_promise st)
    /\ filter is_engine_event tr =
         EvEngine (CUVSLAM_LocalizeInExistDb map_folder_path pose_hint)
         :: filter is_engine_event (deliver_all (localize_completions env) issued).2.
Proof.
  intros Henabled Hdir Hfiles issued.
  unfold CuvslamInternalLocalizeInMapAsync, new_localize_promise.
  cbn [fst snd].
  change (set_localize_in_exist_db_context _ (set_next_promise _ _)) with (fresh_context st).
  change (node (fresh_context st)) with (node st).
  rewrite Henabled, Hdir, Hfiles. cbn [negb]. fold issued.
  destruct (deliver_all (localize_completions env) issued) as [st3 ev_cb]. cbn [fst snd].
  eexists. split; [reflexivity|].
  cbn [app]. rewrite !filter_cons, !filter_app. cbn.
  destruct (negb (is_success (localize_call_result env))); cbn; rewrite ?app_nil_r; reflexivity.
Qed.

Lemma deliver_all_no_engine_event cs st :
  filter is_engine_event (deliver_all cs st).2 = [].
Proof.
  revert st. induction cs as [|c cs IH]; intros st; cbn [deliver_all]; [reflexivity|].
  assert (Hc : filter is_engine_event (deliver c st).2 = []).
  { destruct c; cbn [deliver]; unfold SaveToSlamDbResponse, LocalizeInExistDbResponse;
      destruct (set_value _ _ _); reflexivity. }
  destruct (deliver c st) as [st1 ev1]. specialize (IH st1).
  destruct (deliver_all cs st1) as [st2 ev2]. cbn [snd] in *.
  rewrite filter_app, Hc, IH. reflexivity.
Qed.

(** ** The maintenance commands *)

(** C3: a command whose precondition is not met fails at once and the engine
    is not called.  [SaveMap] returns [CUVSLAM_SLAM_IS_NOT_INITIALIZED] when
    localization and mapping is disabled; the localize path returns a future
    that already holds a failure when the feature is disabled, when the map
    folder is not a directory, or when the folder has no [.mdb] file. *)
Theorem unmet_precondition_fails_without_engine (map_folder_path : string) st :
  (enable_localization_n_mapping_ (node st) = false ->
   forall env : SaveEnv,
     exists tr,
       SaveMap env map_folder_path st = (st, tr, SaveMapReturns CUVSLAM_SLAM_IS_NOT_INITIALIZED)
       /\ filter is_engine_event tr = [])
  /\ (forall (env : LocalizeEnv) pose_hint,
        enable_localization_n_mapping_ (node st) = false
        \/ fs_is_directory env map_folder_path = false
        \/ no_database_files (fs_directory_iterator env map_folder_path) ->
        exists st' tr response_future response,
          CuvslamInternalLocalizeInMapAsync env map_folder_path pose_hint st
            = (st', tr, response_future)
          /\ filter is_engine_event tr = []
          /\ future_value response_future (localize_promises st') = Some response
          /\ localize_status response =
               (if enable_localization_n_mapping_ (node st)
                then CUVSLAM_GENERIC_ERROR else CUVSLAM_SLAM_IS_NOT_INITIALIZED)
          /\ localize_status response <> CUVSLAM_SUCCESS).
Proof.
  split.
  - intros Hoff env. unfold SaveMap. rewrite Hoff. cbn [negb]. eexists. split; reflexivity.
  - intros env pose_hint Hunmet.
    destruct (localize_precondition_unmet env map_folder_path pose_hint st)
      as (text & status & Hrun & Hstatus).
    { destruct Hunmet as [|[|Hfiles]]; auto using has_lmdb_files_false. }
    eexists _, _, _, (localize_response status None).
    split; [exact Hrun|]. split; [reflexivity|].
    split.
    { cbn [localize_promises set_localize_promises]. rewrite future_value_insert.
      destruct (decide _); [reflexivity|contradiction]. }
    split; [exact Hstatus|].
    cbn. rewrite Hstatus. destruct (enable_localization_n_mapping_ (node st)); discriminate.
Qed.

Lemma deliver_keeps_promise c st p :
  is_Some (localize_promises st !! p) -> is_Some (localize_promises (deliver c st).1 !! p).
Proof.
  intros Hp. destruct c as [context status|status pose]; cbn [deliver];
    unfold SaveToSlamDbResponse, LocalizeInExistDbResponse, set_value.
  - destruct (save_promises st !! context) as [[?|]|]; exact Hp.
  - destruct (localize_promises st !! response_promise (localize_in_exist_db_context st))
      as [[?|]|]; cbn; try exact Hp.
    rewrite lookup_insert. destruct (decide _); [eauto|exact Hp].
Qed.

Lemma deliver_all_keeps_promise cs st p :
  is_Some (localize_promises st !! p) -> is_Some (localize_promises (deliver_all cs st).1 !! p).
Proof.
  revert st. induction cs as [|c cs IH]; intros st Hp; cbn [deliver_all]; [exact Hp|].
  pose proof (deliver_keeps_promise c st p Hp) as Hc.
  destruct (deliver c st) as [st1 ev1]. specialize (IH st1).
  destruct (deliver_all cs st1) as [st2 ev2]. cbn [fst] in *. auto.
Qed.

(** After [CuvslamInternalLocalizeInMapAsync] the context holds the promise
    of the returned future, a name not used before the call. *)
Lemma localize_returns_context_promise (env : LocalizeEnv) (map_folder_path : string)
    pose_hint st :
  let r := CuvslamInternalLocalizeInMapAsync env map_folder_path pose_hint st in
  r.2 = next_promise st
  /\ response_promise (localize_in_exist_db_context r.1.1) = next_promise st
  /\ next_promise r.1.1 = S (next_promise st)
  /\ node r.1.1 = node st
  /\ is_Some (localize_promises r.1.1 !! next_promise st)
  /\ forall q, q <> next_promise st -> localize_promises r.1.1 !! q = localize_promises st !! q.
Proof.
  cbn zeta.
  destruct (enable_localization_n_mapping_ (node st)) eqn:Henabled;
    [destruct (fs_is_directory env map_folder_path) eqn:Hdir;
     [destruct (has_lmdb_files (fs_directory_iterator env map_folder_path)) eqn:Hfiles|]|].
  1:{ destruct (localize_request_issued env map_folder_path pose_hint st Henabled Hdir Hfiles)
        as (tr & -> & _). cbn [fst snd].
      set (issued := set_localize_in_exist_db_context _ (fresh_context st)).
      destruct (deliver_all_frame (localize_completions env) issued) as (-> & -> & ->).
      repeat split.
      - apply deliver_all_keeps_promise. rewrite fresh_context_pending. eauto.
      - intros q Hq. rewrite deliver_all_other_promise by exact Hq.
        cbn. apply lookup_insert_ne. congruence. }
  all: destruct (localize_precondition_unmet env map_folder_path pose_hint st)
         as (text & status & -> & _); [auto|]; cbn [fst snd];
       repeat split;
       [ cbn; rewrite lookup_insert_eq; eauto
       | intros q Hq; cbn; rewrite !lookup_insert_ne by congruence; reflexivity ].
Qed.

Lemma Exit_promises st :
  let p := response_promise (localize_in_exist_db_context st) in
  match localize_promises st !! p with
  | Some None =>
      localize_promises (Exit st).1 = <[p := Some canonical_failure]> (localize_promises st)
  | _ => localize_promises (Exit st).1 = localize_promises st
  end
  /\ save_promises (Exit st).1 = save_promises st
  /\ filter is_uncaught (Exit st).2 = [].
Proof.
  unfold Exit, set_value.
  destruct (cuvslam_handle st); cbn; destruct (ground_constraint_handle st); cbn;
    destruct (localize_promises st !! _) as [[?|]|]; cbn; auto.
Qed.

(** C1, as the code has it: when the engine's initiating call returns a
    status other than success, [SaveMap] returns that status without waiting
    on its future.  The localize path returns its future without waiting and
    does not resolve it itself: at the moment of return the future holds a
    value exactly when the engine has called the completion handler before
    the initiating call returned, and then it holds what the first such call
    delivered.  Otherwise the future is pending and the context of the object
    names its promise: a call of the completion handler on the object as it
    is at return gives the future the handler's result, and [Exit] gives it
    the canonical failure. *)
Theorem engine_failure_on_initiating_call (map_folder_path : string) st :
  enable_localization_n_mapping_ (node st) = true ->
  (forall env : SaveEnv,
     save_call_result env <> CUVSLAM_SUCCESS ->
     exists st' tr,
       SaveMap env map_folder_path st = (st', tr, SaveMapReturns (save_call_result env)))
  /\ (forall (env : LocalizeEnv) pose_hint,
        fs_is_directory env map_folder_path = true ->
        has_lmdb_files (fs_directory_iterator env map_folder_path) = true ->
        localize_call_result env <> CUVSLAM_SUCCESS ->
        exists st' tr response_future,
          CuvslamInternalLocalizeInMapAsync env map_folder_path pose_hint st
            = (st', tr, response_future)
          /\ future_value response_future (localize_promises st') =
               (fun c => localize_response c.1 c.2)
                 <$> first_localize_completion (localize_completions env)
          /\ (first_localize_completion (localize_completions env) = None ->
              response_promise (localize_in_exist_db_context st') = response_future
              /\ (forall status pose,
                    future_value response_future
                      (localize_promises (deliver (CompleteLocalize status pose) st').1)
                    = Some (localize_response status pose))
              /\ future_value response_future (localize_promises (Exit st').1)
                 = Some canonical_failure)).
Proof.
  intros Henabled. split.
  - intros env Hfail. unfold SaveMap. rewrite Henabled. cbn [negb].
    destruct (new_save_promise st) as [context st1].
    destruct (deliver_all (save_completions env) st1) as [st2 ev_cb].
    unfold is_success. rewrite (bool_decide_eq_false_2 _ Hfail). cbn [negb]. eauto.
  - intros env pose_hint Hdir Hfiles _.
    pose proof (localize_returns_context_promise env map_folder_path pose_hint st) as Hwf.
    cbn zeta in Hwf.
    destruct (localize_request_issued env map_folder_path pose_hint st Henabled Hdir Hfiles)
      as (tr & Hrun & _).
    rewrite Hrun in Hwf. cbn [fst snd] in Hwf.
    destruct Hwf as (_ & Hcontext & _ & _ & [state Hstate] & _).
    eexists _, _, _. split; [exact Hrun|].
    assert (Hvalue : future_value (next_promise st)
                       (localize_promises
                          (deliver_all (localize_completions env)
                             (set_localize_in_exist_db_context
                                {| response_promise := next_promise st;
                                   pose_storage := pose_hint |}
                                (fresh_context st))).1) =
                     (fun c => localize_response c.1 c.2)
                       <$> first_localize_completion (localize_completions env)).
    { apply (deliver_all_pending (localize_completions env)
               (set_localize_in_exist_db_context
                  {| response_promise := next_promise st; pose_storage := pose_hint |}
                  (fresh_context st))).
      apply fresh_context_pending. }
    split; [exact Hvalue|].
    intros Hnone. rewrite Hnone in Hvalue. cbn [fmap option_fmap option_map] in Hvalue.
    unfold future_value in Hvalue. rewrite Hstate in Hvalue.
    destruct state as [response|]; [discriminate|].
    split; [exact Hcontext|]. split.
    + intros status pose. cbn [deliver]. unfold LocalizeInExistDbResponse.
      rewrite Hcontext, (set_value_pending _ _ _ Hstate). cbn [fst localize_promises
        set_localize_promises].
      rewrite future_value_insert. destruct (decide _); [reflexivity|contradiction].
    + match goal with
      | |- context [Exit ?s] => destruct (Exit_promises s) as (Hexit & _)
      end.
      cbn zeta in Hexit. rewrite Hcontext, Hstate in Hexit. rewrite Hexit.
      rewrite future_value_insert. destruct (decide _); [reflexivity|contradiction].
Qed.

(** C2, as the code has it: [Exit] sets the promise of the current localize
    context to the canonical failure [CUVSLAM_CAN_NOT_LOCALIZE] when it has no
    value yet, and changes nothing when it has one (the exception of
    [set_value] is caught).  So the future returned by the latest call of the
    localize path is ready after [Exit]. *)
Theorem exit_resolves_pending_localization st :
  let p := response_promise (localize_in_exist_db_context st) in
  match localize_promises st !! p with
  | Some None =>
      localize_promises (Exit st).1 = <[p := Some canonical_failure]> (localize_promises st)
  | _ => localize_promises (Exit st).1 = localize_promises st
  end
  /\ filter is_uncaught (Exit st).2 = []
  /\ forall (env : LocalizeEnv) (map_folder_path : string) pose_hint,
       let r := CuvslamInternalLocalizeInMapAsync env map_folder_path pose_hint st in
       exists response,
         future_value r.2 (localize_promises (Exit r.1.1).1) = Some response
         /\ (future_value r.2 (localize_promises r.1.1) = None -> response = canonical_failure).
Proof.
  destruct (Exit_promises st) as (Hpromise & _ & Hquiet).
  split; [exact Hpromise|]. split; [exact Hquiet|].
  intros env map_folder_path pose_hint. cbn zeta.
  pose proof (localize_returns_context_promise env map_folder_path pose_hint st) as Hwf.
  cbn zeta in Hwf.
  destruct (CuvslamInternalLocalizeInMapAsync env map_folder_path pose_hint st)
    as [[st1 tr1] response_future].
  cbn [fst snd] in *. destruct Hwf as (-> & Hcontext & _ & _ & [state Hstate] & _).
  destruct (Exit_promises st1) as (Hexit & _). cbn zeta in Hexit.
  rewrite Hcontext, Hstate in Hexit. unfold future_value at 2. rewrite Hstate.
  destruct state as [response|]; rewrite Hexit.
  - exists response. unfold future_value. rewrite Hstate. split; [reflexivity|discriminate].
  - exists canonical_failure. rewrite future_value_insert.
    destruct (decide _); [auto|contradiction].
Qed.

(** C4: every call of [CuvslamInternalLocalizeInMapAsync] puts a new promise
    into the one shared context before anything else, so a second call made
    while the first is pending is served like the first (the engine is
    called, a future is returned) and from then on the context names the
    second promise only: a completion that arrives afterwards, also one meant
    for the first request, sets the second promise and leaves the first as it
    was. *)
Theorem second_localize_supersedes_first (env1 env2 : LocalizeEnv)
    (path1 path2 : string) hint1 hint2 st :
  enable_localization_n_mapping_ (node st) = true ->
  fs_is_directory env2 path2 = true ->
  has_lmdb_files (fs_directory_iterator env2 path2) = true ->
  let r1 := CuvslamInternalLocalizeInMapAsync env1 path1 hint1 st in
  let r2 := CuvslamInternalLocalizeInMapAsync env2 path2 hint2 r1.1.1 in
  r2.2 = S r1.2
  /\ response_promise (localize_in_exist_db_context r2.1.1) = r2.2
  /\ localize_promises r2.1.1 !! r1.2 = localize_promises r1.1.1 !! r1.2
  /\ filter is_engine_event r2.1.2 = [EvEngine (CUVSLAM_LocalizeInExistDb path2 hint2)]
  /\ forall status pose,
       let st3 := (deliver (CompleteLocalize status pose) r2.1.1).1 in
       localize_promises st3 !! r1.2 = localize_promises r1.1.1 !! r1.2
       /\ is_Some (future_value r2.2 (localize_promises st3)).
Proof.
  intros Henabled Hdir Hfiles. cbn zeta.
  pose proof (localize_returns_context_promise env1 path1 hint1 st) as Hwf1. cbn zeta in Hwf1.
  destruct (CuvslamInternalLocalizeInMapAsync env1 path1 hint1 st) as [[st1 tr1] f1].
  cbn [fst snd] in *. destruct Hwf1 as (-> & _ & Hnext1 & Hnode1 & _ & _).
  pose proof (localize_returns_context_promise env2 path2 hint2 st1) as Hwf2. cbn zeta in Hwf2.
  rewrite <- Hnode1 in Henabled.
  destruct (localize_request_issued env2 path2 hint2 st1 Henabled Hdir Hfiles)
    as (tr & Hrun & Hcalls).
  destruct (CuvslamInternalLocalizeInMapAsync env2 path2 hint2 st1) as [[st2 tr2] f2].
  cbn [fst snd] in *. destruct Hwf2 as (-> & Hctx2 & _ & _ & [state Hstate] & Hother).
  rewrite Hnext1 in Hctx2, Hstate, Hother |- *.
  assert (Hne : next_promise st <> S (next_promise st)) by lia.
  split; [reflexivity|]. split; [exact Hctx2|].
  split; [apply Hother, Hne|].
  split.
  { injection Hrun as _ ->. rewrite Hcalls, deliver_all_no_engine_event. reflexivity. }
  intros status pose. split.
  - rewrite deliver_other_promise by congruence. apply Hother, Hne.
  - cbn [deliver]. unfold LocalizeInExistDbResponse, set_value.
    rewrite Hctx2, Hstate. destruct state as [response|]; cbn.
    + unfold future_value. rewrite Hstate. eauto.
    + rewrite future_value_insert. destruct (decide _); [eauto|contradiction].
Qed.

Lemma Initialize_marks_entry (env : InitEnv) st :
  exists rest, (Initialize env st).2 = EvInitialize :: rest.
Proof.
  unfold Initialize. destruct (IsInitialized st); [eauto|].
  destruct (enable_ground_constraint_in_odometry_ (node st)); cbn [andb].
  - destruct (negb (is_success (ground_constraint_create_status env))); [cbn; eauto|].
    destruct (camera_rig _ _) as [[a|base_frame] ev_rig]; [cbn; eauto|].
    destruct (imu_extrinsics _ _ _) as [[a|] ev_imu]; [cbn; eauto|].
    destruct (negb (is_success (create_tracker_status env))); cbn; eauto.
  - destruct (camera_rig _ _) as [[a|base_frame] ev_rig]; [cbn; eauto|].
    destruct (imu_extrinsics _ _ _) as [[a|] ev_imu]; [cbn; eauto|].
    destruct (negb (is_success (create_tracker_status env))); cbn; eauto.
Qed.

(** C9, as the code has it: before the engine exists a camera frame is
    dropped without reaching the synchronizer and an inertial sample is not
    handed to the sequencer but kept as the one initial sample, replacing the
    previous one.  Initialization is attempted by the camera-info callback,
    exactly when, with the message just stored, there is one camera-info
    message per configured camera and, if IMU fusion is enabled, an IMU
    message has arrived. *)
Theorem initialization_attempted_on_camera_info st :
  IsInitialized st = false ->
  (forall groups index image_view, CallbackImage groups index image_view st = (st, []))
  /\ (forall batches msg,
        CallbackImu batches msg st = (set_initial_imu_message (Some msg) st, []))
  /\ (forall (env : InitEnv) index msg,
        EvInitialize ∈ (CallbackCameraInfo env index msg st).2 <->
        Z.of_nat (size (<[index := msg]> (initial_camera_info_messages st)))
          = num_cameras_ (node st)
        /\ (enable_imu_fusion_ (node st) = true -> is_Some (initial_imu_message st))).
Proof.
  intros Hinit. split; [|split].
  - intros groups index image_view. unfold CallbackImage. rewrite Hinit. reflexivity.
  - intros batches msg. unfold CallbackImu. rewrite Hinit. reflexivity.
  - intros env index msg. unfold CallbackCameraInfo. rewrite Hinit. cbn [negb].
    unfold IsReadyForInitialization. cbn [node initial_imu_message initial_camera_info_messages
      set_initial_camera_info_messages].
    destruct (enable_imu_fusion_ (node st)); cbn [andb].
    + destruct (initial_imu_message st) as [imu|] eqn:Himu.
      * rewrite bool_decide_eq_true_2 by eauto. cbn [negb].
        destruct (Z.eqb_spec (Z.of_nat (size (<[index:=msg]> (initial_camera_info_messages st))))
                    (num_cameras_ (node st))) as [Hsize|Hsize].
        -- split; [eauto|]. intros _.
           destruct (Initialize_marks_entry env
                       (set_initial_camera_info_messages
                          (<[index:=msg]> (initial_camera_info_messages st)) st)) as [rest ->].
           apply list_elem_of_here.
        -- cbn [snd]. split; [intros Hin; elem_cases|tauto].
      * rewrite bool_decide_eq_false_2 by (intros [? ?]; discriminate). cbn [negb snd].
        split; [intros Hin; elem_cases|].
        intros [_ Himu']. destruct (Himu' eq_refl). discriminate.
    + destruct (Z.eqb_spec (Z.of_nat (size (<[index:=msg]> (initial_camera_info_messages st))))
                  (num_cameras_ (node st))) as [Hsize|Hsize].
      * split; [intros _; split; [exact Hsize|discriminate]|]. intros _.
        destruct (Initialize_marks_entry env
                    (set_initial_camera_info_messages
                       (<[index:=msg]> (initial_camera_info_messages st)) st)) as [rest ->].
        apply list_elem_of_here.
      * cbn [snd]. split; [intros Hin; elem_cases|tauto].
Qed.

End Properties.

(** * The properties on concrete runs *)

Section Runs.

Import StandIn.

#[local] Existing Instance StandIn.collaborators.

(** C1, as stated, fails: the map folder is in order, the engine refuses the
    request ([CUVSLAM_GENERIC_ERROR]) without calling the handler, and the
    future that is returned holds no value. *)
Lemma refused_localize_request_stays_pending :
  let env := localize_env CUVSLAM_GENERIC_ERROR [] in
  let r := CuvslamInternalLocalizeInMapAsync env "/maps/lab" 0 running in
  localize_call_result env <> CUVSLAM_SUCCESS
  /\ filter is_engine_event r.1.2 = [EvEngine (CUVSLAM_LocalizeInExistDb "/maps/lab" 0)]
  /\ future_value r.2 (localize_promises r.1.1) = None.
Proof. cbn zeta. split; [discriminate|]. split; vm_compute; reflexivity. Qed.

Lemma engine_failure_on_initiating_call_witness :
  enable_localization_n_mapping_ (node running) = true
  /\ (exists st' tr,
        SaveMap (save_env CUVSLAM_GENERIC_ERROR []) "/maps/lab" running
          = (st', tr, SaveMapReturns CUVSLAM_GENERIC_ERROR))
  /\ (exists st' tr response_future,
        CuvslamInternalLocalizeInMapAsync
          (localize_env CUVSLAM_GENERIC_ERROR [CompleteLocalize CUVSLAM_CAN_NOT_LOCALIZE None])
          "/maps/lab" 0 running = (st', tr, response_future)
        /\ future_value response_future (localize_promises st')
           = Some (localize_response CUVSLAM_CAN_NOT_LOCALIZE None))
  /\ (exists st' tr response_future,
        CuvslamInternalLocalizeInMapAsync (localize_env CUVSLAM_GENERIC_ERROR [])
          "/maps/lab" 0 running = (st', tr, response_future)
        /\ future_value response_future (localize_promises st') = None
        /\ future_value response_future
             (localize_promises (deliver (CompleteLocalize CUVSLAM_GENERIC_ERROR None) st').1)
           = Some (localize_response CUVSLAM_GENERIC_ERROR None)
        /\ future_value response_future (localize_promises (Exit st').1)
           = Some canonical_failure).
Proof.
  destruct (engine_failure_on_initiating_call "/maps/lab" running eq_refl) as [Hsave Hlocalize].
  split; [reflexivity|]. split; [|split].
  - apply (Hsave (save_env CUVSLAM_GENERIC_ERROR [])). discriminate.
  - destruct (Hlocalize
                (localize_env CUVSLAM_GENERIC_ERROR
                   [CompleteLocalize CUVSLAM_CAN_NOT_LOCALIZE None])
                0 eq_refl eq_refl ltac:(discriminate))
      as (st' & tr & response_future & Hrun & Hvalue & _).
    exists st', tr, response_future. split; [exact Hrun|exact Hvalue].
  - destruct (Hlocalize (localize_env CUVSLAM_GENERIC_ERROR []) 0 eq_refl eq_refl
                ltac:(discriminate))
      as (st' & tr & response_future & Hrun & Hvalue & Hlater).
    destruct (Hlater eq_refl) as (_ & Hhandler & Hexit).
    exists st', tr, response_future.
    split; [exact Hrun|]. split; [exact Hvalue|]. split; [apply Hhandler|exact Hexit].
Defined.

(** C2, as stated, fails: a caller suspended in [SaveMap] (the engine accepted
    the request and has not completed it) is still suspended after [Exit]. *)
Lemma save_map_caller_stays_blocked_after_exit :
  let r := SaveMap (save_env CUVSLAM_SUCCESS []) "/maps/lab" running in
  r.2 = SaveMapBlocks 1
  /\ future_value 1 (save_promises (Exit r.1.1).1) = None
  /\ SaveMap_resume 1 (Exit r.1.1).1 = None.
Proof. cbn zeta. repeat split; vm_compute; reflexivity. Qed.

Lemma unmet_precondition_fails_without_engine_witness :
  enable_localization_n_mapping_ (node running_without_mapping) = false
  /\ no_database_files (fs_directory_iterator empty_folder "/maps/lab")
  /\ (exists tr,
        SaveMap (save_env CUVSLAM_SUCCESS []) "/maps/lab" running_without_mapping
          = (running_without_mapping, tr, SaveMapReturns CUVSLAM_SLAM_IS_NOT_INITIALIZED)
        /\ filter is_engine_event tr = [])
  /\ (exists st' tr response_future response,
        CuvslamInternalLocalizeInMapAsync empty_folder "/maps/lab" 0 running
          = (st', tr, response_future)
        /\ filter is_engine_event tr = []
        /\ future_value response_future (localize_promises st') = Some response
        /\ localize_status response = CUVSLAM_GENERIC_ERROR).
Proof.
  assert (Hfiles : no_database_files (fs_directory_iterator empty_folder "/maps/lab")).
  { repeat constructor. intros [_ Hext]. discriminate. }
  split; [reflexivity|]. split; [exact Hfiles|]. split.
  - destruct (unmet_precondition_fails_without_engine "/maps/lab" running_without_mapping)
      as [Hsave _].
    apply (Hsave eq_refl).
  - destruct (unmet_precondition_fails_without_engine "/maps/lab" running) as [_ Hlocalize].
    destruct (Hlocalize empty_folder 0 (or_intror (or_intror Hfiles)))
      as (st' & tr & response_future & response & Hrun & Hquiet & Hvalue & Hstatus & _).
    exists st', tr, response_future, response. auto.
Defined.

Lemma second_localize_supersedes_first_witness :
  enable_localization_n_mapping_ (node running) = true
  /\ fs_is_directory (localize_env CUVSLAM_SUCCESS []) "/maps/lab" = true
  /\ has_lmdb_files (fs_directory_iterator (localize_env CUVSLAM_SUCCESS []) "/maps/lab") = true
  /\ let r1 := CuvslamInternalLocalizeInMapAsync (localize_env CUVSLAM_SUCCESS [])
                 "/maps/hall" 0 running in
     let r2 := CuvslamInternalLocalizeInMapAsync (localize_env CUVSLAM_SUCCESS [])
                 "/maps/lab" 5 r1.1.1 in
     r2.2 = S r1.2
     /\ filter is_engine_event r2.1.2 = [EvEngine (CUVSLAM_LocalizeInExistDb "/maps/lab" 5)].
Proof.
  split; [reflexivity|]. split; [reflexivity|]. split; [reflexivity|].
  destruct (second_localize_supersedes_first
              (localize_env CUVSLAM_SUCCESS []) (localize_env CUVSLAM_SUCCESS [])
              "/maps/hall" "/maps/lab" 0 5 running eq_refl eq_refl eq_refl)
    as (Hfresh & _ & _ & Hcall & _).
  split; [exact Hfresh|exact Hcall].
Defined.

Lemma localization_poll_is_nonblocking_witness :
  stereo 100 <> []
  /\ exists st' tr,
       UpdatePose (tick CUVSLAM_SUCCESS 5 (ready_with 9)) [imu 90; imu 95] (stereo 100)
         (set_localization_future_ (Some 4%nat) running) = Some (st', tr)
       /\ localization_future_ st' = None
       /\ forall f seconds, EvFutureWaitFor f seconds ∈ tr -> seconds = 0.
Proof.
  split; [discriminate|].
  destruct (localization_poll_is_nonblocking (tick CUVSLAM_SUCCESS 5 (ready_with 9))
              [imu 90; imu 95] (stereo 100) (set_localization_future_ (Some 4%nat) running))
    as (st' & tr & check & rest & Hrun & _ & _ & _ & _ & Hzero & Hslot); [discriminate|].
  exists st', tr. split; [exact Hrun|]. split; [|exact Hzero].
  cbn in Hslot. destruct Hslot as [Hslot _]. exact Hslot.
Defined.

Lemma tracking_lost_tick_completes_witness :
  stereo 100 <> []
  /\ track_status (tick CUVSLAM_TRACKING_LOST 5 never_ready) = CUVSLAM_TRACKING_LOST
  /\ exists st' tr,
       UpdatePose (tick CUVSLAM_TRACKING_LOST 5 never_ready) [imu 90] (stereo 100) running
         = Some (st', tr)
       /\ pose_cache st' = []
       /\ last_track_ts st' = 100.
Proof.
  split; [discriminate|]. split; [reflexivity|].
  destruct (tracking_lost_tick_completes (tick CUVSLAM_TRACKING_LOST 5 never_ready)
              [imu 90] (stereo 100) running)
    as (st' & tr & latest_ts & status_msg & diagnostics & Hrun & Hts & Hcache & _ & _ & _ & _
        & _ & Hlast); [discriminate|reflexivity|].
  exists st', tr. split; [exact Hrun|]. split; [exact Hcache|].
  rewrite Hlast. injection Hts as <-. reflexivity.
Defined.

Lemma imu_registered_before_single_track_witness :
  stereo 100 <> []
  /\ exists st' tr before after,
       UpdatePose (tick CUVSLAM_SUCCESS 5 never_ready) [imu 90; imu 95] (stereo 100) running
         = Some (st', tr)
       /\ tr = before
               ++ EvEngine (CUVSLAM_TrackGpuMem (convert_images 2 100 (stereo 100))) :: after
       /\ filter is_register_imu before =
            [EvEngine (CUVSLAM_RegisterImuMeasurement 100 (TocuVSLAMImuMeasurement (imu 90)));
             EvEngine (CUVSLAM_RegisterImuMeasurement 100 (TocuVSLAMImuMeasurement (imu 95)))]
       /\ filter is_track before = []
       /\ filter is_register_imu after = []
       /\ filter is_track after = [].
Proof.
  split; [discriminate|].
  destruct (imu_registered_before_single_track (tick CUVSLAM_SUCCESS 5 never_ready)
              [imu 90; imu 95] (stereo 100) running)
    as (st' & tr & latest_ts & before & after & Hrun & Hts & Htr & Himu & Hrest);
    [discriminate|].
  injection Hts as <-.
  exists st', tr, before, after. split; [exact Hrun|]. split; [exact Htr|].
  split; [exact Himu|exact Hrest].
Defined.

Lemma tracker_error_returns_early_witness :
  stereo 100 <> []
  /\ track_status (tick CUVSLAM_GENERIC_ERROR 5 never_ready) <> CUVSLAM_SUCCESS
  /\ track_status (tick CUVSLAM_GENERIC_ERROR 5 never_ready) <> CUVSLAM_TRACKING_LOST
  /\ exists st' tr,
       UpdatePose (tick CUVSLAM_GENERIC_ERROR 5 never_ready) [imu 90] (stereo 100)
         (set_last_track_ts 60 running) = Some (st', tr)
       /\ filter is_publication tr = []
       /\ last_track_ts st' = 60.
Proof.
  split; [discriminate|]. split; [discriminate|]. split; [discriminate|].
  destruct (tracker_error_returns_early (tick CUVSLAM_GENERIC_ERROR 5 never_ready)
              [imu 90] (stereo 100) (set_last_track_ts 60 running))
    as (st' & tr & Hrun & _ & _ & Hquiet & _ & Hlast & _);
    [discriminate|discriminate|discriminate|].
  exists st', tr. auto.
Defined.

Lemma odometry_covariance_defaults_to_identity_witness :
  exists st' tr m,
    UpdatePose (tick CUVSLAM_SUCCESS 5 never_ready) [imu 90] (stereo 100) running = Some (st', tr)
    /\ EvPublish tracking_odometry_pub_ (MsgOdometry m) ∈ tr
    /\ (pose_cache_GetCovariance (pose_cache st') zero_covariance).1 = false
    /\ odom_pose_covariance m = identity_covariance.
Proof.
  destruct (UpdatePose_runs (tick CUVSLAM_SUCCESS 5 never_ready) [imu 90] (stereo 100) running)
    as (st' & tr & Hrun); [discriminate|].
  set (run := default (running, [])
                (UpdatePose (tick CUVSLAM_SUCCESS 5 never_ready) [imu 90] (stereo 100) running)).
  assert (Hst : st' = run.1) by (subst run; rewrite Hrun; reflexivity).
  assert (Htr : tr = run.2) by (subst run; rewrite Hrun; reflexivity).
  destruct (published_on tracking_odometry_pub_ run.2) as [|msg rest] eqn:Hpub;
    [vm_compute in Hpub; discriminate|].
  assert (Hin : EvPublish tracking_odometry_pub_ msg ∈ tr).
  { apply elem_of_published_on. rewrite Htr, Hpub. apply list_elem_of_here. }
  destruct (odometry_covariance_defaults_to_identity _ _ _ _ _ _ _ Hrun Hin)
    as ((m & Hm & Hpose & _) & _).
  subst msg. exists st', tr, m.
  assert (Hflag : (pose_cache_GetCovariance (pose_cache st') zero_covariance).1 = false)
    by (rewrite Hst; vm_compute; reflexivity).
  split; [exact Hrun|]. split; [exact Hin|]. split; [exact Hflag|].
  rewrite Hpose. cbn zeta. rewrite Hflag. reflexivity.
Defined.

(** C9, as stated, fails: with IMU fusion enabled and two cameras, the two
    camera-info messages arrive first and the IMU message last.  When the IMU
    message has arrived everything needed is there, yet no initialization has
    been attempted; it is attempted by the next camera-info message. *)
Lemma imu_message_arriving_last_does_not_initialize :
  let arrivals :=
    [OnCameraInfo init_ok 0 (camera_info 10); OnCameraInfo init_ok 1 (camera_info 10);
     OnImu [] (imu 12)] in
  let r := run_ingress arrivals constructed in
  IsReadyForInitialization r.1 = true
  /\ IsInitialized r.1 = false
  /\ filter is_initialize r.2 = []
  /\ filter is_initialize (CallbackCameraInfo init_ok 0 (camera_info 20) r.1).2 = [EvInitialize].
Proof. cbn zeta. repeat split; vm_compute; reflexivity. Qed.

Lemma initialization_attempted_on_camera_info_witness :
  let st := set_initial_imu_message (Some (imu 12))
              (set_initial_camera_info_messages {[ 0 := camera_info 10 ]} constructed) in
  IsInitialized st = false
  /\ CallbackImage [] 0 (image 100 1) st = (st, [])
  /\ initial_imu_message (CallbackImu [] (imu 14) st).1 = Some (imu 14)
  /\ EvInitialize ∈ (CallbackCameraInfo init_ok 1 (camera_info 10) st).2.
Proof.
  cbn zeta.
  destruct (initialization_attempted_on_camera_info
              (set_initial_imu_message (Some (imu 12))
                 (set_initial_camera_info_messages {[ 0 := camera_info 10 ]} constructed))
              eq_refl) as (Himage & Himu & Hinit).
  split; [reflexivity|]. split; [apply Himage|]. split; [rewrite Himu; reflexivity|].
  apply Hinit. split; [vm_compute; reflexivity|]. intros _. eexists. reflexivity.
Defined.

(** Two ticks in a row: the second finds two samples in the pose cache, the
    covariance is valid and the message carries it. *)
Example second_tick_publishes_cached_covariance :
  forall st1 tr1 st2 tr2,
    UpdatePose (tick CUVSLAM_SUCCESS 5 never_ready) [imu 90] (stereo 100) running
      = Some (st1, tr1) ->
    UpdatePose (tick CUVSLAM_SUCCESS 8 never_ready) [imu 110] (stereo 120) st1
      = Some (st2, tr2) ->
    (odom_pose_covariance <$>
       (head (published_on tracking_odometry_pub_ tr2) ≫= fun msg =>
          match msg with MsgOdometry m => Some m | _ => None end))
    = Some (map (PrimFloat.mul 2) identity_covariance).
Proof.
  intros st1 tr1 st2 tr2 Hrun1 Hrun2.
  assert (Hst1 : st1 = (default (running, [])
                          (UpdatePose (tick CUVSLAM_SUCCESS 5 never_ready) [imu 90] (stereo 100)
                             running)).1) by (rewrite Hrun1; reflexivity).
  subst st1.
  assert (Htr2 : tr2 = (default (running, []) (Some (st2, tr2))).2) by reflexivity.
  rewrite Htr2, <- Hrun2. vm_compute. reflexivity.
Qed.

End Runs.

(** * Properties of the rest of the implementation *)

Section MoreProperties.

Context `{Collab : Collaborators}.

Implicit Types (st : VisualSlamImpl) (tr : list Event) (env : TickEnv).

(** ** The images of a batch *)

Lemma fold_max_stamp (rest : list (Z * ImageType)) (start : Z) :
  let best :=
    fold_left (fun best msg => if best <? image_stamp msg.2 then image_stamp msg.2 else best)
      rest start in
  start <= best
  /\ Forall (fun msg => image_stamp msg.2 <= best) rest
  /\ (best = start \/ exists msg, msg ∈ rest /\ image_stamp msg.2 = best).
Proof.
  revert start. induction rest as [|msg rest IH]; intros start; cbn.
  - split; [lia|]. split; [constructor|]. left. reflexivity.
  - specialize (IH (if start <? image_stamp msg.2 then image_stamp msg.2 else start)).
    cbn zeta in IH. destruct IH as (Hge & Hall & Hin).
    destruct (Z.ltb_spec start (image_stamp msg.2)) as [Hlt|Hle].
    + split; [lia|]. split; [constructor; [exact Hge|exact Hall]|].
      right. destruct Hin as [->|(m & Hm & Hbest)].
      * exists msg. split; [apply list_elem_of_here|reflexivity].
      * exists m. split; [apply list_elem_of_further, Hm|exact Hbest].
    + split; [lia|]. split; [constructor; [lia|exact Hall]|].
      destruct Hin as [->|(m & Hm & Hbest)]; [left; reflexivity|].
      right. exists m. split; [apply list_elem_of_further, Hm|exact Hbest].
Qed.

(** X1: the stamp a tick works with is the largest stamp among the images
    of the batch: it is the stamp of one of them and no image is later. *)
Theorem latest_image_stamp_is_maximum (idx_and_image_msgs : list (Z * ImageType)) latest_ts :
  latest_image_stamp idx_and_image_msgs = Some latest_ts ->
  (exists msg, msg ∈ idx_and_image_msgs /\ image_stamp msg.2 = latest_ts)
  /\ Forall (fun msg => image_stamp msg.2 <= latest_ts) idx_and_image_msgs.
Proof.
  destruct idx_and_image_msgs as [|m rest]; [discriminate|].
  cbn. intros [= <-].
  destruct (fold_max_stamp rest (image_stamp m.2)) as (Hge & Hall & Hin). cbn zeta in *.
  split.
  - destruct Hin as [->|(msg & Hmsg & Hbest)].
    + exists m. split; [apply list_elem_of_here|reflexivity].
    + exists msg. split; [apply list_elem_of_further, Hmsg|exact Hbest].
  - constructor; [exact Hge|exact Hall].
Qed.

Lemma extract_masks_lookup (num_cameras idx : Z) (idx_and_image_msgs : list (Z * ImageType))
    (start : gmap Z ImageType) :
  fold_left
    (fun mask_msgs msg =>
       if num_cameras <=? msg.1 then <[msg.1 - num_cameras := msg.2]> mask_msgs else mask_msgs)
    idx_and_image_msgs start !! idx =
  match last (masks_of num_cameras idx idx_and_image_msgs) with
  | Some mask => Some mask
  | None => start !! idx
  end.
Proof.
  revert start. induction idx_and_image_msgs as [|msg rest IH]; intros start; [reflexivity|].
  cbn [fold_left]. rewrite IH. unfold masks_of. cbn [omap list_omap]. fold (masks_of num_cameras idx rest).
  destruct (num_cameras <=? msg.1); cbn [andb].
  - destruct (Z.eqb_spec (msg.1 - num_cameras) idx) as [Heq|Hne].
    + rewrite last_cons. destruct (last (masks_of num_cameras idx rest)); [reflexivity|].
      rewrite <- Heq. apply lookup_insert_eq.
    + destruct (last (masks_of num_cameras idx rest)); [reflexivity|].
      apply lookup_insert_ne. exact Hne.
  - reflexivity.
Qed.

Lemma convert_with_masks (num_cameras latest_ts : Z) (mask_msgs : gmap Z ImageType)
    (idx_and_image_msgs : list (Z * ImageType)) :
  let converted :=
    omap (fun msg : Z * ImageType =>
            if msg.1 <? num_cameras
            then Some (TocuVSLAMImage msg.1 msg.2 latest_ts (mask_msgs !! msg.1))
            else None) idx_and_image_msgs in
  map (fun c => (camera_index c, pixels c)) converted = camera_msgs num_cameras idx_and_image_msgs
  /\ Forall (fun c =>
               timestamp_ns c = latest_ts
               /\ camera_index c < num_cameras
               /\ input_mask c = mask_msgs !! camera_index c) converted.
Proof.
  unfold camera_msgs.
  induction idx_and_image_msgs as [|msg rest [IHmap IHall]]; [split; [reflexivity|constructor]|].
  cbn [omap list_omap]. rewrite filter_cons.
  destruct (Z.ltb_spec msg.1 num_cameras) as [Hlt|Hge].
  - destruct (decide (msg.1 < num_cameras)); [|lia]. cbn [map]. split.
    + rewrite IHmap. destruct msg; reflexivity.
    + constructor; [|exact IHall]. cbn. auto.
  - destruct (decide (msg.1 < num_cameras)); [lia|]. split; assumption.
Qed.

(** X2: the engine is handed the camera messages of the batch and nothing
    else, one image each, in the order of the batch; every image carries the
    tick's stamp in place of its own, and the mask of a camera is the last
    message of the batch whose index is the camera's index plus the number
    of cameras. *)
Theorem convert_images_cameras_and_masks (num_cameras latest_ts : Z)
    (idx_and_image_msgs : list (Z * ImageType)) :
  map (fun c => (camera_index c, pixels c))
      (convert_images num_cameras latest_ts idx_and_image_msgs)
    = camera_msgs num_cameras idx_and_image_msgs
  /\ Forall (fun c =>
               timestamp_ns c = latest_ts
               /\ camera_index c < num_cameras
               /\ input_mask c = last (masks_of num_cameras (camera_index c) idx_and_image_msgs))
       (convert_images num_cameras latest_ts idx_and_image_msgs).
Proof.
  unfold convert_images.
  destruct (convert_with_masks num_cameras latest_ts
              (extract_masks num_cameras idx_and_image_msgs) idx_and_image_msgs)
    as [Hmap Hall].
  split; [exact Hmap|].
  eapply Forall_impl; [exact Hall|].
  intros c (Hts & Hidx & Hmask). split; [exact Hts|]. split; [exact Hidx|].
  rewrite Hmask. unfold extract_masks. rewrite extract_masks_lookup, lookup_empty.
  destruct (last _); reflexivity.
Qed.

(** ** The branches of a successful tick *)

Ltac forall_events :=
  repeat first
    [ apply Forall_nil_2
    | apply Forall_app_2
    | progress unfold publish_if, PublishFrameTransform, PublishGravity, jitter_warning
    | match goal with
      | |- Forall _ (if ?c then _ else _) => destruct c
      | |- Forall _ (match ?x with _ => _ end) => destruct x
      | |- Forall _ (_ :: _) =>
          apply Forall_cons_2;
          [ first [ exact I | apply bool_decide_pack; reflexivity
                  | cbn; apply bool_decide_pack; reflexivity ] | ]
      end ].

Ltac by_event :=
  let e := fresh "e" in
  intros e; destruct e as [| [] | | | | | | | | | [] | |]; cbn; tauto.

Ltac elem_cases :=
  repeat match goal with
         | H : _ ∈ [] |- _ => apply elem_of_nil in H; destruct H
         | H : _ ∈ _ :: _ |- _ => apply elem_of_cons in H as [H|H]
         end.

Lemma PoseToGround_grounded env st handle :
  ground_constraint_handle st = Some handle ->
  (PoseToGround env (track_pose env)).1 = grounded_pose env st.
Proof.
  intros Hhandle. unfold grounded_pose, PoseToGround. rewrite Hhandle.
  destruct (is_success (ground_add_status env)), (is_success (ground_get_status env)); reflexivity.
Qed.

Lemma publish_tracked_pose_completes env latest_ts ts_out st pose :
  grounded_pose env st = Some pose ->
  (enable_localization_n_mapping_ (node st) = true -> slam_pose_status env = CUVSLAM_SUCCESS) ->
  let cv_odom := FromcuVSLAMPose pose in
  let cv_map :=
    if enable_localization_n_mapping_ (node st)
    then FromcuVSLAMPose (slam_pose_value env) else cv_odom in
  let pub := publish_poses env latest_ts ts_out cv_odom cv_map st in
  publish_tracked_pose env latest_ts ts_out st =
  (pub.1,
   ground_events env st
   ++ (if enable_localization_n_mapping_ (node st) then [EvEngine CUVSLAM_GetSlamPose] else [])
   ++ pub.2,
   Continue).
Proof.
  intros Hpose Hslam. cbn zeta. unfold publish_tracked_pose, ground_events.
  assert (Hground :
            match ground_constraint_handle st with
            | Some _ => PoseToGround env (track_pose env)
            | None => (Some (track_pose env), [])
            end = (Some pose,
                   match ground_constraint_handle st with
                   | Some _ => (PoseToGround env (track_pose env)).2
                   | None => []
                   end)).
  { destruct (ground_constraint_handle st) as [handle|] eqn:Hhandle.
    - rewrite <- Hpose, <- (PoseToGround_grounded env st handle Hhandle).
      destruct (PoseToGround env (track_pose env)); reflexivity.
    - unfold grounded_pose in Hpose. rewrite Hhandle in Hpose. congruence. }
  rewrite Hground.
  destruct (enable_localization_n_mapping_ (node st)).
  - rewrite (Hslam eq_refl). change (negb (is_success CUVSLAM_SUCCESS)) with false.
    destruct (publish_poses _ _ _ _ _ _). reflexivity.
  - destruct (publish_poses _ _ _ _ _ _). reflexivity.
Qed.

Lemma publish_tracked_pose_aborts env latest_ts ts_out st :
  grounded_pose env st = None
  \/ (enable_localization_n_mapping_ (node st) = true
      /\ slam_pose_status env <> CUVSLAM_SUCCESS) ->
  publish_tracked_pose env latest_ts ts_out st = (st, abort_events env st, Return).
Proof.
  intros Habort. unfold publish_tracked_pose, abort_events, ground_events.
  destruct (ground_constraint_handle st) as [handle|] eqn:Hhandle.
  - pose proof (PoseToGround_grounded env st handle Hhandle) as Hground.
    destruct (PoseToGround env (track_pose env)) as [grounded ev_ground]. cbn [fst snd] in *.
    subst grounded. destruct (grounded_pose env st) as [pose|]; [|reflexivity].
    destruct Habort as [|[Henabled Hslam]]; [discriminate|].
    rewrite Henabled. unfold is_success. rewrite (bool_decide_eq_false_2 _ Hslam). reflexivity.
  - unfold grounded_pose in *. rewrite Hhandle in *.
    destruct Habort as [|[Henabled Hslam]]; [discriminate|].
    rewrite Henabled. unfold is_success. rewrite (bool_decide_eq_false_2 _ Hslam). reflexivity.
Qed.

Lemma after_track_completes env latest_ts st pose :
  tick_completes env st ->
  grounded_pose env st = Some pose ->
  let ts_out := timestamp_output env st latest_ts in
  let cv_odom := FromcuVSLAMPose pose in
  let cv_map :=
    if enable_localization_n_mapping_ (node st)
    then FromcuVSLAMPose (slam_pose_value env) else cv_odom in
  let pub := publish_poses env latest_ts ts_out cv_odom cv_map st in
  let fin := finish_tick env CUVSLAM_SUCCESS latest_ts ts_out pub.1 in
  after_track env latest_ts st =
  (fin.1,
   ground_events env st
   ++ (if enable_localization_n_mapping_ (node st) then [EvEngine CUVSLAM_GetSlamPose] else [])
   ++ pub.2 ++ fin.2).
Proof.
  intros (Hok & _ & Hslam) Hpose. cbn zeta. unfold after_track, timestamp_output.
  rewrite Hok.
  change (bool_decide (CUVSLAM_SUCCESS = CUVSLAM_TRACKING_LOST)) with false.
  change (negb (is_success CUVSLAM_SUCCESS)) with false. cbn iota.
  rewrite (publish_tracked_pose_completes env latest_ts _ st pose Hpose Hslam). cbn zeta.
  destruct (publish_poses _ _ _ _ _ _) as [st1 ev1]. cbn [fst snd].
  destruct (finish_tick _ _ _ _ _) as [st2 ev2]. cbn [fst snd].
  rewrite <- !app_assoc. reflexivity.
Qed.

Lemma after_track_aborts env latest_ts st :
  tick_aborts env st ->
  after_track env latest_ts st = (st, abort_events env st).
Proof.
  intros (Hok & Habort). unfold after_track.
  rewrite Hok.
  change (bool_decide (CUVSLAM_SUCCESS = CUVSLAM_TRACKING_LOST)) with false.
  change (negb (is_success CUVSLAM_SUCCESS)) with false. cbn iota.
  rewrite (publish_tracked_pose_aborts env latest_ts _ st Habort). reflexivity.
Qed.

(** A successful tick either runs to its end or ends early. *)
Lemma successful_tick_cases env st :
  track_status env = CUVSLAM_SUCCESS -> tick_completes env st \/ tick_aborts env st.
Proof.
  intros Hok. unfold tick_completes, tick_aborts.
  destruct (grounded_pose env st) as [pose|]; [|right; auto].
  destruct (enable_localization_n_mapping_ (node st)).
  - destruct (decide (slam_pose_status env = CUVSLAM_SUCCESS)) as [Hslam|Hslam].
    + left. eauto.
    + right. auto.
  - left. split; [exact Hok|]. split; [eauto|discriminate].
Qed.

(** The four ways in which the tick goes on after the tracking call. *)
Lemma after_track_cases env latest_ts st :
  (track_status env = CUVSLAM_TRACKING_LOST
   /\ after_track env latest_ts st =
        let fin := finish_tick env CUVSLAM_TRACKING_LOST latest_ts
                     (timestamp_output env st latest_ts)
                     (set_pose_cache (pose_cache_Reset (pose_cache st)) st) in
        (fin.1, EvLog WARN "Visual tracking is lost" :: fin.2))
  \/ (track_status env <> CUVSLAM_TRACKING_LOST /\ track_status env <> CUVSLAM_SUCCESS
      /\ after_track env latest_ts st = (st, [EvLog WARN "Unknown Tracker Error %d"]))
  \/ (exists pose,
        tick_completes env st /\ grounded_pose env st = Some pose
        /\ after_track env latest_ts st =
             let ts_out := timestamp_output env st latest_ts in
             let cv_odom := FromcuVSLAMPose pose in
             let cv_map :=
               if enable_localization_n_mapping_ (node st)
               then FromcuVSLAMPose (slam_pose_value env) else cv_odom in
             let pub := publish_poses env latest_ts ts_out cv_odom cv_map st in
             let fin := finish_tick env CUVSLAM_SUCCESS latest_ts ts_out pub.1 in
             (fin.1,
              ground_events env st
              ++ (if enable_localization_n_mapping_ (node st)
                  then [EvEngine CUVSLAM_GetSlamPose] else [])
              ++ pub.2 ++ fin.2))
  \/ (tick_aborts env st /\ after_track env latest_ts st = (st, abort_events env st)).
Proof.
  destruct (decide (track_status env = CUVSLAM_TRACKING_LOST)) as [Hlost|Hlost].
  { left. split; [exact Hlost|]. apply (after_track_lost env latest_ts st Hlost). }
  destruct (decide (track_status env = CUVSLAM_SUCCESS)) as [Hok|Hok].
  2:{ right. left. split; [exact Hlost|]. split; [exact Hok|].
      apply after_track_error; assumption. }
  destruct (successful_tick_cases env st Hok) as [Hcomplete|Habort].
  - right. right. left. pose proof Hcomplete as (_ & [pose Hpose] & _). exists pose.
    split; [exact Hcomplete|]. split; [exact Hpose|].
    apply after_track_completes; assumption.
  - right. right. right. split; [exact Habort|]. apply after_track_aborts, Habort.
Qed.

(** ** What every tick keeps *)

Lemma commands_untouched_trans st1 st2 st3 :
  commands_untouched st1 st2 -> commands_untouched st2 st3 -> commands_untouched st1 st3.
Proof.
  unfold commands_untouched.
  intros (-> & -> & -> & -> & -> & -> & -> & ->) H. exact H.
Qed.

(** The tick after the tracking call leaves the commands and the promises
    alone. *)
Lemma after_track_untouched env latest_ts st :
  let st' := (after_track env latest_ts st).1 in
  commands_untouched st st'
  /\ localize_promises st' = localize_promises st
  /\ save_promises st' = save_promises st.
Proof.
  cbn zeta.
  destruct (after_track_cases env latest_ts st)
    as [(_ & ->)|[(_ & _ & ->)|[(pose & _ & _ & ->)|(_ & ->)]]];
    unfold commands_untouched, finish_tick, publish_poses; cbn; repeat split.
Qed.

Lemma deliver_slot c slot st :
  deliver c (set_localization_future_ slot st) =
  (set_localization_future_ slot (deliver c st).1, (deliver c st).2).
Proof.
  destruct c as [context status|status pose]; cbn [deliver];
    unfold SaveToSlamDbResponse, LocalizeInExistDbResponse;
    cbn [save_promises localize_promises localize_in_exist_db_context set_localization_future_];
    destruct (set_value _ _ _); reflexivity.
Qed.

Lemma deliver_all_slot cs slot st :
  deliver_all cs (set_localization_future_ slot st) =
  (set_localization_future_ slot (deliver_all cs st).1, (deliver_all cs st).2).
Proof.
  revert st. induction cs as [|c cs IH]; intros st; cbn [deliver_all]; [reflexivity|].
  rewrite deliver_slot. destruct (deliver c st) as [st1 ev1]. cbn [fst snd].
  rewrite IH. destruct (deliver_all cs st1) as [st2 ev2]. reflexivity.
Qed.

(** The tick in its parts: the status check, the head up to the tracking
    call, the completion handlers called during it, and the rest. *)
Lemma UpdatePose_cases env (imu_msgs : list ImuType)
    (idx_and_image_msgs : list (Z * ImageType)) st st' tr latest_ts :
  UpdatePose env imu_msgs idx_and_image_msgs st = Some (st', tr) ->
  latest_image_stamp idx_and_image_msgs = Some latest_ts ->
  exists localize save ev_handlers,
    let slot := slot_after_poll (poll_future env) (localization_future_ st) in
    let st_track := with_promises localize save (set_localization_future_ slot st) in
    deliver_all (track_completions env) st =
      (with_promises localize save st, ev_handlers)
    /\ Forall is_handler_exception ev_handlers
    /\ st' = (after_track env latest_ts st_track).1
    /\ tr = (CheckLocalizationStatus (poll_future env) st).2
            ++ tick_head env imu_msgs idx_and_image_msgs latest_ts st
            ++ ev_handlers ++ (after_track env latest_ts st_track).2.
Proof.
  intros Hrun Hts. rewrite (UpdatePose_eq _ _ _ _ _ Hts) in Hrun. injection Hrun as <- <-.
  rewrite CheckLocalizationStatus_state.
  set (slot := slot_after_poll _ _).
  destruct (track_and_publish_eq env imu_msgs idx_and_image_msgs latest_ts
              (set_localization_future_ slot st))
    as (localize & save & ev_handlers & Hd & Hev & ->).
  rewrite deliver_all_slot in Hd.
  destruct (deliver_all_with_promises (track_completions env) st)
    as (localize' & save' & ev' & Hd' & _).
  rewrite Hd' in Hd. cbn [fst snd] in Hd. apply pair_equal_spec in Hd as [Hstate <-].
  assert (Hsame : with_promises localize save (set_localization_future_ slot st)
                  = with_promises localize' save' (set_localization_future_ slot st)).
  { rewrite <- Hstate. reflexivity. }
  rewrite Hsame. exists localize', save', ev'. cbn zeta.
  split; [exact Hd'|]. split; [exact Hev|]. split; [reflexivity|].
  cbn [snd]. unfold tick_head. f_equal. rewrite <- !app_assoc. reflexivity.
Qed.

Lemma UpdatePose_latest env (imu_msgs : list ImuType)
    (idx_and_image_msgs : list (Z * ImageType)) st st' tr :
  UpdatePose env imu_msgs idx_and_image_msgs st = Some (st', tr) ->
  exists latest_ts, latest_image_stamp idx_and_image_msgs = Some latest_ts.
Proof.
  unfold UpdatePose. destruct (CheckLocalizationStatus _ _).
  destruct (latest_image_stamp idx_and_image_msgs); [eauto|discriminate].
Qed.

Lemma UpdatePose_untouched env (imu_msgs : list ImuType)
    (idx_and_image_msgs : list (Z * ImageType)) st st' tr :
  UpdatePose env imu_msgs idx_and_image_msgs st = Some (st', tr) ->
  commands_untouched st st'
  /\ localize_promises st' = localize_promises (deliver_all (track_completions env) st).1
  /\ save_promises st' = save_promises (deliver_all (track_completions env) st).1.
Proof.
  intros Hrun. destruct (UpdatePose_latest _ _ _ _ _ _ Hrun) as [latest_ts Hts].
  destruct (UpdatePose_cases _ _ _ _ _ _ _ Hrun Hts)
    as (localize & save & ev_handlers & Hd & _ & -> & _).
  cbn zeta. rewrite Hd. cbn [fst].
  set (st_track := with_promises localize save (set_localization_future_ _ st)).
  destruct (after_track_untouched env latest_ts st_track) as (Hkeep & -> & ->).
  split; [|split; reflexivity].
  eapply commands_untouched_trans; [|exact Hkeep]. repeat split.
Qed.

(** ** The events of a tick *)

Lemma jitter_warning_catalogue env st latest_ts :
  Forall (tick_event env st latest_ts) (jitter_warning (node st) latest_ts (last_track_ts st)).
Proof.
  unfold jitter_warning. destruct (double_gt _ _); cbn [andb]; [|constructor].
  destruct (last_track_ts st =? -1) eqn:Hfirst; cbn [negb]; [constructor|].
  repeat constructor. unfold tick_event. rewrite Hfirst. apply orb_True. right. exact I.
Qed.

Lemma register_imu_measurements_catalogue env st latest_ts n (imu_msgs : list ImuType) :
  Forall (tick_event env st latest_ts) (register_imu_measurements env latest_ts n imu_msgs).
Proof.
  revert n. induction imu_msgs as [|msg rest IH]; intros n; cbn [register_imu_measurements].
  - constructor.
  - forall_events. apply IH.
Qed.

Lemma publish_poses_catalogue env st latest_ts cv_odom cv_map :
  track_status env = CUVSLAM_SUCCESS ->
  Forall (tick_event env st latest_ts)
    (publish_poses env latest_ts (timestamp_output env st latest_ts) cv_odom cv_map st).2.
Proof.
  intros Hok. unfold publish_poses. cbn [snd].
  do 9 (apply Forall_app_2; [forall_events|]).
  destruct (HasSubscribers env vis_gravity_pub_) eqn:Hsubscribed; [|constructor].
  destruct (enable_imu_fusion_ (node st)) eqn:Hfusion; [|constructor].
  cbn [andb]. unfold PublishGravity.
  destruct (is_success (gravity_status env)) eqn:Hgravity; cbn [negb];
    repeat constructor; unfold tick_event, stamped_with, publication_stamp;
    rewrite ?Hsubscribed, ?Hfusion, ?Hgravity, ?Hok; try exact I.
  apply bool_decide_pack. reflexivity.
Qed.

Lemma finish_tick_catalogue env st vo_status latest_ts st0 :
  Forall (tick_event env st latest_ts)
    (finish_tick env vo_status latest_ts (timestamp_output env st latest_ts) st0).2.
Proof. unfold finish_tick. cbn [snd]. forall_events. Qed.

Lemma ground_events_catalogue env st latest_ts :
  Forall (tick_event env st latest_ts) (ground_events env st).
Proof.
  unfold ground_events, PoseToGround.
  destruct (ground_constraint_handle st); [|constructor].
  destruct (negb _); [|destruct (negb _)]; cbn [snd]; forall_events.
Qed.

Lemma tick_head_catalogue env (imu_msgs : list ImuType)
    (idx_and_image_msgs : list (Z * ImageType)) latest_ts st :
  Forall (tick_event env st latest_ts) (tick_head env imu_msgs idx_and_image_msgs latest_ts st).
Proof.
  unfold tick_head. apply Forall_app_2; [|apply Forall_app_2].
  - constructor; [exact I|apply jitter_warning_catalogue].
  - apply register_imu_measurements_catalogue.
  - repeat constructor.
Qed.

Lemma after_track_catalogue env latest_ts st :
  Forall (tick_event env st latest_ts) (after_track env latest_ts st).2.
Proof.
  destruct (after_track_cases env latest_ts st)
    as [(Hlost & ->)|[(_ & _ & ->)|[(pose & (Hok & _) & _ & ->)|((Hok & Habort) & ->)]]];
    cbn zeta; cbn [snd].
  - constructor; [exact I|]. apply (finish_tick_catalogue env st CUVSLAM_TRACKING_LOST latest_ts).
  - repeat constructor.
  - apply Forall_app_2; [apply ground_events_catalogue|].
    apply Forall_app_2.
    { destruct (enable_localization_n_mapping_ (node st)) eqn:Henabled; repeat constructor.
      unfold tick_event. rewrite Henabled, Hok. exact I. }
    apply Forall_app_2; [apply publish_poses_catalogue, Hok|apply finish_tick_catalogue].
  - unfold abort_events.
    destruct (grounded_pose env st); apply Forall_app_2;
      try apply ground_events_catalogue; repeat constructor.
    destruct Habort as [|[Henabled _]]; [discriminate|].
    unfold tick_event. rewrite Henabled, Hok. exact I.
Qed.

(** The events of a tick, one by one. *)
Lemma UpdatePose_catalogue env (imu_msgs : list ImuType)
    (idx_and_image_msgs : list (Z * ImageType)) st st' tr latest_ts :
  UpdatePose env imu_msgs idx_and_image_msgs st = Some (st', tr) ->
  latest_image_stamp idx_and_image_msgs = Some latest_ts ->
  Forall (tick_event env st latest_ts) tr.
Proof.
  intros Hrun Hts.
  destruct (UpdatePose_cases _ _ _ _ _ _ _ Hrun Hts)
    as (localize & save & ev_handlers & _ & Hev & _ & ->). cbn zeta.
  apply Forall_app_2; [|apply Forall_app_2; [|apply Forall_app_2]].
  - rewrite CheckLocalizationStatus_events.
    destruct (localization_future_ st) as [f|];
      [destruct (poll_future env f) as [[[?|]|]|]|]; repeat constructor.
  - apply tick_head_catalogue.
  - eapply Forall_impl; [exact Hev|]. by_event.
  - exact (after_track_catalogue env latest_ts
             (with_promises localize save (set_localization_future_ _ st))).
Qed.

(** X3: the tick's own code leaves the engine handles, the stored initial
    messages, the localize context and the localized flag as they are.  The
    promises change in a tick in one way only: by the completion handlers
    the engine calls during the tracking call.  The engine calls a tick
    makes are those of tracking: it never saves, localizes, creates or
    destroys. *)
Theorem tick_leaves_commands_alone env (imu_msgs : list ImuType)
    (idx_and_image_msgs : list (Z * ImageType)) st st' tr :
  UpdatePose env imu_msgs idx_and_image_msgs st = Some (st', tr) ->
  commands_untouched st st'
  /\ localize_promises st' = localize_promises (deliver_all (track_completions env) st).1
  /\ save_promises st' = save_promises (deliver_all (track_completions env) st).1
  /\ Forall is_tick_call tr.
Proof.
  intros Hrun. destruct (UpdatePose_latest _ _ _ _ _ _ Hrun) as [latest_ts Hts].
  destruct (UpdatePose_untouched _ _ _ _ _ _ Hrun) as (Hkeep & Hlocalize & Hsave).
  split; [exact Hkeep|]. split; [exact Hlocalize|]. split; [exact Hsave|].
  eapply Forall_impl; [apply (UpdatePose_catalogue _ _ _ _ _ _ _ Hrun Hts)|].
  intros [| [] | [] | | | | | | | | [] | |]; cbn; tauto.
Qed.

(** X4: every message and every transform published by a tick carries the
    same stamp: the clock's time when [override_publishing_stamp_] is set,
    the latest image stamp otherwise. *)
Theorem tick_publications_share_one_stamp env (imu_msgs : list ImuType)
    (idx_and_image_msgs : list (Z * ImageType)) st st' tr latest_ts :
  UpdatePose env imu_msgs idx_and_image_msgs st = Some (st', tr) ->
  latest_image_stamp idx_and_image_msgs = Some latest_ts ->
  forall e stamp_ns,
    e ∈ tr -> publication_stamp e = Some stamp_ns ->
    stamp_ns = if override_publishing_stamp_ (node st) then clock_now env else latest_ts.
Proof.
  intros Hrun Hts e stamp_ns Hin Hstamp.
  pose proof (UpdatePose_catalogue _ _ _ _ _ _ _ Hrun Hts) as Hcat.
  rewrite Forall_forall in Hcat. specialize (Hcat e Hin).
  assert (Hs : stamped_with (timestamp_output env st latest_ts) e).
  { destruct e as [| | [] | | | | | | | | | |]; try discriminate; cbn in Hcat |- *;
      try exact Hcat. apply andb_True in Hcat as [_ Hcat]. exact Hcat. }
  unfold stamped_with in Hs. rewrite Hstamp in Hs. apply bool_decide_unpack in Hs. exact Hs.
Qed.

(** X5: the first tick after construction, when [last_track_ts] is still -1,
    never logs the inter-frame warning, whatever the stamp of its images. *)
Theorem first_tick_has_no_jitter_warning env (imu_msgs : list ImuType)
    (idx_and_image_msgs : list (Z * ImageType)) st st' tr :
  last_track_ts st = -1 ->
  UpdatePose env imu_msgs idx_and_image_msgs st = Some (st', tr) ->
  filter is_jitter_warning tr = [].
Proof.
  intros Hfirst Hrun. destruct (UpdatePose_latest _ _ _ _ _ _ Hrun) as [latest_ts Hts].
  apply (filter_kinds _ _ _ (UpdatePose_catalogue _ _ _ _ _ _ _ Hrun Hts)).
  intros e. destruct e as [level text| | | | | | | | | | | |]; cbn; try tauto.
  rewrite Hfirst. cbn. rewrite orb_false_r. tauto.
Qed.

(** X6: the engine is asked for the SLAM pose only in a tick whose tracking
    succeeded and when localization and mapping is enabled; for the gravity
    only in such a tick, with IMU fusion enabled and a subscriber of the
    gravity marker, and the marker is published only when the engine returns
    a gravity estimate. *)
Theorem slam_pose_and_gravity_are_asked_on_demand env (imu_msgs : list ImuType)
    (idx_and_image_msgs : list (Z * ImageType)) st st' tr :
  UpdatePose env imu_msgs idx_and_image_msgs st = Some (st', tr) ->
  (EvEngine CUVSLAM_GetSlamPose ∈ tr ->
     enable_localization_n_mapping_ (node st) = true /\ track_status env = CUVSLAM_SUCCESS)
  /\ (EvEngine CUVSLAM_GetLastGravity ∈ tr ->
        HasSubscribers env vis_gravity_pub_ = true
        /\ enable_imu_fusion_ (node st) = true
        /\ track_status env = CUVSLAM_SUCCESS)
  /\ (forall msg, EvPublish vis_gravity_pub_ msg ∈ tr -> gravity_status env = CUVSLAM_SUCCESS).
Proof.
  intros Hrun. destruct (UpdatePose_latest _ _ _ _ _ _ Hrun) as [latest_ts Hts].
  pose proof (UpdatePose_catalogue _ _ _ _ _ _ _ Hrun Hts) as Hcat.
  rewrite Forall_forall in Hcat.
  split; [|split].
  - intros Hin. specialize (Hcat _ Hin). cbn in Hcat.
    apply andb_True in Hcat as [Henabled Hok].
    split; [apply Is_true_true, Henabled|exact (bool_decide_unpack _ Hok)].
  - intros Hin. specialize (Hcat _ Hin). cbn in Hcat.
    apply andb_True in Hcat as [Hcat Hok]. apply andb_True in Hcat as [Hsub Hfusion].
    split; [apply Is_true_true, Hsub|].
    split; [apply Is_true_true, Hfusion|exact (bool_decide_unpack _ Hok)].
  - intros msg Hin. pose proof (Hcat _ Hin) as Hmsg. cbn in Hmsg.
    apply andb_True in Hmsg as [Hgravity _]. exact (bool_decide_unpack _ Hgravity).
Qed.

(** ** The successful tick *)

Lemma ground_events_quiet env st :
  Forall (fun e => negb (is_publication e)) (ground_events env st).
Proof.
  unfold ground_events, PoseToGround. destruct (ground_constraint_handle st); [|constructor].
  destruct (negb _); [|destruct (negb _)]; cbn [snd]; repeat constructor.
Qed.

Lemma abort_events_quiet env st :
  Forall (fun e => negb (is_publication e)) (abort_events env st).
Proof.
  unfold abort_events.
  destruct (grounded_pose env _); (apply Forall_app_2; [apply ground_events_quiet|]);
    repeat constructor.
Qed.

Lemma tick_head_quiet' env (imu_msgs : list ImuType)
    (idx_and_image_msgs : list (Z * ImageType)) latest_ts st :
  Forall (fun e => negb (is_publication e))
    (tick_head env imu_msgs idx_and_image_msgs latest_ts st).
Proof.
  unfold tick_head. apply Forall_app_2; [|apply Forall_app_2].
  - constructor; [exact I|].
    eapply Forall_impl; [apply jitter_warning_kinds|]. by_event.
  - eapply Forall_impl; [apply register_imu_measurements_kinds|]. by_event.
  - repeat constructor.
Qed.

Lemma check_quiet env st :
  Forall (fun e => negb (is_publication e)) (CheckLocalizationStatus (poll_future env) st).2.
Proof. eapply Forall_impl; [apply CheckLocalizationStatus_kinds|]. by_event. Qed.

Lemma handlers_quiet ev :
  Forall is_handler_exception ev -> Forall (fun e => negb (is_publication e)) ev.
Proof. intros Hev. eapply Forall_impl; [exact Hev|]. by_event. Qed.

(** X7: a tick whose tracking succeeded and which runs to its end adds the
    tracked pose (the pose on the ground when there is a ground constraint),
    changed to the ROS basis, to the pose cache under the tick's image stamp,
    adds the velocity of the updated cache to the velocity cache, records
    the execution time and takes the image stamp as [last_track_ts]. *)
Theorem completed_tick_records_pose env (imu_msgs : list ImuType)
    (idx_and_image_msgs : list (Z * ImageType)) st :
  idx_and_image_msgs <> [] ->
  tick_completes env st ->
  exists st' tr latest_ts pose,
    UpdatePose env imu_msgs idx_and_image_msgs st = Some (st', tr)
    /\ latest_image_stamp idx_and_image_msgs = Some latest_ts
    /\ grounded_pose env st = Some pose
    /\ pose_cache st' =
         pose_cache_Add latest_ts (ChangeBasis canonical_pose_cuvslam (FromcuVSLAMPose pose))
           (pose_cache st)
    /\ velocity_cache st' =
         velocity_cache_Add (pose_cache_GetVelocity (pose_cache st')) (velocity_cache st)
    /\ track_execution_times st' =
         limited_add (stopwatch_track_seconds env) (track_execution_times st)
    /\ last_track_ts st' = latest_ts.
Proof.
  intros Hne Hcomplete. destruct (latest_image_stamp_nonempty _ Hne) as [latest_ts Hts].
  pose proof Hcomplete as (_ & [pose Hpose] & _).
  destruct (UpdatePose_runs env imu_msgs idx_and_image_msgs st Hne) as (st' & tr & Hrun).
  exists st', tr, latest_ts, pose.
  split; [exact Hrun|]. split; [exact Hts|]. split; [exact Hpose|].
  destruct (UpdatePose_cases _ _ _ _ _ _ _ Hrun Hts)
    as (localize & save & ev_handlers & _ & _ & -> & _). cbn zeta.
  set (st_track := with_promises localize save (set_localization_future_ _ st)).
  rewrite (after_track_completes env latest_ts st_track pose Hcomplete Hpose).
  cbn [fst]. unfold finish_tick, publish_poses. cbn. repeat split.
Qed.

(** X8: a tick whose tracking succeeded but whose ground constraint or SLAM
    pose fails ends early: the tracked pose is dropped.  Nothing is
    published, the caches, the paths and the execution-time history keep
    their values and [last_track_ts] is not advanced. *)
Theorem aborted_tick_drops_pose env (imu_msgs : list ImuType)
    (idx_and_image_msgs : list (Z * ImageType)) st :
  idx_and_image_msgs <> [] ->
  tick_aborts env st ->
  exists st' tr,
    UpdatePose env imu_msgs idx_and_image_msgs st = Some (st', tr)
    /\ filter is_publication tr = []
    /\ pose_cache st' = pose_cache st
    /\ velocity_cache st' = velocity_cache st
    /\ vo_path st' = vo_path st
    /\ slam_path st' = slam_path st
    /\ track_execution_times st' = track_execution_times st
    /\ last_track_ts st' = last_track_ts st.
Proof.
  intros Hne Habort. destruct (latest_image_stamp_nonempty _ Hne) as [latest_ts Hts].
  destruct (UpdatePose_runs env imu_msgs idx_and_image_msgs st Hne) as (st' & tr & Hrun).
  exists st', tr. split; [exact Hrun|].
  destruct (UpdatePose_cases _ _ _ _ _ _ _ Hrun Hts)
    as (localize & save & ev_handlers & _ & Hev & -> & ->). cbn zeta.
  set (st_track := with_promises localize save (set_localization_future_ _ st)).
  rewrite (after_track_aborts env latest_ts st_track Habort).
  cbn [fst snd]. split; [|repeat split].
  rewrite !filter_app.
  rewrite (filter_none _ _ (check_quiet env st)).
  rewrite (filter_none _ _ (tick_head_quiet' env imu_msgs idx_and_image_msgs latest_ts _)).
  rewrite (filter_none _ _ (handlers_quiet _ Hev)).
  apply filter_none, abort_events_quiet.
Qed.

Lemma quiet_not_on pub tr :
  Forall (fun e => negb (is_publication e)) tr -> published_on pub tr = [].
Proof.
  intros Hquiet. apply published_on_none. eapply Forall_impl; [exact Hquiet|].
  intros [| | | | | | | | | | | |]; cbn; tauto.
Qed.

Lemma finish_tick_publishes_status_only env vo_status latest_ts ts_out st pub :
  pub <> visual_slam_status_pub_ -> pub <> diagnostics_pub_ ->
  published_on pub (finish_tick env vo_status latest_ts ts_out st).2 = [].
Proof.
  intros Hstatus Hdiag. unfold finish_tick. cbn [snd].
  rewrite published_on_app, !published_on_publish_if.
  destruct (decide (visual_slam_status_pub_ = pub)); [congruence|].
  destruct (decide (diagnostics_pub_ = pub)); [congruence|]. reflexivity.
Qed.

(** What a tick publishes comes from the part after the tracking call. *)
Lemma tick_publications env (imu_msgs : list ImuType)
    (idx_and_image_msgs : list (Z * ImageType)) st st' tr latest_ts pub :
  UpdatePose env imu_msgs idx_and_image_msgs st = Some (st', tr) ->
  latest_image_stamp idx_and_image_msgs = Some latest_ts ->
  exists localize save slot,
    let st_track := with_promises localize save (set_localization_future_ slot st) in
    st' = (after_track env latest_ts st_track).1
    /\ published_on pub tr = published_on pub (after_track env latest_ts st_track).2.
Proof.
  intros Hrun Hts.
  destruct (UpdatePose_cases _ _ _ _ _ _ _ Hrun Hts)
    as (localize & save & ev_handlers & _ & Hev & Hst & ->). cbn zeta in *.
  eexists localize, save, _. split; [exact Hst|].
  rewrite !published_on_app.
  rewrite (quiet_not_on _ _ (check_quiet env st)).
  rewrite (quiet_not_on _ _ (tick_head_quiet' env imu_msgs idx_and_image_msgs latest_ts st)).
  rewrite (quiet_not_on _ _ (handlers_quiet _ Hev)). reflexivity.
Qed.

(** The pose messages of a tick come from its publishing block. *)
Lemma tick_pose_publications env (imu_msgs : list ImuType)
    (idx_and_image_msgs : list (Z * ImageType)) st st' tr latest_ts pub msg :
  pub <> visual_slam_status_pub_ -> pub <> diagnostics_pub_ ->
  UpdatePose env imu_msgs idx_and_image_msgs st = Some (st', tr) ->
  latest_image_stamp idx_and_image_msgs = Some latest_ts ->
  EvPublish pub msg ∈ tr ->
  exists pose localize save slot,
    let st_track := with_promises localize save (set_localization_future_ slot st) in
    let block :=
      publish_poses env latest_ts (timestamp_output env st latest_ts)
        (FromcuVSLAMPose pose)
        (if enable_localization_n_mapping_ (node st)
         then FromcuVSLAMPose (slam_pose_value env) else FromcuVSLAMPose pose)
        st_track in
    tick_completes env st
    /\ grounded_pose env st = Some pose
    /\ st' = (finish_tick env CUVSLAM_SUCCESS latest_ts (timestamp_output env st latest_ts)
                block.1).1
    /\ msg ∈ published_on pub block.2.
Proof.
  intros Hstatus Hdiag Hrun Hts Hin.
  destruct (tick_publications env imu_msgs idx_and_image_msgs st st' tr latest_ts pub Hrun Hts)
    as (localize & save & slot & Hst & Hpub). cbn zeta in Hst, Hpub.
  apply elem_of_published_on in Hin. rewrite Hpub in Hin.
  set (st_track := with_promises localize save (set_localization_future_ slot st)) in *.
  destruct (after_track_cases env latest_ts st_track)
    as [(_ & Heq)|[(_ & _ & Heq)|[(pose & Hcomplete & Hpose & Heq)|(_ & Heq)]]];
    rewrite Heq in Hin, Hst; cbn zeta in Hin, Hst; cbn [fst snd] in Hin, Hst.
  - change (published_on pub (EvLog ?l ?t :: ?rest)) with (published_on pub rest) in Hin.
    rewrite (finish_tick_publishes_status_only _ _ _ _ _ _ Hstatus Hdiag) in Hin. elem_cases.
  - cbn in Hin. elem_cases.
  - exists pose, localize, save, slot. cbn zeta. fold st_track.
    split; [exact Hcomplete|]. split; [exact Hpose|]. split; [exact Hst|].
    rewrite !published_on_app in Hin.
    rewrite (quiet_not_on _ _ (ground_events_quiet env st_track)) in Hin.
    rewrite (finish_tick_publishes_status_only _ _ _ _ _ _ Hstatus Hdiag) in Hin.
    rewrite (quiet_not_on _ (if enable_localization_n_mapping_ _ then _ else _)) in Hin
      by (destruct (enable_localization_n_mapping_ _); repeat constructor).
    cbn [app] in Hin. rewrite app_nil_r in Hin. exact Hin.
  - rewrite (quiet_not_on _ _ (abort_events_quiet env st_track)) in Hin. elem_cases.
Qed.

(** Computes the messages of the publishing block on one publisher. *)
Ltac publications_of_block :=
  unfold publish_poses; cbn [fst snd];
  rewrite !published_on_app, !published_on_publish_if;
  rewrite (published_on_none _ (if publish_map_to_odom_tf_ _ then _ else _)) by forall_events;
  rewrite (published_on_none _ (if publish_odom_to_base_tf_ _ then _ else _)) by forall_events;
  rewrite (published_on_none _ (if _ && _ then _ else _)) by forall_events;
  repeat match goal with
         | |- context [decide (?a = ?b)] =>
             destruct (decide (a = b)); try discriminate; try contradiction
         end;
  cbn [app]; rewrite ?app_nil_r.

Lemma publish_poses_vo_pose env latest_ts ts_out cv_odom cv_map st msg :
  msg ∈ published_on tracking_vo_pose_pub_
          (publish_poses env latest_ts ts_out cv_odom cv_map st).2 ->
  exists m, msg = MsgPoseStamped m
            /\ pose_stamped_pose m = tf_toMsg (ChangeBasis canonical_pose_cuvslam cv_odom).
Proof.
  publications_of_block.
  destruct (HasSubscribers env tracking_vo_pose_pub_); intros Hin; elem_cases.
  subst msg. eexists. split; reflexivity.
Qed.

Lemma publish_poses_slam_odometry env latest_ts ts_out cv_odom cv_map st msg :
  msg ∈ published_on vis_slam_odometry_pub_
          (publish_poses env latest_ts ts_out cv_odom cv_map st).2 ->
  exists m, msg = MsgOdometry m
            /\ odom_pose m = tf_toMsg (ChangeBasis canonical_pose_cuvslam cv_map).
Proof.
  publications_of_block.
  destruct (HasSubscribers env vis_slam_odometry_pub_); intros Hin; elem_cases.
  subst msg. eexists. split; reflexivity.
Qed.

Lemma publish_poses_vo_path env latest_ts ts_out cv_odom cv_map st msg :
  msg ∈ published_on tracking_vo_path_pub_
          (publish_poses env latest_ts ts_out cv_odom cv_map st).2 ->
  HasSubscribers env tracking_vo_path_pub_ = true
  /\ exists h, msg = MsgPath h
                 (limited_getData
                    (vo_path (publish_poses env latest_ts ts_out cv_odom cv_map st).1)).
Proof.
  publications_of_block.
  destruct (HasSubscribers env tracking_vo_path_pub_); intros Hin; elem_cases.
  subst msg. split; [reflexivity|]. eexists. reflexivity.
Qed.

Lemma publish_poses_slam_path env latest_ts ts_out cv_odom cv_map st msg :
  msg ∈ published_on tracking_slam_path_pub_
          (publish_poses env latest_ts ts_out cv_odom cv_map st).2 ->
  HasSubscribers env tracking_slam_path_pub_ = true
  /\ exists h, msg = MsgPath h
                 (limited_getData
                    (slam_path (publish_poses env latest_ts ts_out cv_odom cv_map st).1)).
Proof.
  publications_of_block.
  destruct (HasSubscribers env tracking_slam_path_pub_); intros Hin; elem_cases.
  subst msg. split; [reflexivity|]. eexists. reflexivity.
Qed.

(** X9: the pose published as visual odometry is the tracked pose (on the
    ground, with a ground constraint) in the ROS basis; the pose published as
    SLAM odometry is the engine's SLAM pose when localization and mapping is
    enabled and the same visual-odometry pose when it is not. *)
Theorem tick_pose_messages env (imu_msgs : list ImuType)
    (idx_and_image_msgs : list (Z * ImageType)) st st' tr :
  UpdatePose env imu_msgs idx_and_image_msgs st = Some (st', tr) ->
  (forall msg,
     EvPublish tracking_vo_pose_pub_ msg ∈ tr ->
     exists pose m,
       grounded_pose env st = Some pose
       /\ msg = MsgPoseStamped m
       /\ pose_stamped_pose m = tf_toMsg (ChangeBasis canonical_pose_cuvslam (FromcuVSLAMPose pose)))
  /\ (forall msg,
        EvPublish vis_slam_odometry_pub_ msg ∈ tr ->
        exists pose m,
          grounded_pose env st = Some pose
          /\ msg = MsgOdometry m
          /\ odom_pose m =
               tf_toMsg
                 (ChangeBasis canonical_pose_cuvslam
                    (FromcuVSLAMPose
                       (if enable_localization_n_mapping_ (node st)
                        then slam_pose_value env else pose)))).
Proof.
  intros Hrun. destruct (UpdatePose_latest _ _ _ _ _ _ Hrun) as [latest_ts Hts].
  split; intros msg Hin.
  - destruct (tick_pose_publications env imu_msgs idx_and_image_msgs st st' tr latest_ts
                tracking_vo_pose_pub_ msg ltac:(discriminate) ltac:(discriminate) Hrun Hts Hin)
      as (pose & localize & save & slot & _ & Hpose & _ & Hmsg).
    apply publish_poses_vo_pose in Hmsg as (m & -> & Hm). eauto.
  - destruct (tick_pose_publications env imu_msgs idx_and_image_msgs st st' tr latest_ts
                vis_slam_odometry_pub_ msg ltac:(discriminate) ltac:(discriminate) Hrun Hts Hin)
      as (pose & localize & save & slot & _ & Hpose & _ & Hmsg).
    apply publish_poses_slam_odometry in Hmsg as (m & -> & Hm).
    exists pose, m. split; [exact Hpose|]. split; [reflexivity|].
    rewrite Hm. destruct (enable_localization_n_mapping_ (node st)); reflexivity.
Qed.

Lemma after_track_paths env latest_ts st :
  let st1 := (after_track env latest_ts st).1 in
  (HasSubscribers env tracking_vo_path_pub_ = false \/ ~ tick_completes env st ->
   vo_path st1 = vo_path st)
  /\ (HasSubscribers env tracking_slam_path_pub_ = false \/ ~ tick_completes env st ->
      slam_path st1 = slam_path st).
Proof.
  cbn zeta.
  destruct (after_track_cases env latest_ts st)
    as [(_ & ->)|[(_ & _ & ->)|[(pose & Hcomplete & _ & ->)|(_ & ->)]]];
    unfold finish_tick, publish_poses; cbn; auto.
  split; (intros [Hsub|Hnot]; [rewrite Hsub; reflexivity|contradiction]).
Qed.

(** X10: the two paths are only recorded while somebody listens.  A tick
    that does not run to its end, or whose path has no subscriber, leaves
    the path as it is; a tick that runs to its end adds, to a path with a
    subscriber, the pose of the tick under the tick's output stamp (the
    visual-odometry pose in the odometry frame, the SLAM pose in the map
    frame).  A path message is only published by a tick that runs to its end
    and to a subscriber, and it carries the path as it is after the tick,
    the new pose included. *)
Theorem paths_grow_only_with_subscribers env (imu_msgs : list ImuType)
    (idx_and_image_msgs : list (Z * ImageType)) st st' tr :
  UpdatePose env imu_msgs idx_and_image_msgs st = Some (st', tr) ->
  (HasSubscribers env tracking_vo_path_pub_ = false \/ ~ tick_completes env st ->
   vo_path st' = vo_path st)
  /\ (HasSubscribers env tracking_slam_path_pub_ = false \/ ~ tick_completes env st ->
      slam_path st' = slam_path st)
  /\ (forall latest_ts pose,
        tick_completes env st ->
        latest_image_stamp idx_and_image_msgs = Some latest_ts ->
        grounded_pose env st = Some pose ->
        let stamp_ns := timestamp_output env st latest_ts in
        let vo_pose := tf_toMsg (ChangeBasis canonical_pose_cuvslam (FromcuVSLAMPose pose)) in
        let slam_pose :=
          tf_toMsg
            (ChangeBasis canonical_pose_cuvslam
               (FromcuVSLAMPose
                  (if enable_localization_n_mapping_ (node st)
                   then slam_pose_value env else pose))) in
        (HasSubscribers env tracking_vo_path_pub_ = true ->
         vo_path st' =
           limited_add
             {| pose_stamped_header :=
                  {| stamp := stamp_ns; frame_id := odom_frame_ (node st) |};
                pose_stamped_pose := vo_pose |}
             (vo_path st))
        /\ (HasSubscribers env tracking_slam_path_pub_ = true ->
            slam_path st' =
              limited_add
                {| pose_stamped_header :=
                     {| stamp := stamp_ns; frame_id := map_frame_ (node st) |};
                   pose_stamped_pose := slam_pose |}
                (slam_path st)))
  /\ (forall msg, EvPublish tracking_vo_path_pub_ msg ∈ tr ->
        tick_completes env st
        /\ HasSubscribers env tracking_vo_path_pub_ = true
        /\ exists h, msg = MsgPath h (limited_getData (vo_path st')))
  /\ (forall msg, EvPublish tracking_slam_path_pub_ msg ∈ tr ->
        tick_completes env st
        /\ HasSubscribers env tracking_slam_path_pub_ = true
        /\ exists h, msg = MsgPath h (limited_getData (slam_path st'))).
Proof.
  intros Hrun. destruct (UpdatePose_latest _ _ _ _ _ _ Hrun) as [latest_ts Hts].
  destruct (UpdatePose_cases _ _ _ _ _ _ _ Hrun Hts)
    as (localize & save & ev_handlers & _ & _ & Hst & _). cbn zeta in Hst.
  set (st_track := with_promises localize save (set_localization_future_ _ st)) in Hst.
  destruct (after_track_paths env latest_ts st_track) as [Hvo Hslam].
  cbn zeta in Hvo, Hslam. rewrite <- Hst in Hvo, Hslam.
  split; [exact Hvo|]. split; [exact Hslam|].
  split.
  { intros latest_ts' pose Hcomplete Hts' Hpose. cbn zeta.
    assert (latest_ts' = latest_ts) as -> by congruence.
    rewrite Hst, (after_track_completes env latest_ts st_track pose Hcomplete Hpose).
    cbn [fst]. unfold finish_tick, publish_poses. cbn.
    split; intros ->; destruct (enable_localization_n_mapping_ (node st)); reflexivity. }
  split; intros msg Hin.
  - destruct (tick_pose_publications env imu_msgs idx_and_image_msgs st st' tr latest_ts
                tracking_vo_path_pub_ msg ltac:(discriminate) ltac:(discriminate) Hrun Hts Hin)
      as (pose & localize' & save' & slot & Hcomplete & _ & Hst' & Hmsg).
    cbn zeta in Hst', Hmsg.
    apply publish_poses_vo_path in Hmsg as (Hsubscribed & h & ->).
    split; [exact Hcomplete|]. split; [exact Hsubscribed|].
    exists h. rewrite Hst'. reflexivity.
  - destruct (tick_pose_publications env imu_msgs idx_and_image_msgs st st' tr latest_ts
                tracking_slam_path_pub_ msg ltac:(discriminate) ltac:(discriminate) Hrun Hts Hin)
      as (pose & localize' & save' & slot & Hcomplete & _ & Hst' & Hmsg).
    cbn zeta in Hst', Hmsg.
    apply publish_poses_slam_path in Hmsg as (Hsubscribed & h & ->).
    split; [exact Hcomplete|]. split; [exact Hsubscribed|].
    exists h. rewrite Hst'. reflexivity.
Qed.

(** ** Status and diagnostics *)

Lemma tick_status_publications env (imu_msgs : list ImuType)
    (idx_and_image_msgs : list (Z * ImageType)) st st' tr latest_ts pub msg :
  pub = visual_slam_status_pub_ \/ pub = diagnostics_pub_ ->
  UpdatePose env imu_msgs idx_and_image_msgs st = Some (st', tr) ->
  latest_image_stamp idx_and_image_msgs = Some latest_ts ->
  EvPublish pub msg ∈ tr ->
  exists st1,
    localized_in_exist_map_ st1 = localized_in_exist_map_ st
    /\ msg ∈ published_on pub
         (finish_tick env (track_status env) latest_ts (timestamp_output env st latest_ts) st1).2.
Proof.
  intros Hpub Hrun Hts Hin.
  destruct (tick_publications env imu_msgs idx_and_image_msgs st st' tr latest_ts pub Hrun Hts)
    as (localize & save & slot & _ & Hpublished). cbn zeta in Hpublished.
  apply elem_of_published_on in Hin. rewrite Hpublished in Hin.
  set (st_track := with_promises localize save (set_localization_future_ slot st)) in *.
  destruct (after_track_cases env latest_ts st_track)
    as [(Hlost & Heq)|[(_ & _ & Heq)|[(pose & (Hok & _) & Hpose & Heq)|(_ & Heq)]]];
    rewrite Heq in Hin; cbn zeta in Hin; cbn [fst snd] in Hin.
  - change (published_on pub (EvLog ?l ?t :: ?rest)) with (published_on pub rest) in Hin.
    rewrite Hlost. eexists. split; [|exact Hin]. reflexivity.
  - cbn in Hin. elem_cases.
  - rewrite !published_on_app in Hin.
    rewrite (quiet_not_on _ _ (ground_events_quiet env st_track)) in Hin.
    rewrite (quiet_not_on _ (if enable_localization_n_mapping_ _ then _ else _)) in Hin
      by (destruct (enable_localization_n_mapping_ _); repeat constructor).
    rewrite (published_on_none pub (publish_poses _ _ _ _ _ _).2) in Hin.
    2:{ unfold publish_poses. cbn [snd]. destruct Hpub as [-> | ->]; forall_events. }
    cbn [app] in Hin. rewrite Hok. eexists. split; [|exact Hin].
    unfold publish_poses. reflexivity.
  - rewrite (quiet_not_on _ _ (abort_events_quiet env st_track)) in Hin. elem_cases.
Qed.

(** X11: the status message of a tick says 1 for a successful tracking call
    and 2 otherwise; the diagnostics message carries the tracking status,
    level OK for success and WARN otherwise, and tells whether the last
    localization in a map succeeded. *)
Theorem tick_status_and_diagnostics env (imu_msgs : list ImuType)
    (idx_and_image_msgs : list (Z * ImageType)) st st' tr :
  UpdatePose env imu_msgs idx_and_image_msgs st = Some (st', tr) ->
  (forall msg,
     EvPublish visual_slam_status_pub_ msg ∈ tr ->
     exists m, msg = MsgVisualSlamStatus m
               /\ vo_state m = (if is_success (track_status env) then 1 else 2)
               /\ track_execution_time m = stopwatch_track_seconds env
               /\ node_callback_execution_time m = stopwatch_seconds env)
  /\ (forall msg,
        EvPublish diagnostics_pub_ msg ∈ tr ->
        exists m, msg = MsgDiagnostics m
                  /\ diag_vo_status m = track_status env
                  /\ diag_level m = (if is_success (track_status env) then DIAG_OK else DIAG_WARN)
                  /\ diag_localized_in_exist_map m =
                       (if localized_in_exist_map_ st then "Yes" else "No")).
Proof.
  intros Hrun. destruct (UpdatePose_latest _ _ _ _ _ _ Hrun) as [latest_ts Hts].
  split; intros msg Hin.
  - destruct (tick_status_publications env imu_msgs idx_and_image_msgs st st' tr latest_ts
                visual_slam_status_pub_ msg (or_introl eq_refl) Hrun Hts Hin)
      as (st1 & _ & Hmsg).
    unfold finish_tick in Hmsg. cbn [snd] in Hmsg.
    rewrite published_on_app, !published_on_publish_if in Hmsg.
    repeat match type of Hmsg with
           | context [decide (?a = ?b)] =>
               destruct (decide (a = b)); try discriminate; try contradiction
           end.
    rewrite app_nil_r in Hmsg.
    destruct (HasSubscribers env visual_slam_status_pub_); elem_cases.
    subst msg. eexists. repeat split.
  - destruct (tick_status_publications env imu_msgs idx_and_image_msgs st st' tr latest_ts
                diagnostics_pub_ msg (or_intror eq_refl) Hrun Hts Hin)
      as (st1 & Hflag & Hmsg).
    unfold finish_tick in Hmsg. cbn [snd] in Hmsg.
    rewrite published_on_app, !published_on_publish_if in Hmsg.
    repeat match type of Hmsg with
           | context [decide (?a = ?b)] =>
               destruct (decide (a = b)); try discriminate; try contradiction
           end.
    cbn [app] in Hmsg.
    destruct (HasSubscribers env diagnostics_pub_); elem_cases.
    subst msg. eexists. rewrite <- Hflag. repeat split.
Qed.

(** ** Commands and their completion *)

(** X12: when the engine accepts the request, [SaveMap] returns the status
    the completion handler is called with: at once when the handler is
    called before the initiating call returns, and otherwise as soon as the
    handler has been called while the caller waits. *)
Theorem save_map_returns_handler_status (map_folder_path : string) st status :
  enable_localization_n_mapping_ (node st) = true ->
  let context := next_promise st in
  (exists st1 tr,
     SaveMap {| save_call_result := CUVSLAM_SUCCESS;
                save_completions := [CompleteSave context status] |} map_folder_path st
       = (st1, tr, SaveMapReturns status))
  /\ (exists st1 tr log,
        SaveMap {| save_call_result := CUVSLAM_SUCCESS; save_completions := [] |}
          map_folder_path st = (st1, tr, SaveMapBlocks context)
        /\ SaveMap_resume context st1 = None
        /\ SaveMap_resume context (deliver (CompleteSave context status) st1).1
           = Some (SaveMapReturns status, log)).
Proof.
  intros Henabled context. subst context. split.
  - unfold SaveMap. rewrite Henabled. cbn [negb new_save_promise].
    cbn [deliver_all deliver save_completions save_call_result].
    unfold SaveToSlamDbResponse, set_value. cbn [save_promises set_next_promise set_save_promises].
    rewrite lookup_insert_eq. cbn [fst snd is_success].
    change (negb (bool_decide (CUVSLAM_SUCCESS = CUVSLAM_SUCCESS))) with false. cbn iota.
    unfold future_value. cbn [save_promises set_save_promises]. rewrite lookup_insert_eq.
    unfold SaveMap_finish. cbn [save_status].
    destruct (negb (is_success status)); eauto.
  - unfold SaveMap. rewrite Henabled. cbn [negb new_save_promise].
    cbn [deliver_all save_completions save_call_result].
    change (negb (is_success CUVSLAM_SUCCESS)) with false. cbn iota.
    unfold future_value at 1. cbn [save_promises set_next_promise set_save_promises].
    rewrite lookup_insert_eq.
    eexists _, _, (SaveMap_finish {| save_status := status |}).2.
    split; [reflexivity|].
    unfold SaveMap_resume, future_value, deliver, SaveToSlamDbResponse, set_value.
    cbn [save_promises set_next_promise set_save_promises].
    rewrite lookup_insert_eq. cbn [fst save_promises set_save_promises].
    rewrite lookup_insert_eq. split; [reflexivity|].
    unfold SaveMap_finish. cbn [save_status fmap option_fmap option_map].
    destruct (negb (is_success status)); reflexivity.
Qed.

(** X13: a completion handler sets its promise once.  A second call for the
    same context raises [promise_already_satisfied] and leaves the value of
    the first call in place. *)
Theorem second_completion_is_rejected st status1 pose1 status2 pose2 :
  localize_promises st !! response_promise (localize_in_exist_db_context st) = Some None ->
  let first := deliver (CompleteLocalize status1 pose1) st in
  let second := deliver (CompleteLocalize status2 pose2) first.1 in
  first.2 = []
  /\ second = (first.1, [EvUncaught promise_already_satisfied])
  /\ future_value (response_promise (localize_in_exist_db_context st))
       (localize_promises second.1) = Some (localize_response status1 pose1).
Proof.
  intros Hpending. cbn zeta. cbn [deliver]. unfold LocalizeInExistDbResponse.
  rewrite (set_value_pending _ _ _ Hpending). cbn [fst snd].
  cbn [localize_in_exist_db_context set_localize_promises localize_promises].
  unfold set_value. rewrite lookup_insert_eq. cbn [fst].
  split; [reflexivity|]. split; [reflexivity|].
  cbn [localize_promises set_localize_promises]. rewrite future_value_insert.
  destruct (decide _); [reflexivity|contradiction].
Qed.

(** X14: an accepted localize request keeps the pose hint in the context and
    hands that stored hint to the engine; its future is pending until the
    handler is called and then holds the handler's status, with the pose the
    engine found when the status is success and no pose read otherwise. *)
Theorem accepted_localize_request_completes (env : LocalizeEnv) (map_folder_path : string)
    pose_hint st status pose :
  enable_localization_n_mapping_ (node st) = true ->
  fs_is_directory env map_folder_path = true ->
  has_lmdb_files (fs_directory_iterator env map_folder_path) = true ->
  localize_completions env = [] ->
  let r := CuvslamInternalLocalizeInMapAsync env map_folder_path pose_hint st in
  let completed := (deliver (CompleteLocalize status pose) r.1.1).1 in
  pose_storage (localize_in_exist_db_context r.1.1) = pose_hint
  /\ filter is_engine_event r.1.2 = [EvEngine (CUVSLAM_LocalizeInExistDb map_folder_path pose_hint)]
  /\ future_value r.2 (localize_promises r.1.1) = None
  /\ (exists response,
        future_value r.2 (localize_promises completed) = Some response
        /\ localize_status response = status
        /\ pose_in_db response =
             (if is_success status then default default_pose pose else default_pose)).
Proof.
  intros Henabled Hdir Hfiles Hsync. cbn zeta.
  destruct (localize_request_issued env map_folder_path pose_hint st Henabled Hdir Hfiles)
    as (tr & Hrun & Hcalls).
  rewrite Hrun, Hsync in *. cbn [deliver_all fst snd] in *.
  split; [reflexivity|]. split; [exact Hcalls|].
  split.
  { unfold future_value. cbn. rewrite lookup_insert_eq. reflexivity. }
  exists (localize_response status pose).
  cbn [deliver]. unfold LocalizeInExistDbResponse, set_value. cbn.
  rewrite lookup_insert_eq. cbn. rewrite future_value_insert.
  destruct (decide _); [auto|contradiction].
Qed.

(** ** LocalizeInMap *)

Section Wrappers.

Variable tf_fromMsg : PoseType -> Transform.
Variable cuvslam_pose_canonical : Transform.
Variable TocuVSLAMPose : Transform -> CUVSLAM_Pose.

Lemma LocalizeInMapAsync_found (tf : TfEnv) (env : LocalizeEnv) (map_folder_path : string)
    pose_hint (frame : string) st map_pose_frame_id :
  lookupTransform tf (map_frame_ (node st)) frame = Some map_pose_frame_id ->
  let r := CuvslamInternalLocalizeInMapAsync env map_folder_path
             (pose_hint_cv tf_fromMsg cuvslam_pose_canonical TocuVSLAMPose
                map_pose_frame_id pose_hint) st in
  exists tr,
    LocalizeInMapAsync tf_fromMsg cuvslam_pose_canonical TocuVSLAMPose tf env map_folder_path
      pose_hint frame st = (r.1.1, tr, inr r.2)
    /\ filter is_engine_event tr = filter is_engine_event r.1.2.
Proof.
  intros Hlookup. cbn zeta. unfold LocalizeInMapAsync, GetLatestTransform. rewrite Hlookup.
  fold (pose_hint_cv tf_fromMsg cuvslam_pose_canonical TocuVSLAMPose map_pose_frame_id pose_hint).
  destruct (CuvslamInternalLocalizeInMapAsync env map_folder_path _ st) as [[st1 ev1] f].
  cbn [fst snd]. eexists. split; [reflexivity|].
  rewrite !filter_app. destruct (negb (canTransform tf _ _)); reflexivity.
Qed.

(** X15: when the tf buffer has no transform from the frame of the hint to
    the map frame, [LocalizeInMap] leaves by the exception of the lookup
    before anything is asked of the engine, and the object is as it was: no
    new promise, the context of an earlier request still in place. *)
Theorem localize_in_map_throws_without_transform (tf : TfEnv) (env : LocalizeEnv)
    (map_folder_path : string) pose_hint (frame : string) st :
  lookupTransform tf (map_frame_ (node st)) frame = None ->
  exists tr,
    LocalizeInMap tf_fromMsg cuvslam_pose_canonical TocuVSLAMPose tf env map_folder_path
      pose_hint frame st = (st, tr, LocalizeInMapThrows transform_not_found)
    /\ filter is_engine_event tr = [].
Proof.
  intros Hlookup. unfold LocalizeInMap, LocalizeInMapAsync, GetLatestTransform.
  rewrite Hlookup. eexists. split; [reflexivity|].
  destruct (negb (canTransform tf _ _)); reflexivity.
Qed.

(** X16: with a transform at hand, [LocalizeInMap] on an unmet precondition
    (feature disabled, folder missing, no database file) returns no pose at
    once, without a call of the engine, and marks the node as not localized. *)
Theorem localize_in_map_fails_fast (tf : TfEnv) (env : LocalizeEnv)
    (map_folder_path : string) pose_hint (frame : string) st map_pose_frame_id :
  lookupTransform tf (map_frame_ (node st)) frame = Some map_pose_frame_id ->
  enable_localization_n_mapping_ (node st) = false
  \/ fs_is_directory env map_folder_path = false
  \/ has_lmdb_files (fs_directory_iterator env map_folder_path) = false ->
  exists st' tr,
    LocalizeInMap tf_fromMsg cuvslam_pose_canonical TocuVSLAMPose tf env map_folder_path
      pose_hint frame st = (st', tr, LocalizeInMapReturns None)
    /\ filter is_engine_event tr = []
    /\ localized_in_exist_map_ st' = false.
Proof.
  intros Hlookup Hunmet.
  destruct (LocalizeInMapAsync_found tf env map_folder_path pose_hint frame st _ Hlookup)
    as (tr & Hrun & Hcalls).
  destruct (localize_precondition_unmet env map_folder_path
              (pose_hint_cv tf_fromMsg cuvslam_pose_canonical TocuVSLAMPose
                 map_pose_frame_id pose_hint) st Hunmet)
    as (text & status & Hinner & Hstatus).
  rewrite Hinner in Hrun, Hcalls. cbn [fst snd] in Hrun, Hcalls.
  unfold LocalizeInMap. rewrite Hrun. unfold LocalizeInMap_resume.
  cbn [localize_promises set_localize_promises]. rewrite future_value_insert.
  destruct (decide _); [|contradiction]. cbn [fmap option_fmap option_map].
  unfold extract_pose_in_ros_conventions. cbn [localize_status localize_response].
  assert (Hfail : is_success status = false).
  { rewrite Hstatus. destruct (enable_localization_n_mapping_ (node st)); reflexivity. }
  rewrite Hfail. cbn [negb]. eexists _, _. split; [reflexivity|].
  split; [|reflexivity]. rewrite filter_app, Hcalls. reflexivity.
Qed.

Lemma LocalizeInMap_blocks (tf : TfEnv) (env : LocalizeEnv)
    (map_folder_path : string) pose_hint (frame : string) st map_pose_frame_id :
  lookupTransform tf (map_frame_ (node st)) frame = Some map_pose_frame_id ->
  enable_localization_n_mapping_ (node st) = true ->
  fs_is_directory env map_folder_path = true ->
  has_lmdb_files (fs_directory_iterator env map_folder_path) = true ->
  localize_completions env = [] ->
  let hint := pose_hint_cv tf_fromMsg cuvslam_pose_canonical TocuVSLAMPose
                map_pose_frame_id pose_hint in
  let issued :=
    set_localize_in_exist_db_context
      {| response_promise := next_promise st; pose_storage := hint |} (fresh_context st) in
  exists tr,
    LocalizeInMap tf_fromMsg cuvslam_pose_canonical TocuVSLAMPose tf env map_folder_path
      pose_hint frame st = (issued, tr, LocalizeInMapBlocks (next_promise st))
    /\ filter is_engine_event tr = [EvEngine (CUVSLAM_LocalizeInExistDb map_folder_path hint)].
Proof.
  intros Hlookup Henabled Hdir Hfiles Hsync. cbn zeta.
  destruct (LocalizeInMapAsync_found tf env map_folder_path pose_hint frame st _ Hlookup)
    as (tr & Hrun & Hcalls).
  destruct (localize_request_issued env map_folder_path
              (pose_hint_cv tf_fromMsg cuvslam_pose_canonical TocuVSLAMPose
                 map_pose_frame_id pose_hint) st Henabled Hdir Hfiles)
    as (tr' & Hinner & Hcalls').
  rewrite Hinner, Hsync in Hrun, Hcalls. rewrite Hsync in Hcalls'.
  cbn [deliver_all fst snd] in Hrun, Hcalls, Hcalls'.
  unfold LocalizeInMap. rewrite Hrun. unfold LocalizeInMap_resume, future_value.
  cbn [localize_promises set_localize_in_exist_db_context].
  rewrite fresh_context_pending. cbn [fmap option_fmap option_map].
  eexists. split; [reflexivity|]. rewrite Hcalls, Hcalls'. reflexivity.
Qed.

(** X17: an accepted [LocalizeInMap] hands the hint to the engine in the
    engine's basis, composed with the transform from the hint's frame to the
    map frame, and waits.  The completion handler releases it: on success
    with the pose the engine found, converted back to the conventions of
    ROS, and the node marked as localized; on any other status with no pose
    and the node marked as not localized. *)
Theorem localize_in_map_released_by_completion (tf : TfEnv) (env : LocalizeEnv)
    (map_folder_path : string) pose_hint (frame : string) st map_pose_frame_id :
  lookupTransform tf (map_frame_ (node st)) frame = Some map_pose_frame_id ->
  enable_localization_n_mapping_ (node st) = true ->
  fs_is_directory env map_folder_path = true ->
  has_lmdb_files (fs_directory_iterator env map_folder_path) = true ->
  localize_completions env = [] ->
  exists st1 tr,
    LocalizeInMap tf_fromMsg cuvslam_pose_canonical TocuVSLAMPose tf env map_folder_path
      pose_hint frame st = (st1, tr, LocalizeInMapBlocks (next_promise st))
    /\ filter is_engine_event tr =
         [EvEngine (CUVSLAM_LocalizeInExistDb map_folder_path
                      (pose_hint_cv tf_fromMsg cuvslam_pose_canonical TocuVSLAMPose
                         map_pose_frame_id pose_hint))]
    /\ forall status pose,
         exists st2 log,
           LocalizeInMap_resume (next_promise st) (deliver (CompleteLocalize status pose) st1).1
             = Some (st2, log,
                     if is_success status
                     then Some (localized_pose (default default_pose pose)) else None)
           /\ localized_in_exist_map_ st2 = is_success status.
Proof.
  intros Hlookup Henabled Hdir Hfiles Hsync.
  destruct (LocalizeInMap_blocks tf env map_folder_path pose_hint frame st _
              Hlookup Henabled Hdir Hfiles Hsync) as (tr & Hrun & Hcalls).
  eexists _, tr. split; [exact Hrun|]. split; [exact Hcalls|].
  intros status pose. cbn [deliver]. unfold LocalizeInExistDbResponse.
  cbn [localize_in_exist_db_context set_localize_in_exist_db_context response_promise
       localize_promises].
  rewrite (set_value_pending _ _ _ (fresh_context_pending st)). cbn [fst].
  unfold LocalizeInMap_resume. cbn [localize_promises set_localize_promises].
  rewrite future_value_insert. destruct (decide _); [|contradiction].
  cbn [fmap option_fmap option_map]. unfold extract_pose_in_ros_conventions, localized_pose.
  cbn [localize_status pose_in_db localize_response].
  destruct (is_success status); cbn [negb]; eexists _, _; split; reflexivity.
Qed.

(** X18: [Exit] releases a caller waiting in [LocalizeInMap]: the call
    returns no pose and the node is marked as not localized. *)
Theorem exit_releases_localize_in_map (tf : TfEnv) (env : LocalizeEnv)
    (map_folder_path : string) pose_hint (frame : string) st map_pose_frame_id :
  lookupTransform tf (map_frame_ (node st)) frame = Some map_pose_frame_id ->
  enable_localization_n_mapping_ (node st) = true ->
  fs_is_directory env map_folder_path = true ->
  has_lmdb_files (fs_directory_iterator env map_folder_path) = true ->
  localize_completions env = [] ->
  exists st1 tr st2 log,
    LocalizeInMap tf_fromMsg cuvslam_pose_canonical TocuVSLAMPose tf env map_folder_path
      pose_hint frame st = (st1, tr, LocalizeInMapBlocks (next_promise st))
    /\ LocalizeInMap_resume (next_promise st) st1 = None
    /\ LocalizeInMap_resume (next_promise st) (Exit st1).1 = Some (st2, log, None)
    /\ localized_in_exist_map_ st2 = false.
Proof.
  intros Hlookup Henabled Hdir Hfiles Hsync.
  destruct (LocalizeInMap_blocks tf env map_folder_path pose_hint frame st _
              Hlookup Henabled Hdir Hfiles Hsync) as (tr & Hrun & Hcalls).
  set (issued := set_localize_in_exist_db_context _ (fresh_context st)) in Hrun.
  assert (Hpending : localize_promises issued
                       !! response_promise (localize_in_exist_db_context issued) = Some None)
    by apply fresh_context_pending.
  destruct (Exit_promises issued) as (Hexit & _). cbn zeta in Hexit. rewrite Hpending in Hexit.
  eexists issued, tr, _, _. split; [exact Hrun|].
  split.
  { unfold LocalizeInMap_resume, future_value.
    change (next_promise st) with (response_promise (localize_in_exist_db_context issued)).
    rewrite Hpending. reflexivity. }
  unfold LocalizeInMap_resume. rewrite Hexit, future_value_insert.
  change (response_promise (localize_in_exist_db_context issued)) with (next_promise st).
  destruct (decide _); [|contradiction]. cbn [fmap option_fmap option_map].
  unfold extract_pose_in_ros_conventions, canonical_failure. cbn [localize_status].
  change (negb (is_success CUVSLAM_CAN_NOT_LOCALIZE)) with true. cbn iota.
  split; reflexivity.
Qed.

End Wrappers.

(** ** Exit *)

(** X19: [Exit] destroys the tracker and the ground constraint exactly when
    they exist, and leaves the object uninitialized with no initial message
    kept.  It does not reset the stamp of the last tick, the two paths, the
    localized flag or the stored localization future. *)
Theorem exit_tears_down_engine st :
  let r := Exit st in
  IsInitialized r.1 = false
  /\ ground_constraint_handle r.1 = None
  /\ initial_imu_message r.1 = None
  /\ initial_camera_info_messages r.1 = ∅
  /\ pose_cache r.1 = pose_cache_Reset (pose_cache st)
  /\ velocity_cache r.1 = velocity_cache_Reset (velocity_cache st)
  /\ filter is_engine_event r.2 =
       match cuvslam_handle st with
       | Some h => [EvEngine (CUVSLAM_DestroyTracker h)]
       | None => []
       end
       ++ match ground_constraint_handle st with
          | Some g => [EvEngine (CUVSLAM_GroundConstraintDestroy g)]
          | None => []
          end
  /\ last_track_ts r.1 = last_track_ts st
  /\ vo_path r.1 = vo_path st
  /\ slam_path r.1 = slam_path st
  /\ localized_in_exist_map_ r.1 = localized_in_exist_map_ st
  /\ localization_future_ r.1 = localization_future_ st.
Proof.
  cbn zeta. unfold Exit, set_value, IsInitialized.
  destruct (cuvslam_handle st) eqn:Hc; cbn; destruct (ground_constraint_handle st) eqn:Hg; cbn;
    destruct (localize_promises st !! _) as [[?|]|]; cbn; rewrite ?Hc, ?Hg;
    repeat split; reflexivity.
Qed.

Lemma Exit_handles st :
  cuvslam_handle (Exit st).1 = None
  /\ ground_constraint_handle (Exit st).1 = None
  /\ localize_in_exist_db_context (Exit st).1 = localize_in_exist_db_context st.
Proof.
  unfold Exit, set_value.
  destruct (cuvslam_handle st) eqn:Hc; cbn; destruct (ground_constraint_handle st) eqn:Hg; cbn;
    destruct (localize_promises st !! _) as [[?|]|]; cbn; rewrite ?Hc, ?Hg; auto.
Qed.

Lemma Exit_without_handles st :
  cuvslam_handle st = None -> ground_constraint_handle st = None -> (Exit st).2 = [].
Proof.
  intros Hc Hg. unfold Exit. rewrite Hc. cbn iota. rewrite Hg. cbn iota.
  destruct (set_value _ _ _); reflexivity.
Qed.

(** X20: a second [Exit] (the destructor runs it again) does nothing that
    can be observed: no engine call, no log line, and every promise keeps
    the value it has. *)
Theorem second_exit_is_silent st :
  let first := Exit st in
  let second := Exit first.1 in
  second.2 = []
  /\ localize_promises second.1 = localize_promises first.1
  /\ save_promises second.1 = save_promises first.1
  /\ IsInitialized second.1 = false.
Proof.
  cbn zeta. destruct (Exit_handles st) as (Hc & Hg & Hctx).
  destruct (Exit_promises st) as (Hfirst & _).
  destruct (Exit_promises (Exit st).1) as (Hsecond & Hsave & _).
  destruct (Exit_handles (Exit st).1) as (Hc2 & _).
  cbn zeta in Hfirst, Hsecond. rewrite Hctx in Hsecond.
  split; [apply Exit_without_handles; assumption|].
  split; [|split; [exact Hsave|unfold IsInitialized; rewrite Hc2; reflexivity]].
  destruct (localize_promises st !! response_promise (localize_in_exist_db_context st))
    as [[response|]|] eqn:Hp.
  - rewrite Hfirst, Hp in Hsecond. congruence.
  - rewrite Hfirst, lookup_insert_eq in Hsecond. congruence.
  - rewrite Hfirst, Hp in Hsecond. congruence.
Qed.

(** ** Initialize *)

Ltac elem_never :=
  repeat match goal with
         | H : _ ∈ [] |- _ => apply elem_of_nil in H; destruct H
         | H : _ ∈ _ :: _ |- _ => apply elem_of_cons in H; destruct H as [H|H]; try discriminate
         | H : _ ∈ _ ++ _ |- _ => apply elem_of_app in H; destruct H as [H|H]
         end.

Lemma GetLatestTransform_setup (tf : TfEnv) target source :
  Forall is_setup_event (GetLatestTransform tf target source).2.
Proof.
  unfold GetLatestTransform.
  destruct (negb _); destruct (lookupTransform tf target source); repeat constructor.
Qed.

Lemma camera_extrinsics_setup (tf : TfEnv) base_frame num_cameras frames
    (entries : list (Z * CameraInfoType)) :
  Forall is_setup_event (camera_extrinsics tf base_frame num_cameras frames entries).2.
Proof.
  induction entries as [|entry rest IH]; cbn [camera_extrinsics]; [constructor|].
  destruct (negb _); [constructor|].
  destruct (frames !! _) as [frame|]; [|constructor].
  pose proof (GetLatestTransform_setup tf base_frame frame) as Hev.
  destruct (GetLatestTransform tf base_frame frame) as [[e|pose] ev]; [exact Hev|].
  destruct (camera_extrinsics _ _ _ _ rest) as [a ev_rest]. cbn [snd] in *.
  apply Forall_app_2; assumption.
Qed.

Lemma camera_rig_setup (tf : TfEnv) st : Forall is_setup_event (camera_rig tf st).2.
Proof.
  unfold camera_rig.
  destruct (if bool_decide _ then _ else _) as [base_frame|]; [|constructor].
  destruct (_ <? 0); [constructor|].
  match goal with
  | |- context [camera_extrinsics ?tf ?b ?n ?frames ?entries] =>
      pose proof (camera_extrinsics_setup tf b n frames entries) as Hev;
      destruct (camera_extrinsics tf b n frames entries) as [[a|] ev]
  end; [exact Hev|].
  destruct (forallb _ _); exact Hev.
Qed.

Lemma imu_extrinsics_setup (tf : TfEnv) base_frame st :
  Forall is_setup_event (imu_extrinsics tf base_frame st).2.
Proof.
  unfold imu_extrinsics. destruct (enable_imu_fusion_ _); [|constructor].
  destruct (initial_imu_message st) as [msg|]; [|constructor].
  match goal with
  | |- context [GetLatestTransform ?tf ?b ?f] =>
      pose proof (GetLatestTransform_setup tf b f) as Hev;
      destruct (GetLatestTransform tf b f) as [[e|pose] ev]
  end; exact Hev.
Qed.

Lemma PrintConfiguration_setup (nd : NodeParams) : Forall is_setup_event (PrintConfiguration nd).
Proof. unfold PrintConfiguration. destruct (enable_imu_fusion_ nd); repeat constructor. Qed.

(** A rig that was built has read one message for each of its cameras. *)
Lemma camera_rig_reads (tf : TfEnv) st base_frame :
  (camera_rig tf st).1 = inr base_frame ->
  forall i, 0 <= i < num_cameras_ (node st) -> is_Some (initial_camera_info_messages st !! i).
Proof.
  unfold camera_rig.
  destruct (if bool_decide _ then _ else _); [|discriminate].
  destruct (_ <? 0); [discriminate|].
  destruct (camera_extrinsics _ _ _ _ _) as [[a|] ev]; [discriminate|].
  destruct (forallb _ _) eqn:Hall; [|discriminate].
  intros _ i Hi. apply Is_true_true, forallb_True in Hall.
  rewrite Forall_seqZ in Hall. specialize (Hall i ltac:(lia)).
  apply bool_decide_unpack in Hall. exact Hall.
Qed.

Lemma imu_extrinsics_reads (tf : TfEnv) base_frame st :
  (imu_extrinsics tf base_frame st).1 = None ->
  enable_imu_fusion_ (node st) = true -> is_Some (initial_imu_message st).
Proof.
  unfold imu_extrinsics. intros Hnone Hfusion. rewrite Hfusion in Hnone.
  destruct (initial_imu_message st); [eauto|discriminate].
Qed.

Lemma camera_extrinsics_present (tf : TfEnv) base_frame num_cameras (frames : list string)
    (entries : list (Z * CameraInfoType)) :
  (forall target source, is_Some (lookupTransform tf target source)) ->
  Forall (fun entry : Z * CameraInfoType => 0 <= entry.1 < num_cameras) entries ->
  num_cameras <= Z.of_nat (length frames) ->
  (camera_extrinsics tf base_frame num_cameras frames entries).1 = None.
Proof.
  intros Htf Hentries Hframes.
  induction Hentries as [|entry rest Hidx _ IH]; [reflexivity|].
  cbn [camera_extrinsics].
  destruct (Z.leb_spec 0 entry.1); [|lia].
  destruct (Z.ltb_spec entry.1 num_cameras); [|lia]. cbn [andb negb].
  destruct (lookup_lt_is_Some_2 frames (Z.to_nat entry.1)) as [frame ->]; [lia|].
  unfold GetLatestTransform. destruct (Htf base_frame frame) as [pose ->].
  destruct (camera_extrinsics _ _ _ _ rest) as [a ev_rest]. exact IH.
Qed.

Lemma size_of_camera_infos (m : gmap Z CameraInfoType) n :
  0 <= n -> (forall i, is_Some (m !! i) <-> 0 <= i < n) -> Z.of_nat (size m) = n.
Proof.
  intros Hn Hkeys. rewrite <- (size_dom (D := gset Z)).
  assert (dom m = list_to_set (seqZ 0 n)) as ->.
  { apply set_eq. intros i.
    rewrite elem_of_dom, elem_of_list_to_set, elem_of_seqZ, Hkeys. lia. }
  rewrite size_list_to_set by apply NoDup_seqZ. rewrite length_seqZ. lia.
Qed.

Lemma camera_info_entries_keys (m : gmap Z CameraInfoType) :
  Forall (fun entry : Z * CameraInfoType => is_Some (m !! entry.1)) (camera_info_entries m).
Proof.
  unfold camera_info_entries. rewrite merge_sort_Permutation.
  apply Forall_forall. intros [i x] Hin. apply elem_of_map_to_list in Hin.
  cbn. eauto.
Qed.

Lemma camera_info_entries_length (m : gmap Z CameraInfoType) :
  length (camera_info_entries m) = size m.
Proof. unfold camera_info_entries. rewrite merge_sort_Permutation. apply length_map_to_list. Qed.

Lemma camera_rig_present (tf : TfEnv) st :
  rig_inputs_present tf st -> exists base_frame, (camera_rig tf st).1 = inr base_frame.
Proof.
  intros (Hn & Hkeys & Hbase & Hframes & _ & Htf). unfold camera_rig.
  assert (Hfirst : exists base_frame,
             (if bool_decide (base_frame_ (node st) = "")
              then camera_info_frame_id <$> initial_camera_info_messages st !! 0
              else Some (base_frame_ (node st))) = Some base_frame).
  { destruct (bool_decide_reflect (base_frame_ (node st) = "")) as [Hempty|_]; [|eauto].
    destruct (proj2 (Hkeys 0)) as [info ->]; [specialize (Hbase Hempty); lia|].
    cbn. eauto. }
  destruct Hfirst as [base_frame ->].
  destruct (Z.ltb_spec (num_cameras_ (node st)) 0); [lia|].
  match goal with
  | |- context [camera_extrinsics ?tf ?b ?n ?frames ?entries] =>
      assert (Hrig : (camera_extrinsics tf b n frames entries).1 = None)
  end.
  { apply camera_extrinsics_present; [exact Htf| |].
    - eapply Forall_impl; [apply camera_info_entries_keys|].
      intros entry Hentry. apply Hkeys, Hentry.
    - destruct (camera_optical_frames_ (node st)) as [|frame frames] eqn:Hparam.
      + rewrite length_map, camera_info_entries_length.
        rewrite (size_of_camera_infos _ _ Hn Hkeys). lia.
      + destruct Hframes as [Hnone|Hlen]; [discriminate|exact Hlen]. }
  destruct (camera_extrinsics _ _ _ _ _) as [a ev]. cbn [fst] in Hrig. subst a.
  rewrite (proj2 (forallb_forall _ _)); [cbn; eauto|].
  intros i Hin. apply list_elem_of_In, elem_of_seqZ in Hin.
  apply bool_decide_eq_true_2, Hkeys. lia.
Qed.

Lemma imu_extrinsics_present (tf : TfEnv) base_frame st :
  rig_inputs_present tf st -> (imu_extrinsics tf base_frame st).1 = None.
Proof.
  intros (_ & _ & _ & _ & Himu & Htf). unfold imu_extrinsics.
  destruct (enable_imu_fusion_ (node st)); [|reflexivity].
  destruct (Himu eq_refl) as [msg ->]. unfold GetLatestTransform.
  match goal with
  | |- context [lookupTransform tf ?b ?f] => destruct (Htf b f) as [pose ->]
  end. reflexivity.
Qed.

Ltac setup_events :=
  repeat first [assumption | apply PrintConfiguration_setup | apply Forall_app_2 | constructor].

(** The ways through [Initialize] on an uninitialized object. *)
Lemma Initialize_cases (env : InitEnv) st :
  IsInitialized st = false ->
  let nd := node st in
  let tf := init_tf env in
  let grounded :=
    if enable_ground_constraint_in_odometry_ nd
    then set_ground_constraint_handle (Some (ground_constraint_created env)) st else st in
  (enable_ground_constraint_in_odometry_ nd = true
   /\ is_success (ground_constraint_create_status env) = false
   /\ Initialize env st =
        (st, [EvInitialize; EvLog INFO "Initializing cuVSLAM.";
              EvEngine CUVSLAM_GroundConstraintCreate;
              EvLog ERROR "Failed to initialize cuVSLAM ground constraint: %d"]))
  \/ ((enable_ground_constraint_in_odometry_ nd = true ->
       is_success (ground_constraint_create_status env) = true)
      /\ exists ev,
           Forall is_setup_event ev
           /\ ((exists a,
                  ((camera_rig tf st).1 = inl a
                   \/ exists base_frame,
                        (camera_rig tf st).1 = inr base_frame
                        /\ (imu_extrinsics tf base_frame st).1 = Some a)
                  /\ Initialize env st = (grounded, ev ++ [abort_event a]))
               \/ (exists base_frame,
                     (camera_rig tf st).1 = inr base_frame
                     /\ (imu_extrinsics tf base_frame st).1 = None
                     /\ Initialize env st =
                          if is_success (create_tracker_status env)
                          then
                            (set_cuvslam_handle (Some (created_tracker env))
                               (set_velocity_cache (velocity_cache_Reset (velocity_cache st))
                                  (set_pose_cache (pose_cache_Reset (pose_cache st)) grounded)),
                             ev ++ [EvEngine CUVSLAM_CreateTracker;
                                    EvLog INFO "Time taken by CUVSLAM_CreateTracker(): %f";
                                    EvLog INFO "cuVSLAM tracker was successfully initialized."]
                                ++ (if localize_on_startup_ nd
                                    then [EvDetachedLocalizeOnStartup] else []))
                          else
                            (grounded,
                             ev ++ [EvEngine CUVSLAM_CreateTracker;
                                    EvLog INFO "Time taken by CUVSLAM_CreateTracker(): %f";
                                    EvLog ERROR "Failed to initialize CUVSLAM tracker: %d"])))).
Proof.
  intros Hinit. cbn zeta. unfold Initialize. rewrite Hinit.
  destruct (enable_ground_constraint_in_odometry_ (node st)) eqn:Hground; cbn [andb].
  - destruct (is_success (ground_constraint_create_status env)) eqn:Hcreated; cbn [negb];
      [|left; auto].
    right. split; [reflexivity|].
    change (camera_rig ?tf (set_ground_constraint_handle _ st)) with (camera_rig tf st).
    pose proof (camera_rig_setup (init_tf env) st) as Hrig.
    destruct (camera_rig (init_tf env) st) as [[a|base_frame] ev_rig]; cbn [fst snd] in *.
    { eexists ([EvInitialize; EvLog INFO "Initializing cuVSLAM.";
                EvEngine CUVSLAM_GroundConstraintCreate] ++ ev_rig).
      split; [setup_events|].
      left. exists a. split; [auto|]. rewrite <- ?app_assoc. reflexivity. }
    change (imu_extrinsics ?tf ?b (set_ground_constraint_handle _ st))
      with (imu_extrinsics tf b st).
    pose proof (imu_extrinsics_setup (init_tf env) base_frame st) as Himu.
    destruct (imu_extrinsics (init_tf env) base_frame st) as [[a|] ev_imu] eqn:Himu_eq;
      cbn [fst snd] in *.
    { eexists ([EvInitialize; EvLog INFO "Initializing cuVSLAM.";
                EvEngine CUVSLAM_GroundConstraintCreate] ++ ev_rig ++ ev_imu).
      split; [setup_events|].
      left. exists a. split; [right; exists base_frame; rewrite Himu_eq; auto|].
      rewrite <- ?app_assoc. reflexivity. }
    eexists ([EvInitialize; EvLog INFO "Initializing cuVSLAM.";
              EvEngine CUVSLAM_GroundConstraintCreate] ++ ev_rig ++ ev_imu
             ++ [EvEngine CUVSLAM_InitDefaultConfiguration] ++ PrintConfiguration (node st)).
    split; [setup_events|].
    right. exists base_frame. split; [reflexivity|]. split; [rewrite Himu_eq; reflexivity|].
    destruct (is_success (create_tracker_status env)); cbn [negb];
      rewrite <- ?app_assoc; reflexivity.
  - right. split; [discriminate|].
    pose proof (camera_rig_setup (init_tf env) st) as Hrig.
    destruct (camera_rig (init_tf env) st) as [[a|base_frame] ev_rig]; cbn [fst snd] in *.
    { eexists ([EvInitialize; EvLog INFO "Initializing cuVSLAM."] ++ ev_rig).
      split; [setup_events|].
      left. exists a. split; [auto|]. rewrite <- ?app_assoc. reflexivity. }
    pose proof (imu_extrinsics_setup (init_tf env) base_frame st) as Himu.
    destruct (imu_extrinsics (init_tf env) base_frame st) as [[a|] ev_imu] eqn:Himu_eq;
      cbn [fst snd] in *.
    { eexists ([EvInitialize; EvLog INFO "Initializing cuVSLAM."] ++ ev_rig ++ ev_imu).
      split; [setup_events|].
      left. exists a. split; [right; exists base_frame; rewrite Himu_eq; auto|].
      rewrite <- ?app_assoc. reflexivity. }
    eexists ([EvInitialize; EvLog INFO "Initializing cuVSLAM."] ++ ev_rig ++ ev_imu
             ++ [EvEngine CUVSLAM_InitDefaultConfiguration] ++ PrintConfiguration (node st)).
    split; [setup_events|].
    right. exists base_frame. split; [reflexivity|]. split; [rewrite Himu_eq; reflexivity|].
    destruct (is_success (create_tracker_status env)); cbn [negb];
      rewrite <- ?app_assoc; reflexivity.
Qed.

Lemma setup_event_never e ev :
  Forall is_setup_event ev -> e ∈ ev -> is_setup_event e = true.
Proof.
  intros Hev Hin. rewrite Forall_forall in Hev. apply Is_true_true, Hev, Hin.
Qed.

Lemma abort_event_is_abort (a : Abort) : is_abort (abort_event a) = true.
Proof. destruct a; reflexivity. Qed.

(** X21: [Initialize] on an uninitialized object.  It ends initialized only
    if the ground constraint (if enabled) was created, one camera-info
    message is stored for each camera of the rig, the IMU message is stored
    if IMU fusion is enabled, and [CUVSLAM_CreateTracker] succeeds; then the
    handle is the new tracker and both caches are reset.  Otherwise the
    caches are left alone and no localization is started.  The tracker is
    only asked for once the ground constraint is there and the stored
    messages have been read; with a stored message missing the function is
    left by an exception or indexes a vector out of bounds.  A ground
    constraint created before a later failure is kept.  When the stored
    messages are those of the cameras of the rig and the tf buffer knows the
    transforms, the tracker is asked for and the object ends initialized
    exactly when [CUVSLAM_CreateTracker] succeeds. *)
Theorem initialize_outcome (env : InitEnv) st :
  IsInitialized st = false ->
  let r := Initialize env st in
  let ground_ready :=
    negb (enable_ground_constraint_in_odometry_ (node st))
    || is_success (ground_constraint_create_status env) in
  (IsInitialized r.1 = true ->
   cuvslam_handle r.1 = Some (created_tracker env)
   /\ pose_cache r.1 = pose_cache_Reset (pose_cache st)
   /\ velocity_cache r.1 = velocity_cache_Reset (velocity_cache st)
   /\ ground_ready = true
   /\ initial_messages_stored st
   /\ is_success (create_tracker_status env) = true)
  /\ (IsInitialized r.1 = false ->
      pose_cache r.1 = pose_cache st /\ velocity_cache r.1 = velocity_cache st)
  /\ (EvEngine CUVSLAM_CreateTracker ∈ r.2 -> ground_ready = true /\ initial_messages_stored st)
  /\ (ground_ready = true -> ~ initial_messages_stored st ->
      exists e, e ∈ r.2 /\ is_abort e = true)
  /\ (EvDetachedLocalizeOnStartup ∈ r.2 <->
      IsInitialized r.1 = true /\ localize_on_startup_ (node st) = true)
  /\ (enable_ground_constraint_in_odometry_ (node st) = true ->
      is_success (ground_constraint_create_status env) = true ->
      ground_constraint_handle r.1 = Some (ground_constraint_created env))
  /\ (ground_ready = true -> rig_inputs_present (init_tf env) st ->
      EvEngine CUVSLAM_CreateTracker ∈ r.2
      /\ IsInitialized r.1 = is_success (create_tracker_status env)).
Proof.
  intros Hinit. cbn zeta.
  destruct (Initialize_cases env st Hinit)
    as [(Hground & Hcreated & ->)
       |(Hground & ev & Hev & [(a & Hleft & ->)|(base_frame & Hrig & Himu & ->)])];
    cbn zeta; unfold IsInitialized in *; cbn [fst snd].
  - rewrite Hground, Hcreated. cbn [negb orb].
    split; [rewrite Hinit; discriminate|]. split; [auto|].
    split; [intros Hin; elem_never|]. split; [discriminate|].
    split; [split; [intros Hin; elem_never|rewrite Hinit; intros [? _]; discriminate]|].
    split; [discriminate|]. discriminate.
  - assert (Hstate : cuvslam_handle
                       (if enable_ground_constraint_in_odometry_ (node st)
                        then set_ground_constraint_handle
                               (Some (ground_constraint_created env)) st
                        else st) = cuvslam_handle st)
      by (destruct (enable_ground_constraint_in_odometry_ (node st)); reflexivity).
    rewrite Hstate, Hinit.
    split; [discriminate|].
    split; [destruct (enable_ground_constraint_in_odometry_ (node st)); auto|].
    split.
    { intros Hin. elem_never; [|destruct a; discriminate].
      apply (setup_event_never _ _ Hev) in Hin. discriminate. }
    split.
    { intros _ _. exists (abort_event a).
      split; [apply elem_of_app; right; apply list_elem_of_here|apply abort_event_is_abort]. }
    split.
    { split; [|intros [? _]; discriminate].
      intros Hin. elem_never; [|destruct a; discriminate].
      apply (setup_event_never _ _ Hev) in Hin. discriminate. }
    split; [intros Henabled _; rewrite Henabled; reflexivity|].
    intros _ Hpresent. exfalso.
    destruct (camera_rig_present _ _ Hpresent) as [base_frame Hrig].
    destruct Hleft as [Hleft|(base_frame' & _ & Hleft)]; [congruence|].
    rewrite (imu_extrinsics_present _ base_frame' _ Hpresent) in Hleft. discriminate.
  - assert (Hready : negb (enable_ground_constraint_in_odometry_ (node st))
                     || is_success (ground_constraint_create_status env) = true).
    { destruct (enable_ground_constraint_in_odometry_ (node st)); [|reflexivity].
      cbn. auto. }
    assert (Hstored : initial_messages_stored st).
    { split; [apply (camera_rig_reads _ _ _ Hrig)|apply (imu_extrinsics_reads _ _ _ Himu)]. }
    assert (Hstate : cuvslam_handle
                       (if enable_ground_constraint_in_odometry_ (node st)
                        then set_ground_constraint_handle
                               (Some (ground_constraint_created env)) st
                        else st) = cuvslam_handle st)
      by (destruct (enable_ground_constraint_in_odometry_ (node st)); reflexivity).
    destruct (is_success (create_tracker_status env)) eqn:Htracker; cbn [fst snd].
    + cbn [cuvslam_handle set_cuvslam_handle].
      split.
      { intros _. split; [reflexivity|].
        destruct (enable_ground_constraint_in_odometry_ (node st)); cbn; auto. }
      split; [intros Hno; apply bool_decide_eq_false in Hno; destruct Hno; discriminate|].
      split; [auto|]. split; [intros _ Hno; destruct (Hno Hstored)|].
      split.
      { split.
        - intros Hin. split; [apply bool_decide_eq_true_2; discriminate|].
          destruct (localize_on_startup_ (node st)); [reflexivity|].
          elem_never. apply (setup_event_never _ _ Hev) in Hin. discriminate.
        - intros [_ ->]. apply elem_of_app. right. apply elem_of_app. right.
          apply list_elem_of_here. }
      split.
      { intros Henabled _. rewrite Henabled. reflexivity. }
      intros _ _. split; [|apply bool_decide_eq_true_2; discriminate].
      apply elem_of_app. right. apply list_elem_of_here.
    + rewrite Hstate, Hinit.
      split; [discriminate|].
      split; [destruct (enable_ground_constraint_in_odometry_ (node st)); auto|].
      split; [auto|]. split; [intros _ Hno; destruct (Hno Hstored)|].
      split.
      { split; [|intros [? _]; discriminate].
        intros Hin. elem_never. apply (setup_event_never _ _ Hev) in Hin. discriminate. }
      split; [intros Henabled _; rewrite Henabled; reflexivity|].
      intros _ _. split; [|reflexivity].
      apply elem_of_app. right. apply list_elem_of_here.
Qed.

(** ** The sensor callbacks *)

Lemma Initialize_keeps_initial_messages (env : InitEnv) st :
  IsInitialized st = false ->
  initial_imu_message (Initialize env st).1 = initial_imu_message st
  /\ initial_camera_info_messages (Initialize env st).1 = initial_camera_info_messages st
  /\ filter is_forwarded (Initialize env st).2 = [].
Proof.
  intros Hinit.
  assert (Hquiet : forall ev, Forall is_setup_event ev ->
                              Forall (fun e => negb (is_forwarded e)) ev).
  { intros ev Hev. eapply Forall_impl; [exact Hev|].
    intros [| [] | | | | | | | | | | |]; cbn; tauto. }
  destruct (Initialize_cases env st Hinit)
    as [(_ & _ & ->)|(_ & ev & Hev & [(a & _ & ->)|(base_frame & _ & _ & ->)])];
    cbn zeta; cbn [fst snd].
  - auto.
  - rewrite filter_app, (filter_none _ _ (Hquiet _ Hev)).
    destruct (enable_ground_constraint_in_odometry_ (node st)); destruct a; auto.
  - destruct (is_success (create_tracker_status env)); cbn [fst snd];
      rewrite filter_app, (filter_none _ _ (Hquiet _ Hev));
      destruct (enable_ground_constraint_in_odometry_ (node st));
      destruct (localize_on_startup_ (node st)); auto.
Qed.

Lemma commands_untouched_refl st : commands_untouched st st.
Proof. repeat split. Qed.

Lemma UpdatePose_no_ingress env (imu_msgs : list ImuType)
    (idx_and_image_msgs : list (Z * ImageType)) st st' tr :
  UpdatePose env imu_msgs idx_and_image_msgs st = Some (st', tr) ->
  filter is_ingress_event tr = [].
Proof.
  intros Hrun. destruct (UpdatePose_latest _ _ _ _ _ _ Hrun) as [latest_ts Hts].
  apply (filter_kinds _ _ _ (UpdatePose_catalogue _ _ _ _ _ _ _ Hrun Hts)).
  intros e. destruct e; cbn; tauto.
Qed.

(** The ticks run by the sequencer keep what a tick keeps and hand nothing
    on. *)
Lemma run_batches_keeps (batches : list FusedBatch) st :
  commands_untouched st (run_batches batches st).1
  /\ filter is_ingress_event (run_batches batches st).2 = [].
Proof.
  revert st. induction batches as [|batch rest IH]; intros st; cbn [run_batches].
  { split; [apply commands_untouched_refl|reflexivity]. }
  destruct (UpdatePose (batch_env batch) (batch_imu_msgs batch) (batch_images batch) st)
    as [[st1 ev1]|] eqn:Hrun; cbn [default from_option id].
  - destruct (IH st1) as [Hkeep Hev].
    destruct (run_batches rest st1) as [st2 ev2]. cbn [fst snd] in *.
    split.
    + eapply commands_untouched_trans; [|exact Hkeep].
      apply (UpdatePose_untouched _ _ _ _ _ _ Hrun).
    + rewrite filter_app, (UpdatePose_no_ingress _ _ _ _ _ _ Hrun), Hev. reflexivity.
  - destruct (IH st) as [Hkeep Hev].
    destruct (run_batches rest st) as [st2 ev2]. cbn [fst snd] in *. auto.
Qed.

Lemma run_batches_app (first_batches more_batches : list FusedBatch) st :
  (run_batches (first_batches ++ more_batches) st).1 =
  (run_batches more_batches (run_batches first_batches st).1).1.
Proof.
  revert st. induction first_batches as [|batch rest IH]; intros st; [reflexivity|].
  cbn [app run_batches].
  destruct (default (st, []) _) as [st1 ev1]. specialize (IH st1).
  destruct (run_batches (rest ++ more_batches) st1).
  destruct (run_batches rest st1). exact IH.
Qed.

Lemma run_groups_hands_on (groups : list SynchronizedGroup) st :
  (run_groups groups st).1 = (run_batches (concat (map group_batches groups)) st).1
  /\ filter is_ingress_event (run_groups groups st).2 = map group_handed_on groups.
Proof.
  revert st. induction groups as [|group rest IH]; intros st; [auto|].
  cbn [run_groups map concat]. unfold CallbackSynchronizedImages.
  rewrite run_batches_app.
  destruct (run_batches_keeps (group_batches group) st) as [_ Hev].
  destruct (run_batches (group_batches group) st) as [st1 ev1].
  destruct (IH st1) as [Hstate Hrest].
  destruct (run_groups rest st1) as [st2 ev2]. cbn [fst snd] in *.
  split; [exact Hstate|].
  rewrite filter_app, Hrest, filter_cons_True by exact I. rewrite Hev. reflexivity.
Qed.

Lemma ingress_initialized (i : Ingress) st :
  IsInitialized st = true ->
  (ingress i st).1 = (run_batches (ticks_of i) st).1
  /\ filter is_ingress_event (ingress i st).2 = handed_on i.
Proof.
  intros Hinit.
  destruct i as [batches msg|groups index image_view|env index msg];
    cbn [ingress ticks_of handed_on];
    unfold CallbackImu, CallbackImage, CallbackCameraInfo; rewrite Hinit; cbn [negb].
  - destruct (run_batches_keeps batches st) as [_ Hev].
    destruct (run_batches batches st) as [st1 ev1]. cbn [fst snd] in *.
    split; [reflexivity|]. rewrite filter_cons_True by exact I. rewrite Hev. reflexivity.
  - destruct (run_groups_hands_on groups st) as [Hstate Hev].
    destruct (run_groups groups st) as [st1 ev1]. cbn [fst snd] in *.
    split; [exact Hstate|]. rewrite filter_cons_True by exact I. rewrite Hev. reflexivity.
  - auto.
Qed.

Lemma untouched_initialized st st' :
  commands_untouched st st' -> IsInitialized st' = IsInitialized st.
Proof. intros (_ & Hhandle & _). unfold IsInitialized. rewrite Hhandle. reflexivity. Qed.

(** The callbacks on an object whose engine exists. *)
Lemma run_ingress_initialized (inputs : list Ingress) st :
  IsInitialized st = true ->
  (run_ingress inputs st).1 = (run_batches (concat (map ticks_of inputs)) st).1
  /\ filter is_ingress_event (run_ingress inputs st).2 = concat (map handed_on inputs).
Proof.
  revert st. induction inputs as [|i inputs IH]; intros st Hinit; [auto|].
  cbn [run_ingress map concat]. rewrite run_batches_app.
  destruct (ingress_initialized i st Hinit) as [Hstate Hev].
  destruct (run_batches_keeps (ticks_of i) st) as [Hkeep _].
  rewrite <- Hstate in Hkeep |- *.
  destruct (ingress i st) as [st1 ev1]. cbn [fst snd] in *.
  destruct (IH st1) as [Hrest Hev_rest].
  { rewrite (untouched_initialized _ _ Hkeep). exact Hinit. }
  destruct (run_ingress inputs st1) as [st2 ev2]. cbn [fst snd] in *.
  split; [exact Hrest|]. rewrite filter_app, Hev, Hev_rest. reflexivity.
Qed.

Lemma filter_forwarded_ingress tr :
  filter is_forwarded tr = filter is_forwarded (filter is_ingress_event tr).
Proof. symmetry. apply list_filter_filter_l. intros e. destruct e; cbn; tauto. Qed.

Lemma filter_forwarded_groups (groups : list SynchronizedGroup) :
  filter is_forwarded (map group_handed_on groups) = [].
Proof.
  induction groups as [|group rest IH]; [reflexivity|].
  cbn [map]. rewrite filter_cons_False by (intros H; exact H). exact IH.
Qed.

Lemma filter_forwarded_handed_on (inputs : list Ingress) :
  filter is_forwarded (concat (map handed_on inputs)) = omap forwarded inputs.
Proof.
  induction inputs as [|i inputs IH]; [reflexivity|].
  cbn [map concat omap list_omap]. rewrite filter_app, IH.
  destruct i as [batches msg|groups index image_view|env index msg];
    cbn [handed_on forwarded]; rewrite ?filter_cons_True by exact I;
    rewrite ?filter_forwarded_groups; reflexivity.
Qed.

(** X22: once the engine exists the callbacks only forward.  Every IMU
    message goes to the sequencer and every image to the synchronizer, in
    the order of arrival; each synchronized group the synchronizer answers
    with goes to the sequencer; camera-info messages are ignored and
    [Initialize] is not entered.  The object changes only by the ticks the
    sequencer runs within these calls, one after the other: with none it is
    not changed at all, and in every case the configuration, the handles,
    the stored initial messages and the localize context are kept. *)
Theorem initialized_callbacks_only_forward (inputs : list Ingress) st :
  IsInitialized st = true ->
  let r := run_ingress inputs st in
  r.1 = (run_batches (concat (map ticks_of inputs)) st).1
  /\ (concat (map ticks_of inputs) = [] -> r.1 = st)
  /\ filter is_forwarded r.2 = omap forwarded inputs
  /\ filter is_ingress_event r.2 = concat (map handed_on inputs)
  /\ commands_untouched st r.1
  /\ IsInitialized r.1 = true.
Proof.
  intros Hinit. cbn zeta.
  destruct (run_ingress_initialized inputs st Hinit) as [Hstate Hev].
  destruct (run_batches_keeps (concat (map ticks_of inputs)) st) as [Hkeep _].
  rewrite <- Hstate in Hkeep.
  split; [exact Hstate|].
  split; [intros Hnone; rewrite Hstate, Hnone; reflexivity|].
  split; [rewrite filter_forwarded_ingress, Hev; apply filter_forwarded_handed_on|].
  split; [exact Hev|]. split; [exact Hkeep|].
  rewrite (untouched_initialized _ _ Hkeep). exact Hinit.
Qed.

(** X23: as long as the object is uninitialized after a run of callbacks,
    nothing has been forwarded; the IMU message kept is the last one that
    arrived and the camera-info messages are kept by camera index, a later
    one replacing an earlier one of the same camera. *)
Theorem uninitialized_callbacks_only_store (inputs : list Ingress) st :
  IsInitialized (run_ingress inputs st).1 = false ->
  filter is_forwarded (run_ingress inputs st).2 = []
  /\ initial_imu_message (run_ingress inputs st).1 = latest_imu inputs (initial_imu_message st)
  /\ initial_camera_info_messages (run_ingress inputs st).1
     = stored_camera_infos inputs (initial_camera_info_messages st).
Proof.
  revert st. induction inputs as [|i inputs IH]; intros st Hend; [cbn; auto|].
  destruct (IsInitialized st) eqn:Hinit.
  { destruct (run_ingress_initialized (i :: inputs) st Hinit) as [Hstate _].
    destruct (run_batches_keeps (concat (map ticks_of (i :: inputs))) st) as [Hkeep _].
    rewrite <- Hstate in Hkeep. rewrite (untouched_initialized _ _ Hkeep) in Hend.
    congruence. }
  cbn [run_ingress] in *.
  assert (Hstep : filter is_forwarded (ingress i st).2 = []
                  /\ initial_imu_message (ingress i st).1
                     = match i with OnImu _ msg => Some msg | _ => initial_imu_message st end
                  /\ initial_camera_info_messages (ingress i st).1
                     = match i with
                       | OnCameraInfo _ index msg => <[index := msg]> (initial_camera_info_messages st)
                       | _ => initial_camera_info_messages st
                       end).
  { destruct i as [batches msg|groups index image_view|env index msg]; cbn [ingress];
      unfold CallbackImu, CallbackImage, CallbackCameraInfo; rewrite Hinit; cbn [negb];
      [auto..|].
    destruct (IsReadyForInitialization _); [|auto].
    destruct (Initialize_keeps_initial_messages env
                (set_initial_camera_info_messages
                   (<[index := msg]> (initial_camera_info_messages st)) st) Hinit)
      as (-> & -> & ->).
    auto. }
  destruct (ingress i st) as [st1 ev1]. specialize (IH st1).
  destruct (run_ingress inputs st1) as [st2 ev2]. cbn [fst snd] in *.
  destruct (IH Hend) as (Hev & Himu & Hinfo). destruct Hstep as (Hev1 & Himu1 & Hinfo1).
  rewrite filter_app, Hev, Hev1, Himu, Hinfo, Himu1, Hinfo1.
  unfold latest_imu, stored_camera_infos. cbn [foldl]. auto.
Qed.

End MoreProperties.

(** ** The image borders *)

Lemma std_clamp_range v hi : 0 <= hi -> 0 <= std_clamp v 0 hi <= hi.
Proof.
  intros Hhi. unfold std_clamp.
  destruct (Z.ltb_spec v 0); [lia|]. destruct (Z.ltb_spec hi v); lia.
Qed.

Lemma std_clamp_inside v hi : 0 <= v <= hi -> std_clamp v 0 hi = v.
Proof.
  intros Hv. unfold std_clamp.
  destruct (Z.ltb_spec v 0); [lia|]. destruct (Z.ltb_spec hi v); lia.
Qed.

Lemma std_clamp_above v hi : 0 <= hi < v -> std_clamp v 0 hi = hi.
Proof.
  intros Hv. unfold std_clamp.
  destruct (Z.ltb_spec v 0); [lia|]. destruct (Z.ltb_spec hi v); lia.
Qed.

Lemma uint32_small z : is_uint32 z -> uint32 z = z.
Proof. unfold is_uint32, uint32. intros Hz. apply Z.mod_small. exact Hz. Qed.

(** The remainder of a region that runs past the image wraps around. *)
Lemma uint32_remainder_wraps size offset extent :
  is_uint32 size -> is_uint32 offset -> is_uint32 extent ->
  size < offset + extent < 2 ^ 32 ->
  size < uint32 (uint32 (size - offset) - extent).
Proof.
  unfold is_uint32, uint32. change (2 ^ 32) with 4294967296.
  intros Hsize Hoffset Hextent Hover.
  destruct (Z_lt_le_dec (size - offset) 0) as [Hneg|Hpos].
  - assert (Hinner : (size - offset) mod 4294967296 = size - offset + 4294967296).
    { symmetry. apply (Z.mod_unique _ _ (-1)); lia. }
    rewrite Hinner. rewrite Z.mod_small; lia.
  - rewrite (Z.mod_small (size - offset)) by lia.
    assert (Houter : (size - offset - extent) mod 4294967296
                     = size - offset - extent + 4294967296).
    { symmetry. apply (Z.mod_unique _ _ (-1)); lia. }
    rewrite Houter. lia.
Qed.

(** X24: whatever the parameters and the region of interest are, each
    border handed to the engine lies between 0 and the size of the image in
    its direction. *)
Theorem borders_lie_within_image (p : BorderParams) (i : Z) (roi : RegionOfInterest)
    (img_width img_height : Z) :
  0 <= img_width -> 0 <= img_height ->
  let b := camera_borders p i roi img_width img_height in
  0 <= border_top b <= img_height /\ 0 <= border_bottom b <= img_height
  /\ 0 <= border_left b <= img_width /\ 0 <= border_right b <= img_width.
Proof.
  intros Hw Hh. cbn zeta. unfold camera_borders.
  destruct (negb (rectified_images_ p) && _); [destruct (Z.rem i 2 =? 0)|];
    cbn [border_top border_bottom border_left border_right];
    auto using std_clamp_range.
Qed.

(** X25: without border masks, a region of interest that lies inside the
    image gives its offsets as the top and left borders and what remains of
    the image as the bottom and right borders; the default region (all
    zero) stands for the full image and gives no border at all. *)
Theorem region_of_interest_inside_image (p : BorderParams) (i : Z) (roi : RegionOfInterest)
    (img_width img_height : Z) :
  mask_mode p = false ->
  is_uint32 img_width -> is_uint32 img_height -> roi_is_uint32 roi ->
  let region := effective_roi roi img_width img_height in
  x_offset region + roi_width region <= img_width ->
  y_offset region + roi_height region <= img_height ->
  let b := camera_borders p i roi img_width img_height in
  border_top b = y_offset region
  /\ border_bottom b = img_height - y_offset region - roi_height region
  /\ border_left b = x_offset region
  /\ border_right b = img_width - x_offset region - roi_width region
  /\ (roi = {| x_offset := 0; y_offset := 0; roi_height := 0; roi_width := 0 |} ->
      b = {| border_top := 0; border_bottom := 0; border_left := 0; border_right := 0 |}).
Proof.
  intros Hmode Hw Hh (Hx & Hy & Hrh & Hrw). cbn zeta. intros Hfitx Hfity.
  unfold camera_borders. unfold mask_mode in Hmode. rewrite Hmode.
  cbn [border_top border_bottom border_left border_right].
  assert (Hregion : is_uint32 (x_offset (effective_roi roi img_width img_height))
                    /\ is_uint32 (y_offset (effective_roi roi img_width img_height))
                    /\ is_uint32 (roi_height (effective_roi roi img_width img_height))
                    /\ is_uint32 (roi_width (effective_roi roi img_width img_height))).
  { unfold effective_roi.
    match goal with |- context [if ?c then _ else _] => destruct c end;
      cbn [x_offset y_offset roi_height roi_width]; auto. }
  destruct Hregion as (Hx' & Hy' & Hrh' & Hrw').
  set (region := effective_roi roi img_width img_height) in *.
  unfold is_uint32 in *.
  assert (Hbottom : uint32 (uint32 (img_height - y_offset region) - roi_height region)
                    = img_height - y_offset region - roi_height region).
  { rewrite (uint32_small (img_height - y_offset region)) by (unfold is_uint32; lia).
    apply uint32_small. unfold is_uint32. lia. }
  assert (Hright : uint32 (uint32 (img_width - x_offset region) - roi_width region)
                   = img_width - x_offset region - roi_width region).
  { rewrite (uint32_small (img_width - x_offset region)) by (unfold is_uint32; lia).
    apply uint32_small. unfold is_uint32. lia. }
  rewrite Hbottom, Hright, !std_clamp_inside by lia.
  repeat split; try reflexivity.
  intros ->. subst region. unfold effective_roi in *. cbn in *. f_equal; lia.
Qed.

(** In unsigned arithmetic the remainder of the image past the region is
    the remainder past the edge of the region, itself computed unsigned. *)
Lemma uint32_remainder size offset extent :
  uint32 (uint32 (size - offset) - extent) = uint32 (size - uint32 (offset + extent)).
Proof.
  unfold uint32. rewrite Zminus_mod_idemp_l, Zminus_mod_idemp_r. f_equal. lia.
Qed.

Lemma remainder_border size offset extent :
  is_uint32 size ->
  std_clamp (uint32 (uint32 (size - offset) - extent)) 0 size =
  if uint32 (offset + extent) <=? size then size - uint32 (offset + extent) else size.
Proof.
  unfold is_uint32. intros Hsize. rewrite uint32_remainder.
  assert (Hedge : 0 <= uint32 (offset + extent) < 2 ^ 32)
    by (unfold uint32; apply Z.mod_pos_bound; lia).
  destruct (Z.leb_spec (uint32 (offset + extent)) size) as [Hin|Hout].
  - unfold uint32 at 1. rewrite Z.mod_small by lia. apply std_clamp_inside. lia.
  - apply std_clamp_above. split; [lia|]. unfold uint32 at 1.
    assert (Hwrap : (size - uint32 (offset + extent)) mod 2 ^ 32
                    = size - uint32 (offset + extent) + 2 ^ 32).
    { symmetry. apply (Z.mod_unique _ _ (-1)); lia. }
    lia.
Qed.

(** X26: without border masks the bottom (right) border is what remains of
    the image below (right of) the far edge of the region, where the edge,
    offset plus extent, is computed in 32-bit unsigned arithmetic: an edge
    inside the image leaves the remainder, an edge past the image gives a
    border as large as the image.  So a region that runs past the image,
    with offset plus extent below 2^32, masks the whole image; when offset
    plus extent reaches 2^32 the edge wraps around and the border follows
    the wrapped edge. *)
Theorem region_past_the_image_masks_it (p : BorderParams) (i : Z) (roi : RegionOfInterest)
    (img_width img_height : Z) :
  mask_mode p = false ->
  is_uint32 img_width -> is_uint32 img_height -> roi_is_uint32 roi ->
  let region := effective_roi roi img_width img_height in
  let bottom_edge := uint32 (y_offset region + roi_height region) in
  let right_edge := uint32 (x_offset region + roi_width region) in
  let b := camera_borders p i roi img_width img_height in
  border_bottom b = (if bottom_edge <=? img_height then img_height - bottom_edge
                     else img_height)
  /\ border_right b = (if right_edge <=? img_width then img_width - right_edge
                       else img_width)
  /\ (img_height < y_offset roi + roi_height roi < 2 ^ 32 -> border_bottom b = img_height)
  /\ (img_width < x_offset roi + roi_width roi < 2 ^ 32 -> border_right b = img_width).
Proof.
  intros Hmode Hw Hh (Hx & Hy & Hrh & Hrw). cbn zeta.
  unfold camera_borders. unfold mask_mode in Hmode. rewrite Hmode.
  cbn [border_bottom border_right].
  split; [apply remainder_border, Hh|]. split; [apply remainder_border, Hw|].
  assert (Hsame : (y_offset roi + roi_height roi <> 0 \/ x_offset roi + roi_width roi <> 0) ->
                  effective_roi roi img_width img_height = roi).
  { intros Hnonzero. unfold effective_roi.
    destruct (Z.eqb_spec (x_offset roi) 0); destruct (Z.eqb_spec (y_offset roi) 0);
      destruct (Z.eqb_spec (roi_width roi) 0); destruct (Z.eqb_spec (roi_height roi) 0);
      cbn [andb]; try reflexivity. lia. }
  unfold is_uint32 in Hw, Hh.
  split; intros Hover; rewrite Hsame by lia; apply std_clamp_above;
    (split; [lia|]); apply uint32_remainder_wraps; assumption.
Qed.

(** X27: with border masks in force (unrectified images and some mask not
    zero) the region of interest plays no part, and a camera with an odd
    index gets the left and right masks of the even cameras swapped: the
    right camera of a stereo pair mirrors the left one. *)
Theorem border_masks_mirror_odd_cameras (p : BorderParams) (i j : Z)
    (roi_i roi_j : RegionOfInterest) (img_width img_height : Z) :
  mask_mode p = true ->
  Z.rem i 2 = 0 -> Z.rem j 2 <> 0 ->
  let even := camera_borders p i roi_i img_width img_height in
  let odd := camera_borders p j roi_j img_width img_height in
  border_top even = std_clamp (uint32 (border_mask_top_ p)) 0 img_height
  /\ border_bottom even = std_clamp (uint32 (border_mask_bottom_ p)) 0 img_height
  /\ border_left even = std_clamp (uint32 (border_mask_left_ p)) 0 img_width
  /\ border_right even = std_clamp (uint32 (border_mask_right_ p)) 0 img_width
  /\ border_top odd = border_top even
  /\ border_bottom odd = border_bottom even
  /\ border_left odd = border_right even
  /\ border_right odd = border_left even.
Proof.
  intros Hmode Heven Hodd. cbn zeta. unfold camera_borders.
  unfold mask_mode in Hmode. rewrite Hmode, Heven.
  destruct (Z.eqb_spec (Z.rem j 2) 0) as [Hj|_]; [contradiction|].
  cbn. repeat split; reflexivity.
Qed.

(** * The further properties on concrete runs *)

Section MoreRuns.

Import StandIn StandInInputs.

#[local] Existing Instance StandIn.collaborators.

Lemma latest_image_stamp_is_maximum_witness :
  latest_image_stamp [(0, image 100 1); (1, image 120 2)] = Some 120
  /\ (exists msg, msg ∈ [(0, image 100 1); (1, image 120 2)] /\ image_stamp msg.2 = 120)
  /\ Forall (fun msg => image_stamp msg.2 <= 120) [(0, image 100 1); (1, image 120 2)].
Proof.
  split; [reflexivity|].
  exact (latest_image_stamp_is_maximum [(0, image 100 1); (1, image 120 2)] 120 eq_refl).
Defined.

Lemma tick_leaves_commands_alone_witness :
  let blocked := (SaveMap (save_env CUVSLAM_SUCCESS []) "/maps/lab" running).1.1 in
  exists st' tr,
    UpdatePose tick_completing_save [imu 90] (stereo 100) blocked = Some (st', tr)
    /\ commands_untouched blocked st'
    /\ future_value 1 (save_promises blocked) = None
    /\ future_value 1 (save_promises st') = Some {| save_status := CUVSLAM_SUCCESS |}
    /\ localize_promises st' = localize_promises blocked
    /\ Forall is_tick_call tr.
Proof.
  cbn zeta.
  destruct (UpdatePose_runs tick_completing_save [imu 90] (stereo 100)
              (SaveMap (save_env CUVSLAM_SUCCESS []) "/maps/lab" running).1.1)
    as (st' & tr & Hrun); [discriminate|].
  exists st', tr. split; [exact Hrun|].
  destruct (tick_leaves_commands_alone _ _ _ _ _ _ Hrun) as (Hkeep & Hlocalize & Hsave & Hcalls).
  split; [exact Hkeep|]. split; [vm_compute; reflexivity|].
  split; [rewrite Hsave; vm_compute; reflexivity|].
  split; [rewrite Hlocalize; vm_compute; reflexivity|exact Hcalls].
Defined.

Lemma tick_publications_share_one_stamp_witness :
  latest_image_stamp (stereo 100) = Some 100
  /\ exists st' tr,
       UpdatePose (tick CUVSLAM_SUCCESS 5 never_ready) [imu 90] (stereo 100) running
         = Some (st', tr)
       /\ forall e stamp_ns, e ∈ tr -> publication_stamp e = Some stamp_ns -> stamp_ns = 100.
Proof.
  split; [reflexivity|].
  destruct (UpdatePose_runs (tick CUVSLAM_SUCCESS 5 never_ready) [imu 90] (stereo 100) running)
    as (st' & tr & Hrun); [discriminate|].
  exists st', tr. split; [exact Hrun|].
  exact (tick_publications_share_one_stamp _ _ _ _ _ _ 100 Hrun eq_refl).
Defined.

Lemma first_tick_has_no_jitter_warning_witness :
  last_track_ts running = -1
  /\ exists st' tr,
       UpdatePose (tick CUVSLAM_SUCCESS 5 never_ready) [imu 90] (stereo 5000000000) running
         = Some (st', tr)
       /\ filter is_jitter_warning tr = [].
Proof.
  split; [reflexivity|].
  destruct (UpdatePose_runs (tick CUVSLAM_SUCCESS 5 never_ready) [imu 90] (stereo 5000000000)
              running) as (st' & tr & Hrun); [discriminate|].
  exists st', tr. split; [exact Hrun|].
  exact (first_tick_has_no_jitter_warning _ _ _ running st' tr eq_refl Hrun).
Defined.

Lemma slam_pose_and_gravity_are_asked_on_demand_witness :
  exists st' tr,
    UpdatePose (tick CUVSLAM_SUCCESS 5 never_ready) [imu 90] (stereo 100) running_without_mapping
      = Some (st', tr)
    /\ EvEngine CUVSLAM_GetSlamPose ∉ tr.
Proof.
  destruct (UpdatePose_runs (tick CUVSLAM_SUCCESS 5 never_ready) [imu 90] (stereo 100)
              running_without_mapping) as (st' & tr & Hrun); [discriminate|].
  exists st', tr. split; [exact Hrun|]. intros Hin.
  destruct (slam_pose_and_gravity_are_asked_on_demand _ _ _ _ _ _ Hrun) as (Hslam & _).
  destruct (Hslam Hin) as [Henabled _]. discriminate Henabled.
Defined.

Lemma completed_tick_records_pose_witness :
  stereo 100 <> []
  /\ tick_completes (tick CUVSLAM_SUCCESS 5 never_ready) running
  /\ exists st' tr,
       UpdatePose (tick CUVSLAM_SUCCESS 5 never_ready) [imu 90] (stereo 100) running
         = Some (st', tr)
       /\ pose_cache st' = [(100, 5)]
       /\ last_track_ts st' = 100.
Proof.
  assert (Hcompletes : tick_completes (tick CUVSLAM_SUCCESS 5 never_ready) running).
  { split; [reflexivity|]. split; [eexists; reflexivity|]. intros _. reflexivity. }
  split; [discriminate|]. split; [exact Hcompletes|].
  destruct (completed_tick_records_pose (tick CUVSLAM_SUCCESS 5 never_ready) [imu 90]
              (stereo 100) running)
    as (st' & tr & latest_ts & pose & Hrun & Hts & Hpose & Hcache & _ & _ & Hlast);
    [discriminate|exact Hcompletes|].
  vm_compute in Hts. injection Hts as <-. vm_compute in Hpose. injection Hpose as <-.
  exists st', tr. split; [exact Hrun|]. split; [exact Hcache|exact Hlast].
Defined.

Lemma aborted_tick_drops_pose_witness :
  stereo 100 <> []
  /\ tick_aborts tick_without_slam_pose running
  /\ exists st' tr,
       UpdatePose tick_without_slam_pose [imu 90] (stereo 100) running = Some (st', tr)
       /\ filter is_publication tr = []
       /\ pose_cache st' = []
       /\ last_track_ts st' = -1.
Proof.
  assert (Haborts : tick_aborts tick_without_slam_pose running).
  { split; [reflexivity|]. right. split; [reflexivity|discriminate]. }
  split; [discriminate|]. split; [exact Haborts|].
  destruct (aborted_tick_drops_pose tick_without_slam_pose [imu 90] (stereo 100) running)
    as (st' & tr & Hrun & Hquiet & Hcache & _ & _ & _ & _ & Hlast);
    [discriminate|exact Haborts|].
  exists st', tr. split; [exact Hrun|]. split; [exact Hquiet|].
  split; [exact Hcache|exact Hlast].
Defined.

Lemma tick_pose_messages_witness :
  exists st' tr,
    UpdatePose (tick CUVSLAM_SUCCESS 5 never_ready) [imu 90] (stereo 100) running = Some (st', tr)
    /\ forall msg,
         EvPublish tracking_vo_pose_pub_ msg ∈ tr ->
         exists m, msg = MsgPoseStamped m /\ pose_stamped_pose m = 5.
Proof.
  destruct (UpdatePose_runs (tick CUVSLAM_SUCCESS 5 never_ready) [imu 90] (stereo 100) running)
    as (st' & tr & Hrun); [discriminate|].
  exists st', tr. split; [exact Hrun|]. intros msg Hin.
  destruct (tick_pose_messages _ _ _ _ _ _ Hrun) as (Hvo & _).
  destruct (Hvo msg Hin) as (pose & m & Hpose & Hmsg & Hm).
  vm_compute in Hpose. injection Hpose as <-. exists m. split; [exact Hmsg|exact Hm].
Defined.

Lemma paths_grow_only_with_subscribers_witness :
  exists st' tr,
    UpdatePose (tick CUVSLAM_SUCCESS 5 never_ready) [imu 90] (stereo 100) running
      = Some (st', tr)
    /\ vo_path st' =
         [{| pose_stamped_header := {| stamp := 100; frame_id := "odom" |};
             pose_stamped_pose := 5 |}]
    /\ slam_path st' =
         [{| pose_stamped_header := {| stamp := 100; frame_id := "map" |};
             pose_stamped_pose := 5 |}]
    /\ (forall msg, EvPublish tracking_vo_path_pub_ msg ∈ tr ->
          exists h, msg = MsgPath h
                            [{| pose_stamped_header := {| stamp := 100; frame_id := "odom" |};
                                pose_stamped_pose := 5 |}]).
Proof.
  destruct (UpdatePose_runs (tick CUVSLAM_SUCCESS 5 never_ready) [imu 90] (stereo 100)
              running) as (st' & tr & Hrun); [discriminate|].
  exists st', tr. split; [exact Hrun|].
  destruct (paths_grow_only_with_subscribers _ _ _ _ _ _ Hrun)
    as (_ & _ & Hadded & Hpublished & _).
  assert (Hcompletes : tick_completes (tick CUVSLAM_SUCCESS 5 never_ready) running).
  { split; [reflexivity|]. split; [eexists; reflexivity|]. intros _. reflexivity. }
  destruct (Hadded 100 5 Hcompletes eq_refl eq_refl) as (Hvo & Hslam).
  pose proof (Hvo eq_refl) as Hvo_path. pose proof (Hslam eq_refl) as Hslam_path.
  split; [exact Hvo_path|]. split; [exact Hslam_path|].
  intros msg Hin. destruct (Hpublished msg Hin) as (_ & _ & h & Hmsg).
  exists h. rewrite Hmsg, Hvo_path. reflexivity.
Defined.

Lemma tick_status_and_diagnostics_witness :
  exists st' tr,
    UpdatePose (tick CUVSLAM_TRACKING_LOST 5 never_ready) [imu 90] (stereo 100) running
      = Some (st', tr)
    /\ (forall msg,
          EvPublish visual_slam_status_pub_ msg ∈ tr ->
          exists m, msg = MsgVisualSlamStatus m /\ vo_state m = 2)
    /\ (forall msg,
          EvPublish diagnostics_pub_ msg ∈ tr ->
          exists m, msg = MsgDiagnostics m /\ diag_level m = DIAG_WARN
                    /\ diag_localized_in_exist_map m = "No").
Proof.
  destruct (UpdatePose_runs (tick CUVSLAM_TRACKING_LOST 5 never_ready) [imu 90] (stereo 100)
              running) as (st' & tr & Hrun); [discriminate|].
  exists st', tr. split; [exact Hrun|].
  destruct (tick_status_and_diagnostics _ _ _ _ _ _ Hrun) as (Hstatus & Hdiag).
  split.
  - intros msg Hin. destruct (Hstatus msg Hin) as (m & Hmsg & Hstate & _).
    exists m. split; [exact Hmsg|exact Hstate].
  - intros msg Hin. destruct (Hdiag msg Hin) as (m & Hmsg & _ & Hlevel & Hflag).
    exists m. split; [exact Hmsg|]. split; [exact Hlevel|exact Hflag].
Defined.

Lemma save_map_returns_handler_status_witness :
  enable_localization_n_mapping_ (node running) = true
  /\ (exists st1 tr,
        SaveMap (save_env CUVSLAM_SUCCESS [CompleteSave 1 CUVSLAM_GENERIC_ERROR]) "/maps/lab"
          running = (st1, tr, SaveMapReturns CUVSLAM_GENERIC_ERROR))
  /\ (exists st1 tr log,
        SaveMap (save_env CUVSLAM_SUCCESS []) "/maps/lab" running = (st1, tr, SaveMapBlocks 1)
        /\ SaveMap_resume 1 st1 = None
        /\ SaveMap_resume 1 (deliver (CompleteSave 1 CUVSLAM_GENERIC_ERROR) st1).1
           = Some (SaveMapReturns CUVSLAM_GENERIC_ERROR, log)).
Proof.
  split; [reflexivity|].
  exact (save_map_returns_handler_status "/maps/lab" running CUVSLAM_GENERIC_ERROR eq_refl).
Defined.

Lemma second_completion_is_rejected_witness :
  localize_promises constructed !! 0%nat = Some None
  /\ let first := deliver (CompleteLocalize CUVSLAM_SUCCESS (Some 5)) constructed in
     let second := deliver (CompleteLocalize CUVSLAM_GENERIC_ERROR None) first.1 in
     first.2 = []
     /\ second = (first.1, [EvUncaught promise_already_satisfied])
     /\ future_value 0%nat (localize_promises second.1)
        = Some (localize_response CUVSLAM_SUCCESS (Some 5)).
Proof.
  assert (Hpending : localize_promises constructed !! 0%nat = Some None)
    by (vm_compute; reflexivity).
  split; [exact Hpending|].
  exact (second_completion_is_rejected constructed CUVSLAM_SUCCESS (Some 5)
           CUVSLAM_GENERIC_ERROR None Hpending).
Defined.

Lemma accepted_localize_request_completes_witness :
  enable_localization_n_mapping_ (node running) = true
  /\ fs_is_directory (localize_env CUVSLAM_SUCCESS []) "/maps/lab" = true
  /\ has_lmdb_files (fs_directory_iterator (localize_env CUVSLAM_SUCCESS []) "/maps/lab") = true
  /\ let r := CuvslamInternalLocalizeInMapAsync (localize_env CUVSLAM_SUCCESS [])
                "/maps/lab" 5 running in
     pose_storage (localize_in_exist_db_context r.1.1) = 5
     /\ filter is_engine_event r.1.2 = [EvEngine (CUVSLAM_LocalizeInExistDb "/maps/lab" 5)]
     /\ future_value r.2 (localize_promises r.1.1) = None
     /\ exists response,
          future_value r.2
            (localize_promises (deliver (CompleteLocalize CUVSLAM_SUCCESS (Some 9)) r.1.1).1)
            = Some response
          /\ localize_status response = CUVSLAM_SUCCESS
          /\ pose_in_db response = 9.
Proof.
  split; [reflexivity|]. split; [reflexivity|]. split; [reflexivity|].
  exact (accepted_localize_request_completes (localize_env CUVSLAM_SUCCESS []) "/maps/lab" 5
           running CUVSLAM_SUCCESS (Some 9) eq_refl eq_refl eq_refl eq_refl).
Defined.

Lemma localize_in_map_throws_without_transform_witness :
  lookupTransform empty_tf_tree (map_frame_ (node running)) "odom" = None
  /\ exists tr,
       LocalizeInMap tf_fromMsg cuvslam_pose_canonical TocuVSLAMPose empty_tf_tree
         (localize_env CUVSLAM_SUCCESS []) "/maps/lab" 2 "odom" running
         = (running, tr, LocalizeInMapThrows transform_not_found)
       /\ filter is_engine_event tr = [].
Proof.
  split; [reflexivity|].
  exact (localize_in_map_throws_without_transform tf_fromMsg cuvslam_pose_canonical
           TocuVSLAMPose empty_tf_tree (localize_env CUVSLAM_SUCCESS []) "/maps/lab" 2 "odom"
           running eq_refl).
Defined.

Lemma localize_in_map_fails_fast_witness :
  lookupTransform tf_tree (map_frame_ (node running)) "odom" = Some 3
  /\ has_lmdb_files (fs_directory_iterator empty_folder "/maps/lab") = false
  /\ exists st' tr,
       LocalizeInMap tf_fromMsg cuvslam_pose_canonical TocuVSLAMPose tf_tree empty_folder
         "/maps/lab" 2 "odom" running = (st', tr, LocalizeInMapReturns None)
       /\ filter is_engine_event tr = []
       /\ localized_in_exist_map_ st' = false.
Proof.
  split; [reflexivity|]. split; [reflexivity|].
  exact (localize_in_map_fails_fast tf_fromMsg cuvslam_pose_canonical TocuVSLAMPose tf_tree
           empty_folder "/maps/lab" 2 "odom" running 3 eq_refl
           (or_intror (or_intror eq_refl))).
Defined.

Lemma localize_in_map_released_by_completion_witness :
  lookupTransform tf_tree (map_frame_ (node running)) "odom" = Some 3
  /\ enable_localization_n_mapping_ (node running) = true
  /\ exists st1 tr,
       LocalizeInMap tf_fromMsg cuvslam_pose_canonical TocuVSLAMPose tf_tree
         (localize_env CUVSLAM_SUCCESS []) "/maps/lab" 2 "odom" running
         = (st1, tr, LocalizeInMapBlocks 1)
       /\ filter is_engine_event tr = [EvEngine (CUVSLAM_LocalizeInExistDb "/maps/lab" 5)]
       /\ (exists st2 log,
             LocalizeInMap_resume 1 (deliver (CompleteLocalize CUVSLAM_SUCCESS (Some 9)) st1).1
               = Some (st2, log, Some 9)
             /\ localized_in_exist_map_ st2 = true)
       /\ (exists st2 log,
             LocalizeInMap_resume 1
               (deliver (CompleteLocalize CUVSLAM_CAN_NOT_LOCALIZE None) st1).1
               = Some (st2, log, None)
             /\ localized_in_exist_map_ st2 = false).
Proof.
  split; [reflexivity|]. split; [reflexivity|].
  destruct (localize_in_map_released_by_completion tf_fromMsg cuvslam_pose_canonical
              TocuVSLAMPose tf_tree (localize_env CUVSLAM_SUCCESS []) "/maps/lab" 2 "odom"
              running 3 eq_refl eq_refl eq_refl eq_refl eq_refl)
    as (st1 & tr & Hrun & Hcalls & Hrelease).
  exists st1, tr. split; [exact Hrun|]. split; [exact Hcalls|].
  split; [exact (Hrelease CUVSLAM_SUCCESS (Some 9))
         |exact (Hrelease CUVSLAM_CAN_NOT_LOCALIZE None)].
Defined.

Lemma exit_releases_localize_in_map_witness :
  lookupTransform tf_tree (map_frame_ (node running)) "odom" = Some 3
  /\ enable_localization_n_mapping_ (node running) = true
  /\ exists st1 tr st2 log,
       LocalizeInMap tf_fromMsg cuvslam_pose_canonical TocuVSLAMPose tf_tree
         (localize_env CUVSLAM_SUCCESS []) "/maps/lab" 2 "odom" running
         = (st1, tr, LocalizeInMapBlocks 1)
       /\ LocalizeInMap_resume 1 st1 = None
       /\ LocalizeInMap_resume 1 (Exit st1).1 = Some (st2, log, None)
       /\ localized_in_exist_map_ st2 = false.
Proof.
  split; [reflexivity|]. split; [reflexivity|].
  exact (exit_releases_localize_in_map tf_fromMsg cuvslam_pose_canonical TocuVSLAMPose tf_tree
           (localize_env CUVSLAM_SUCCESS []) "/maps/lab" 2 "odom" running 3
           eq_refl eq_refl eq_refl eq_refl eq_refl).
Defined.

Lemma initialize_outcome_witness :
  IsInitialized ready_to_initialize = false
  /\ rig_inputs_present (init_tf init_ok) ready_to_initialize
  /\ IsInitialized (Initialize init_ok ready_to_initialize).1 = true
  /\ cuvslam_handle (Initialize init_ok ready_to_initialize).1 = Some 7%nat
  /\ EvEngine CUVSLAM_CreateTracker ∈ (Initialize init_without_tracker ready_to_initialize).2
  /\ IsInitialized (Initialize init_without_tracker ready_to_initialize).1 = false
  /\ IsInitialized constructed = false
  /\ (exists e, e ∈ (Initialize init_ok constructed).2 /\ is_abort e = true).
Proof.
  assert (Hpresent : forall tf, (forall target source, is_Some (lookupTransform tf target source)) ->
                                rig_inputs_present tf ready_to_initialize).
  { intros tf Htf. split; [discriminate|]. split.
    { intros i. unfold ready_to_initialize.
      cbn [initial_camera_info_messages set_initial_imu_message
             set_initial_camera_info_messages node constructed constructed_with params
             num_cameras_].
      destruct (decide (i = 1)) as [->|Hone]; [rewrite lookup_insert_eq; split; [lia|eauto]|].
      rewrite lookup_insert_ne by congruence.
      destruct (decide (i = 0)) as [->|Hzero]; [rewrite lookup_insert_eq; split; [lia|eauto]|].
      rewrite lookup_insert_ne by congruence. rewrite lookup_empty.
      split; [intros [info Hinfo]; discriminate Hinfo|lia]. }
    split; [intros _; reflexivity|]. split; [right; cbn; lia|].
    split; [intros _; eexists; reflexivity|exact Htf]. }
  destruct (initialize_outcome init_ok ready_to_initialize eq_refl)
    as (Hneeds & _ & _ & _ & _ & _ & Hok).
  destruct (initialize_outcome init_without_tracker ready_to_initialize eq_refl)
    as (_ & _ & _ & _ & _ & _ & Hfailed).
  destruct (initialize_outcome init_ok constructed eq_refl) as (_ & _ & _ & Hthrows & _).
  assert (Hknown : forall target source, is_Some (lookupTransform tf_tree target source))
    by (intros target source; eexists; reflexivity).
  destruct (Hok eq_refl (Hpresent _ Hknown)) as (_ & Hinitialized).
  destruct (Hfailed eq_refl (Hpresent _ Hknown)) as (Hcreate & Hnot).
  destruct (Hneeds Hinitialized) as (Hhandle & _).
  split; [reflexivity|]. split; [exact (Hpresent _ Hknown)|].
  split; [exact Hinitialized|]. split; [exact Hhandle|]. split; [exact Hcreate|].
  split; [exact Hnot|]. split; [reflexivity|].
  apply Hthrows; [reflexivity|].
  intros [Hcameras _]. destruct (Hcameras 0 ltac:(cbn; lia)) as [info Hinfo].
  discriminate Hinfo.
Defined.

Lemma initialized_callbacks_only_forward_witness :
  let arrivals :=
    [OnImu [] (imu 12); OnCameraInfo init_ok 0 (camera_info 10); OnImage [] 0 (image 13 1);
     OnImage [group_13] 1 (image 13 2)] in
  IsInitialized running = true
  /\ filter is_forwarded (run_ingress arrivals running).2 =
       [EvSequencerCallbackStream1 12 (imu 12); EvSyncAddMessage 0 13 (image 13 1);
        EvSyncAddMessage 1 13 (image 13 2)]
  /\ filter is_ingress_event (run_ingress arrivals running).2 =
       [EvSequencerCallbackStream1 12 (imu 12); EvSyncAddMessage 0 13 (image 13 1);
        EvSyncAddMessage 1 13 (image 13 2); EvSequencerCallbackStream2 13 (stereo 13)]
  /\ last_track_ts (run_ingress arrivals running).1 = 13
  /\ IsInitialized (run_ingress arrivals running).1 = true.
Proof.
  cbn zeta.
  destruct (initialized_callbacks_only_forward
              [OnImu [] (imu 12); OnCameraInfo init_ok 0 (camera_info 10);
               OnImage [] 0 (image 13 1); OnImage [group_13] 1 (image 13 2)]
              running eq_refl)
    as (Hstate & _ & Hforwarded & Hhanded & _ & Hinitialized).
  split; [reflexivity|]. split; [exact Hforwarded|]. split; [exact Hhanded|].
  split; [rewrite Hstate; vm_compute; reflexivity|exact Hinitialized].
Defined.

Lemma uninitialized_callbacks_only_store_witness :
  let arrivals :=
    [OnImu [] (imu 12); OnImage [] 0 (image 13 1); OnCameraInfo init_ok 0 (camera_info 10);
     OnImu [] (imu 14)] in
  IsInitialized (run_ingress arrivals constructed).1 = false
  /\ filter is_forwarded (run_ingress arrivals constructed).2 = []
  /\ initial_imu_message (run_ingress arrivals constructed).1 = Some (imu 14).
Proof.
  cbn zeta.
  assert (Hend : IsInitialized
                   (run_ingress [OnImu [] (imu 12); OnImage [] 0 (image 13 1);
                                 OnCameraInfo init_ok 0 (camera_info 10); OnImu [] (imu 14)]
                      constructed).1 = false) by (vm_compute; reflexivity).
  split; [exact Hend|].
  destruct (uninitialized_callbacks_only_store _ _ Hend) as (Hquiet & Himu & _).
  split; [exact Hquiet|exact Himu].
Defined.

Lemma borders_lie_within_image_witness :
  0 <= 640 /\ 0 <= 480
  /\ let b := camera_borders unmasked 0 (region 600 400 200 100) 640 480 in
     0 <= border_top b <= 480 /\ 0 <= border_bottom b <= 480
     /\ 0 <= border_left b <= 640 /\ 0 <= border_right b <= 640.
Proof.
  split; [discriminate|]. split; [discriminate|].
  exact (borders_lie_within_image unmasked 0 (region 600 400 200 100) 640 480
           ltac:(discriminate) ltac:(discriminate)).
Defined.

Lemma region_of_interest_inside_image_witness :
  mask_mode unmasked = false
  /\ roi_is_uint32 (region 100 50 400 500)
  /\ let b := camera_borders unmasked 0 (region 100 50 400 500) 640 480 in
     border_top b = 50 /\ border_bottom b = 30 /\ border_left b = 100 /\ border_right b = 40.
Proof.
  assert (Huint : forall z, 0 <= z -> z < 2 ^ 32 -> is_uint32 z) by (intros z ? ?; split; assumption).
  assert (Hroi : roi_is_uint32 (region 100 50 400 500)).
  { repeat split; (discriminate || reflexivity). }
  split; [reflexivity|]. split; [exact Hroi|].
  destruct (region_of_interest_inside_image unmasked 0 (region 100 50 400 500) 640 480 eq_refl)
    as (Htop & Hbottom & Hleft & Hright & _);
    [apply Huint; [discriminate|reflexivity] | apply Huint; [discriminate|reflexivity]
    | exact Hroi | discriminate | discriminate |].
  cbn zeta. split; [exact Htop|]. split; [exact Hbottom|]. split; [exact Hleft|exact Hright].
Defined.

Lemma region_past_the_image_masks_it_witness :
  mask_mode unmasked = false
  /\ roi_is_uint32 (region 100 200 400 500)
  /\ border_bottom (camera_borders unmasked 0 (region 100 200 400 500) 640 480) = 480
  /\ roi_is_uint32 (region 100 4294967196 200 500)
  /\ border_bottom (camera_borders unmasked 0 (region 100 4294967196 200 500) 640 480) = 380.
Proof.
  assert (Huint : forall z, 0 <= z -> z < 2 ^ 32 -> is_uint32 z) by (intros z ? ?; split; assumption).
  assert (Hroi : roi_is_uint32 (region 100 200 400 500)).
  { repeat split; (discriminate || reflexivity). }
  assert (Hwrapping : roi_is_uint32 (region 100 4294967196 200 500)).
  { repeat split; (discriminate || reflexivity). }
  split; [reflexivity|]. split; [exact Hroi|].
  destruct (region_past_the_image_masks_it unmasked 0 (region 100 200 400 500) 640 480 eq_refl)
    as (Hbottom & _);
    [apply Huint; [discriminate|reflexivity] | apply Huint; [discriminate|reflexivity]
    | exact Hroi |].
  destruct (region_past_the_image_masks_it unmasked 0 (region 100 4294967196 200 500) 640 480
              eq_refl)
    as (Hwrapped & _);
    [apply Huint; [discriminate|reflexivity] | apply Huint; [discriminate|reflexivity]
    | exact Hwrapping |].
  split; [exact Hbottom|]. split; [exact Hwrapping|exact Hwrapped].
Defined.

Lemma border_masks_mirror_odd_cameras_witness :
  mask_mode masked = true
  /\ let left := camera_borders masked 0 (region 0 0 0 0) 640 480 in
     let right := camera_borders masked 1 (region 0 0 0 0) 640 480 in
     border_left left = 30 /\ border_right left = 40
     /\ border_left right = 40 /\ border_right right = 30.
Proof.
  split; [reflexivity|].
  destruct (border_masks_mirror_odd_cameras masked 0 1 (region 0 0 0 0) (region 0 0 0 0) 640 480
              eq_refl eq_refl ltac:(discriminate))
    as (_ & _ & Hleft & Hright & _ & _ & Hmirror_left & Hmirror_right).
  cbn zeta. split; [exact Hleft|]. split; [exact Hright|].
  split; [rewrite Hmirror_left; exact Hright|rewrite Hmirror_right; exact Hleft].
Defined.

End MoreRuns.
